(** * aiweb3news: the poll / dedup / classify / persist / notify pipeline

    A shallow embedding of the Go packages [config], [rss], [analysis],
    [storage] and [service] and of the command of the aiweb3news service,
    and the properties of its specification checked against that
    embedding.

    Conventions.
    - A Go [string] is a sequence of bytes: [bytes := list ascii].
    - A [rune] and a Go [int] are [Z]; a [time.Time] is a [Z] (seconds).
    - The external collaborators (feed parser, chat-completion transport,
      SQL engine, webhook endpoint) answer through explicit outcome values
      that are inputs of the model; every call the pipeline makes to one of
      them is recorded in an event trace. *)

From Stdlib Require Import String.
From Stdlib Require Import List ZArith Lia Bool Ascii Arith.
From Stdlib Require Import Permutation Sorted.
Import ListNotations.
Local Open Scope Z_scope.

(* ================================================================== *)
(** * Go strings: bytes, UTF-8, and the [strings] functions used       *)
(* ================================================================== *)

Module gostring.

Definition bytes := list ascii.
Definition rune := Z.

(** String literals. [lit] reads a literal as its bytes; [jlit] does the
    same and turns every apostrophe into a double quote, so that JSON
    text can be written legibly. *)
Definition lit (s : String.string) : bytes := String.list_ascii_of_string s.

Arguments lit s%_string.

Definition dquote : ascii := "034"%char.
Definition squote : ascii := "039"%char.

Definition jlit (s : String.string) : bytes :=
  map (fun c => if Ascii.eqb c squote then dquote else c) (lit s).
Arguments jlit s%_string.

Definition byteval (c : ascii) : Z := Z.of_N (N_of_ascii c).
Definition mkbyte (z : Z) : ascii := ascii_of_N (Z.to_N z).

Definition beq (a b : bytes) : bool :=
  if list_eq_dec ascii_dec a b then true else false.

(** ** unicode/utf8 *)

Definition RuneError : rune := 0xFFFD.
Definition RuneSelf : Z := 0x80.
Definition UTFMax : nat := 4.

Definition between (lo hi x : Z) : bool := (lo <=? x) && (x <=? hi).

(** A continuation byte, 10xxxxxx. *)
Definition isCont (b : Z) : bool := between 0x80 0xBF b.

(** [utf8.RuneStart]: any byte that is not a continuation byte. *)
Definition RuneStart (b : Z) : bool := negb (isCont b).

(** [utf8.DecodeRuneInString]: the first rune of [s] and its width in
    bytes.  Ill-formed input (a stray continuation byte, an overlong or
    surrogate encoding, a value above U+10FFFF, a truncated sequence)
    yields [(RuneError, 1)]; the empty string yields [(RuneError, 0)].
    The masks and shifts of the library are written as the arithmetic
    they perform on bytes of the accepted ranges. *)
Definition DecodeRuneInString (s : bytes) : rune * nat :=
  match s with
  | [] => (RuneError, 0%nat)
  | c0 :: t =>
    let b0 := byteval c0 in
    if b0 <? RuneSelf then (b0, 1%nat)
    else if between 0xC2 0xDF b0 then
      match t with
      | c1 :: _ =>
        let b1 := byteval c1 in
        if isCont b1
        then ((b0 - 0xC0) * 64 + (b1 - 0x80), 2%nat)
        else (RuneError, 1%nat)
      | _ => (RuneError, 1%nat)
      end
    else if between 0xE0 0xEF b0 then
      match t with
      | c1 :: c2 :: _ =>
        let b1 := byteval c1 in
        let b2 := byteval c2 in
        let lo := if b0 =? 0xE0 then 0xA0 else 0x80 in
        let hi := if b0 =? 0xED then 0x9F else 0xBF in
        if between lo hi b1 && isCont b2
        then ((b0 - 0xE0) * 4096 + (b1 - 0x80) * 64 + (b2 - 0x80), 3%nat)
        else (RuneError, 1%nat)
      | _ => (RuneError, 1%nat)
      end
    else if between 0xF0 0xF4 b0 then
      match t with
      | c1 :: c2 :: c3 :: _ =>
        let b1 := byteval c1 in
        let b2 := byteval c2 in
        let b3 := byteval c3 in
        let lo := if b0 =? 0xF0 then 0x90 else 0x80 in
        let hi := if b0 =? 0xF4 then 0x8F else 0xBF in
        if between lo hi b1 && isCont b2 && isCont b3
        then ((b0 - 0xF0) * 262144 + (b1 - 0x80) * 4096
              + (b2 - 0x80) * 64 + (b3 - 0x80), 4%nat)
        else (RuneError, 1%nat)
      | _ => (RuneError, 1%nat)
      end
    else (RuneError, 1%nat)
  end.

(** [utf8.DecodeLastRuneInString]: the last rune of [s] and its width. *)
Fixpoint scanBack (fuel : nat) (s : bytes) (start lim : Z) : Z :=
  match fuel with
  | O => start
  | S fuel' =>
    if start <? lim then start
    else if RuneStart (byteval (nth (Z.to_nat start) s zero)) then start
    else scanBack fuel' s (start - 1) lim
  end.

Definition DecodeLastRuneInString (s : bytes) : rune * nat :=
  let endp := Z.of_nat (length s) in
  if endp =? 0 then (RuneError, 0%nat)
  else
    let start := endp - 1 in
    let r := byteval (nth (Z.to_nat start) s zero) in
    if r <? RuneSelf then (r, 1%nat)
    else
      let lim := Z.max 0 (endp - Z.of_nat UTFMax) in
      let start := scanBack UTFMax s (start - 1) lim in
      let start := Z.max 0 start in
      let '(r, size) := DecodeRuneInString (skipn (Z.to_nat start) s) in
      if start + Z.of_nat size =? endp then (r, size)
      else (RuneError, 1%nat).

(** [[]rune(s)]: decode rune after rune.  The recursion is on the bytes;
    [skip] counts the bytes still covered by the rune decoded last. *)
Fixpoint runesFrom (skip : nat) (s : bytes) : list rune :=
  match s with
  | [] => []
  | _ :: t =>
    match skip with
    | S k => runesFrom k t
    | O => let '(r, n) := DecodeRuneInString s in r :: runesFrom (n - 1) t
    end
  end.

Definition runes (s : bytes) : list rune := runesFrom 0 s.

Definition isSurrogate (r : rune) : bool := between 0xD800 0xDFFF r.

(** [utf8.ValidRune]. *)
Definition ValidRune (r : rune) : bool :=
  between 0 0x10FFFF r && negb (isSurrogate r).

(** [utf8.AppendRune]: the UTF-8 encoding of one rune; a value that is
    not a Unicode scalar value is encoded as U+FFFD. *)
Definition EncodeRune (r : rune) : bytes :=
  if between 0 0x7F r then [mkbyte r]
  else if between 0x80 0x7FF r then
    [mkbyte (0xC0 + r / 64); mkbyte (0x80 + r mod 64)]
  else if negb (ValidRune r) then
    [mkbyte 0xEF; mkbyte 0xBF; mkbyte 0xBD]
  else if r <=? 0xFFFF then
    [mkbyte (0xE0 + r / 4096); mkbyte (0x80 + (r / 64) mod 64);
     mkbyte (0x80 + r mod 64)]
  else
    [mkbyte (0xF0 + r / 262144); mkbyte (0x80 + (r / 4096) mod 64);
     mkbyte (0x80 + (r / 64) mod 64); mkbyte (0x80 + r mod 64)].

(** [string(rs)] for a rune slice [rs]. *)
Definition stringOfRunes (rs : list rune) : bytes := flat_map EncodeRune rs.

(** ** unicode.IsSpace *)
Definition IsSpace (r : rune) : bool :=
  between 0x09 0x0D r || (r =? 0x20) || (r =? 0x85) || (r =? 0xA0)
  || (r =? 0x1680) || between 0x2000 0x200A r || between 0x2028 0x2029 r
  || (r =? 0x202F) || (r =? 0x205F) || (r =? 0x3000).

(** ** package strings *)

Fixpoint HasPrefix (s prefix : bytes) {struct prefix} : bool :=
  match prefix, s with
  | [], _ => true
  | p :: prefix', c :: s' => Ascii.eqb c p && HasPrefix s' prefix'
  | _ :: _, [] => false
  end.

Definition HasSuffix (s suffix : bytes) : bool :=
  HasPrefix (rev s) (rev suffix).

Definition TrimPrefix (s prefix : bytes) : bytes :=
  if HasPrefix s prefix then skipn (length prefix) s else s.

Definition TrimSuffix (s suffix : bytes) : bytes :=
  if HasSuffix s suffix then firstn (length s - length suffix) s else s.

(** [strings.Index]: the byte offset of the first occurrence of [substr]
    in [s], [-1] when there is none. *)
Fixpoint Index (s substr : bytes) : Z :=
  if HasPrefix s substr then 0
  else match s with
       | [] => -1
       | _ :: s' => let i := Index s' substr in
                    if i <? 0 then -1 else i + 1
       end.

Definition Contains (s substr : bytes) : bool := 0 <=? Index s substr.

(** [strings.TrimLeftFunc s unicode.IsSpace]. *)
Fixpoint trimLeftFrom (skip : nat) (s : bytes) : bytes :=
  match s with
  | [] => []
  | _ :: t =>
    match skip with
    | S k => trimLeftFrom k t
    | O => let '(r, n) := DecodeRuneInString s in
           if IsSpace r then trimLeftFrom (n - 1) t else s
    end
  end.

Definition TrimLeftSpace (s : bytes) : bytes := trimLeftFrom 0 s.

(** [strings.TrimRightFunc s unicode.IsSpace]: runes are taken off the
    end, one [DecodeLastRuneInString] at a time, while they are spaces. *)
Fixpoint trimRightFuel (fuel : nat) (s : bytes) : bytes :=
  match fuel with
  | O => s
  | S fuel' =>
    match s with
    | [] => []
    | _ :: _ =>
      let '(r, size) := DecodeLastRuneInString s in
      if IsSpace r then trimRightFuel fuel' (firstn (length s - size) s)
      else s
    end
  end.

Definition TrimRightSpace (s : bytes) : bytes := trimRightFuel (length s) s.

(** [strings.TrimSpace]: leading and trailing Unicode white space
    removed. *)
Definition TrimSpace (s : bytes) : bytes := TrimRightSpace (TrimLeftSpace s).

(** [strings.ReplaceAll s old new] for a non-empty [old]: the
    non-overlapping occurrences of [old], found from left to right, are
    replaced by [new].  [skip] counts the bytes of the occurrence being
    replaced that remain to be passed over. *)
Fixpoint replaceFrom (skip : nat) (s old new : bytes) : bytes :=
  match s with
  | [] => []
  | c :: t =>
    match skip with
    | S k => replaceFrom k t old new
    | O => if HasPrefix s old
           then new ++ replaceFrom (length old - 1) t old new
           else c :: replaceFrom 0 t old new
    end
  end.

Definition ReplaceAll (s old new : bytes) : bytes := replaceFrom 0 s old new.

End gostring.

(** A Go return [(T, error)]: the value when the error is nil, else the
    error (what the message says is not kept). *)
Module goerror.

Inductive fallible (A : Type) : Type :=
| Ok (a : A)
| Err.
Arguments Ok {A} a.
Arguments Err {A}.

End goerror.

(* ================================================================== *)
(** * encoding/json, as far as the service uses it                     *)
(* ================================================================== *)

(** The service unmarshals the model's answer into an [analysis.Result],
    marshals a tag list into a column and unmarshals it back.  This
    module follows the documented behaviour of the library: RFC 8259
    syntax, checked over the whole input before anything is stored; a
    JSON null stored into a bool or a string has no effect; a value of
    the wrong JSON type for its destination is an error.  The nesting
    limit of the library is not modelled. *)

Module json.
Import gostring goerror.

#[warnings="-register-all"]
Inductive value : Type :=
| Null
| Bool (b : bool)
| Number (raw : bytes)
| String (s : bytes)
| Array (elems : list value)
| Object (members : list (bytes * value)).

(** The outcome of reading a prefix of the input. *)
Inductive parsed (A : Type) : Type :=
| SyntaxError
| OutOfFuel
| Parsed (a : A) (rest : bytes).
Arguments SyntaxError {A}.
Arguments OutOfFuel {A}.
Arguments Parsed {A} a rest.

Definition isWS (c : ascii) : bool :=
  let b := byteval c in
  (b =? 0x20) || (b =? 0x09) || (b =? 0x0D) || (b =? 0x0A).

Fixpoint skipWS (s : bytes) : bytes :=
  match s with
  | c :: t => if isWS c then skipWS t else s
  | [] => []
  end.

Definition isDigit (c : ascii) : bool := between 0x30 0x39 (byteval c).

Fixpoint spanDigits (s : bytes) : bytes * bytes :=
  match s with
  | c :: t => if isDigit c
              then let '(d, r) := spanDigits t in (c :: d, r)
              else ([], s)
  | [] => ([], [])
  end.

Definition hexval (c : ascii) : option Z :=
  let b := byteval c in
  if between 0x30 0x39 b then Some (b - 0x30)
  else if between 0x61 0x66 b then Some (b - 0x61 + 10)
  else if between 0x41 0x46 b then Some (b - 0x41 + 10)
  else None.

(** Four hexadecimal digits at the head of [s]. *)
Definition hex4 (s : bytes) : option Z :=
  match s with
  | a :: b :: c :: d :: _ =>
    match hexval a, hexval b, hexval c, hexval d with
    | Some x, Some y, Some z, Some w => Some (((x * 16 + y) * 16 + z) * 16 + w)
    | _, _, _, _ => None
    end
  | _ => None
  end.

(** The escape [\uXXXX] at the head of [s]. *)
Definition getu4 (s : bytes) : option Z :=
  match s with
  | bs :: u :: t =>
    if (byteval bs =? 0x5C) && (byteval u =? 0x75) then hex4 t else None
  | _ => None
  end.

(** [utf16.DecodeRune]. *)
Definition utf16DecodeRune (r1 r2 : Z) : rune :=
  if between 0xD800 0xDBFF r1 && between 0xDC00 0xDFFF r2
  then (r1 - 0xD800) * 1024 + (r2 - 0xDC00) + 0x10000
  else RuneError.

Definition simpleEscape (c : ascii) : option ascii :=
  let b := byteval c in
  if (b =? 0x22) || (b =? 0x5C) || (b =? 0x2F) then Some c
  else if b =? 0x62 then Some (mkbyte 0x08)
  else if b =? 0x66 then Some (mkbyte 0x0C)
  else if b =? 0x6E then Some (mkbyte 0x0A)
  else if b =? 0x72 then Some (mkbyte 0x0D)
  else if b =? 0x74 then Some (mkbyte 0x09)
  else None.

(** The body of a string literal, after its opening quote: the decoded
    bytes (reversed in [acc]) and the input after the closing quote.
    Ill-formed UTF-8 and unpaired surrogate escapes become U+FFFD. *)
Fixpoint unquoteFrom (skip : nat) (s : bytes) (acc : bytes) : parsed bytes :=
  match s with
  | [] => SyntaxError
  | c :: t =>
    match skip with
    | S k => unquoteFrom k t acc
    | O =>
      let b := byteval c in
      if b =? 0x22 then Parsed (rev acc) t
      else if b =? 0x5C then
        match t with
        | [] => SyntaxError
        | e :: t' =>
          match simpleEscape e with
          | Some x => unquoteFrom 1 t (x :: acc)
          | None =>
            if byteval e =? 0x75 then
              match hex4 t' with
              | None => SyntaxError
              | Some rr =>
                if isSurrogate rr then
                  match getu4 (skipn 4 t') with
                  | Some rr1 =>
                    let dec := utf16DecodeRune rr rr1 in
                    if dec =? RuneError
                    then unquoteFrom 5 t (rev (EncodeRune RuneError) ++ acc)
                    else unquoteFrom 11 t (rev (EncodeRune dec) ++ acc)
                  | None =>
                    unquoteFrom 5 t (rev (EncodeRune RuneError) ++ acc)
                  end
                else unquoteFrom 5 t (rev (EncodeRune rr) ++ acc)
              end
            else SyntaxError
          end
        end
      else if b <? 0x20 then SyntaxError
      else if b <? RuneSelf then unquoteFrom 0 t (c :: acc)
      else
        let '(r, n) := DecodeRuneInString s in
        unquoteFrom (n - 1) t (rev (EncodeRune r) ++ acc)
    end
  end.

Definition unquote (s : bytes) : parsed bytes := unquoteFrom 0 s [].

(** A number literal at the head of [s]: its text and the rest. *)
Definition parseDigits1 (s : bytes) : option (bytes * bytes) :=
  match spanDigits s with
  | ([], _) => None
  | (d, r) => Some (d, r)
  end.

Definition parseInt (s : bytes) : option (bytes * bytes) :=
  match s with
  | c :: t =>
    if byteval c =? 0x30 then Some ([c], t)
    else if between 0x31 0x39 (byteval c)
    then let '(d, r) := spanDigits t in Some (c :: d, r)
    else None
  | [] => None
  end.

Definition parseFrac (s : bytes) : option (bytes * bytes) :=
  match s with
  | c :: t =>
    if byteval c =? 0x2E then
      match parseDigits1 t with
      | Some (d, r) => Some (c :: d, r)
      | None => None
      end
    else Some ([], s)
  | [] => Some ([], [])
  end.

Definition parseExp (s : bytes) : option (bytes * bytes) :=
  match s with
  | c :: t =>
    if (byteval c =? 0x65) || (byteval c =? 0x45) then
      let '(sign, t1) :=
        match t with
        | g :: t' => if (byteval g =? 0x2B) || (byteval g =? 0x2D)
                     then ([g], t') else ([], t)
        | [] => ([], t)
        end in
      match parseDigits1 t1 with
      | Some (d, r) => Some (c :: sign ++ d, r)
      | None => None
      end
    else Some ([], s)
  | [] => Some ([], [])
  end.

Definition parseNumber (s : bytes) : parsed bytes :=
  let '(neg, s1) :=
    match s with
    | c :: t => if byteval c =? 0x2D then ([c], t) else ([], s)
    | [] => ([], s)
    end in
  match parseInt s1 with
  | None => SyntaxError
  | Some (i, s2) =>
    match parseFrac s2 with
    | None => SyntaxError
    | Some (f, s3) =>
      match parseExp s3 with
      | None => SyntaxError
      | Some (e, s4) => Parsed (neg ++ i ++ f ++ e) s4
      end
    end
  end.

Definition parseLiteral (word : bytes) (v : value) (s : bytes) : parsed value :=
  if HasPrefix s word then Parsed v (skipn (length word) s) else SyntaxError.

(** The elements of an array after its opening bracket, the first
    element still to be read. *)
Fixpoint parseElems (pv : bytes -> parsed value) (n : nat) (s : bytes)
         (acc : list value) : parsed (list value) :=
  match n with
  | O => OutOfFuel
  | S n' =>
    match pv s with
    | SyntaxError => SyntaxError
    | OutOfFuel => OutOfFuel
    | Parsed v r =>
      match skipWS r with
      | c :: r' =>
        if byteval c =? 0x2C then parseElems pv n' r' (v :: acc)
        else if byteval c =? 0x5D then Parsed (rev (v :: acc)) r'
        else SyntaxError
      | [] => SyntaxError
      end
    end
  end.

(** The members of an object after its opening brace, the first key
    still to be read. *)
Fixpoint parseMembers (pv : bytes -> parsed value) (n : nat) (s : bytes)
         (acc : list (bytes * value)) : parsed (list (bytes * value)) :=
  match n with
  | O => OutOfFuel
  | S n' =>
    match skipWS s with
    | q :: s1 =>
      if byteval q =? 0x22 then
        match unquote s1 with
        | Parsed k s2 =>
          match skipWS s2 with
          | colon :: s3 =>
            if byteval colon =? 0x3A then
              match pv s3 with
              | SyntaxError => SyntaxError
              | OutOfFuel => OutOfFuel
              | Parsed v r =>
                match skipWS r with
                | c :: r' =>
                  if byteval c =? 0x2C
                  then parseMembers pv n' r' ((k, v) :: acc)
                  else if byteval c =? 0x7D
                  then Parsed (rev ((k, v) :: acc)) r'
                  else SyntaxError
                | [] => SyntaxError
                end
              end
            else SyntaxError
          | [] => SyntaxError
          end
        | _ => SyntaxError
        end
      else SyntaxError
    | [] => SyntaxError
    end
  end.

(** One JSON value at the head of [s], leading white space skipped. *)
Fixpoint parseValue (fuel : nat) (s : bytes) : parsed value :=
  match fuel with
  | O => OutOfFuel
  | S f =>
    match skipWS s with
    | [] => SyntaxError
    | c :: t =>
      let b := byteval c in
      if b =? 0x7B then
        match skipWS t with
        | c' :: t' =>
          if byteval c' =? 0x7D then Parsed (Object []) t'
          else match parseMembers (parseValue f) f t [] with
               | Parsed m r => Parsed (Object m) r
               | SyntaxError => SyntaxError
               | OutOfFuel => OutOfFuel
               end
        | [] => SyntaxError
        end
      else if b =? 0x5B then
        match skipWS t with
        | c' :: t' =>
          if byteval c' =? 0x5D then Parsed (Array []) t'
          else match parseElems (parseValue f) f t [] with
               | Parsed l r => Parsed (Array l) r
               | SyntaxError => SyntaxError
               | OutOfFuel => OutOfFuel
               end
        | [] => SyntaxError
        end
      else if b =? 0x22 then
        match unquote t with
        | Parsed str r => Parsed (String str) r
        | SyntaxError => SyntaxError
        | OutOfFuel => OutOfFuel
        end
      else if b =? 0x74 then parseLiteral (lit "true") (Bool true) (c :: t)
      else if b =? 0x66 then parseLiteral (lit "false") (Bool false) (c :: t)
      else if b =? 0x6E then parseLiteral (lit "null") Null (c :: t)
      else if (b =? 0x2D) || between 0x30 0x39 b then
        match parseNumber (c :: t) with
        | Parsed raw r => Parsed (Number raw) r
        | SyntaxError => SyntaxError
        | OutOfFuel => OutOfFuel
        end
      else SyntaxError
    end
  end.

(** A whole JSON text: one value, white space around it, nothing else.
    [None] is the library's syntax error. *)
Definition parse (s : bytes) : option value :=
  match parseValue (S (length s)) s with
  | Parsed v r => match skipWS r with [] => Some v | _ :: _ => None end
  | _ => None
  end.

(** Field-name folding: a key matches a field name when it is the same
    up to letter case; besides the ASCII letters, U+017F folds with S and
    U+212A with K. *)
Definition foldRune (r : rune) : rune :=
  if between 0x61 0x7A r then r - 0x20
  else if r =? 0x17F then 0x53
  else if r =? 0x212A then 0x4B
  else r.

Definition foldName (s : bytes) : list rune := map foldRune (runes s).

(** The field of [names] that key [k] selects: an exact match, else a
    match up to case. *)
Fixpoint findExact (names : list bytes) (k : bytes) : option bytes :=
  match names with
  | [] => None
  | n :: rest => if beq n k then Some n else findExact rest k
  end.

Fixpoint findFolded (names : list bytes) (k : bytes) : option bytes :=
  match names with
  | [] => None
  | n :: rest =>
    if list_eq_dec Z.eq_dec (foldName n) (foldName k) then Some n
    else findFolded rest k
  end.

Definition findField (names : list bytes) (k : bytes) : option bytes :=
  match findExact names k with
  | Some n => Some n
  | None => findFolded names k
  end.

(** ** Marshal of a string *)

Definition hexdigit (n : Z) : ascii :=
  if n <? 10 then mkbyte (0x30 + n) else mkbyte (0x61 + n - 10).

Definition escapeU00 (b : Z) : bytes :=
  lit "\u00" ++ [hexdigit (b / 16); hexdigit (b mod 16)].

(** The escaping of [Marshal] (HTML escaping on, as by default). *)
Fixpoint appendStringFrom (skip : nat) (s : bytes) : bytes :=
  match s with
  | [] => []
  | c :: t =>
    match skip with
    | S k => appendStringFrom k t
    | O =>
      let b := byteval c in
      if b <? RuneSelf then
        (if (b =? 0x5C) || (b =? 0x22) then [mkbyte 0x5C; c]
         else if b =? 0x08 then lit "\b"
         else if b =? 0x0C then lit "\f"
         else if b =? 0x0A then lit "\n"
         else if b =? 0x0D then lit "\r"
         else if b =? 0x09 then lit "\t"
         else if (b <? 0x20) || (b =? 0x3C) || (b =? 0x3E) || (b =? 0x26)
         then escapeU00 b
         else [c]) ++ appendStringFrom 0 t
      else
        let '(r, n) := DecodeRuneInString s in
        if (r =? RuneError) && (n =? 1)%nat
        then lit "\u" ++ lit "fffd" ++ appendStringFrom 0 t
        else if (r =? 0x2028) || (r =? 0x2029)
        then lit "\u202" ++ [hexdigit (r mod 16)] ++ appendStringFrom (n - 1) t
        else firstn n s ++ appendStringFrom (n - 1) t
    end
  end.

Definition quote (s : bytes) : bytes :=
  [dquote] ++ appendStringFrom 0 s ++ [dquote].

Fixpoint joinComma (l : list bytes) : bytes :=
  match l with
  | [] => []
  | [x] => x
  | x :: rest => x ++ lit "," ++ joinComma rest
  end.

(** [json.Marshal] of a [[]string]; [None] is the nil slice. *)
Definition MarshalStrings (v : option (list bytes)) : bytes :=
  match v with
  | None => lit "null"
  | Some l => lit "[" ++ joinComma (map quote l) ++ lit "]"
  end.

(** [json.Unmarshal] into a [[]string] that is nil beforehand. *)
Fixpoint stringElems (l : list value) : option (list bytes) :=
  match l with
  | [] => Some []
  | String s :: rest => option_map (cons s) (stringElems rest)
  | Null :: rest => option_map (cons []) (stringElems rest)
  | _ :: _ => None
  end.

Definition UnmarshalStrings (data : bytes) : fallible (option (list bytes)) :=
  match parse data with
  | None => Err
  | Some Null => Ok None
  | Some (Array l) =>
    match stringElems l with
    | Some ss => Ok (Some ss)
    | None => Err
    end
  | Some _ => Err
  end.

(** [json.Marshal] of a map with string keys; [members] lists the keys
    in sorted order, as [Marshal] writes them, each with its value
    already encoded. *)
Definition MarshalMap (members : list (bytes * bytes)) : bytes :=
  lit "{"
  ++ joinComma (map (fun kv => quote (fst kv) ++ lit ":" ++ snd kv) members)
  ++ lit "}".

End json.

(* ================================================================== *)
(** * os.Getenv and strconv.Atoi                                       *)
(* ================================================================== *)

(** The environment of the process: the value of each variable that is
    set. *)
Module os.
Import gostring.

Definition Environ := bytes -> option bytes.

(** [os.Getenv]: the value of the variable, empty when it is not set. *)
Definition Getenv (env : Environ) (key : bytes) : bytes :=
  match env key with
  | Some v => v
  | None => []
  end.

End os.

(** [strconv.Atoi] on a 64-bit platform: an optional sign, then decimal
    digits only, at least one; a value outside the range of [int] is an
    error.  [None] stands for [err != nil]. *)
Module strconv.
Import gostring.

Definition minInt : Z := - 2 ^ 63.
Definition maxInt : Z := 2 ^ 63 - 1.

Fixpoint digits (s : bytes) (n : Z) : option Z :=
  match s with
  | [] => Some n
  | ch :: t =>
    let d := byteval ch - 0x30 in
    if between 0 9 d then digits t (n * 10 + d) else None
  end.

(** The digits after the sign, and the range check. *)
Definition unsigned (neg : bool) (body : bytes) : option Z :=
  match body with
  | [] => None
  | _ :: _ =>
    match digits body 0 with
    | None => None
    | Some n =>
      let v := if neg then - n else n in
      if (minInt <=? v) && (v <=? maxInt) then Some v else None
    end
  end.

Definition Atoi (s : bytes) : option Z :=
  match s with
  | c :: t => if byteval c =? 0x2D then unsigned true t
              else if byteval c =? 0x2B then unsigned false t
              else unsigned false s
  | [] => None
  end.

End strconv.

(* ================================================================== *)
(** * package config (src/internal/service/service.go, lines 138-220)  *)
(* ================================================================== *)

Module config.
Import gostring.

Definition defaultFeedURL : bytes :=
  lit "https://www.techflowpost.com/rss.aspx".
Definition defaultPollMinutes : Z := 15.
Definition defaultBindAddr : bytes := lit ":8082".
Definition defaultOpenAIModel : bytes := lit "gpt-4o".
Definition defaultOpenAIBase : bytes := lit "https://aigateway.hrlyit.com/v1".
Definition defaultMaxItemStore : Z := 50.
Definition defaultDBHost : bytes := lit "mysql01.dev.lls.com".
Definition defaultDBPort : Z := 4120.
Definition defaultDBUser : bytes := lit "root".
Definition defaultDBPass : bytes := lit "123456".
Definition defaultDBName : bytes := lit "aiweb3news".

(** [Config]: the runtime configuration.  [PollInterval] is a
    [time.Duration], a signed 64-bit count of nanoseconds. *)
Record Config : Type := {
  FeedURL : bytes;
  PollInterval : Z;
  BindAddr : bytes;
  OpenAIKey : bytes;
  OpenAIModel : bytes;
  OpenAIBase : bytes;
  MaxItems : Z;
  DBHost : bytes;
  DBPort : Z;
  DBUser : bytes;
  DBPass : bytes;
  DBName : bytes
}.

Definition nonEmpty (s : bytes) : bool :=
  match s with [] => false | _ :: _ => true end.

Definition stringWithDefault (env : os.Environ) (key fallback : bytes)
  : bytes :=
  let v := os.Getenv env key in
  if nonEmpty v then v else fallback.

(** [time.Minute], in nanoseconds. *)
Definition Minute : Z := 60 * 1000000000.

(** The value a signed 64-bit integer holds after an operation whose
    exact result is [z]. *)
Definition int64 (z : Z) : Z := (z + 2 ^ 63) mod 2 ^ 64 - 2 ^ 63.

Definition durationFromMinutes (env : os.Environ) (key : bytes)
           (fallback : Z) : Z :=
  let v := os.Getenv env key in
  let fromEnv :=
    if nonEmpty v then
      match strconv.Atoi v with
      | Some minutes =>
        if 0 <? minutes then Some (int64 (minutes * Minute)) else None
      | None => None
      end
    else None in
  match fromEnv with
  | Some d => d
  | None => int64 (fallback * Minute)
  end.

Definition intWithDefault (env : os.Environ) (key : bytes) (fallback : Z)
  : Z :=
  let v := os.Getenv env key in
  let fromEnv :=
    if nonEmpty v then
      match strconv.Atoi v with
      | Some parsed => if 0 <? parsed then Some parsed else None
      | None => None
      end
    else None in
  match fromEnv with
  | Some parsed => parsed
  | None => fallback
  end.

(** [Load] reads environment variables, filling in defaults. *)
Definition Load (env : os.Environ) : Config :=
  {| FeedURL := stringWithDefault env (lit "FEED_URL") defaultFeedURL;
     PollInterval :=
       durationFromMinutes env (lit "POLL_INTERVAL_MINUTES") defaultPollMinutes;
     BindAddr := stringWithDefault env (lit "BIND_ADDR") defaultBindAddr;
     OpenAIKey := os.Getenv env (lit "OPENAI_API_KEY");
     OpenAIModel :=
       stringWithDefault env (lit "OPENAI_MODEL") defaultOpenAIModel;
     OpenAIBase :=
       stringWithDefault env (lit "OPENAI_BASE_URL") defaultOpenAIBase;
     MaxItems := intWithDefault env (lit "MAX_ITEMS") defaultMaxItemStore;
     DBHost := stringWithDefault env (lit "DB_HOST") defaultDBHost;
     DBPort := intWithDefault env (lit "DB_PORT") defaultDBPort;
     DBUser := stringWithDefault env (lit "DB_USER") defaultDBUser;
     DBPass := stringWithDefault env (lit "DB_PASSWORD") defaultDBPass;
     DBName := stringWithDefault env (lit "DB_NAME") defaultDBName |}.

End config.

(* ================================================================== *)
(** * package rss (src/internal/rss/fetcher.go)                        *)
(* ================================================================== *)

(** An entry as the feed parser hands it over ([gofeed.Item], the fields
    the fetcher reads). *)
Module gofeed.
Import gostring.

Record Item : Type := {
  GUID : bytes;
  Title : bytes;
  Link : bytes;
  PublishedParsed : option Z;
  Description : bytes
}.

End gofeed.

Module rss.
Import gostring.

(** [Item]: a normalized RSS entry. *)
Record Item : Type := {
  GUID : bytes;
  Title : bytes;
  Link : bytes;
  PublishedAt : Z;
  Description : bytes
}.

Definition isEmpty (s : bytes) : bool :=
  match s with [] => true | _ :: _ => false end.

Definition pickGUID (entry : gofeed.Item) : bytes :=
  if negb (isEmpty (gofeed.GUID entry)) then gofeed.GUID entry
  else if negb (isEmpty (gofeed.Link entry)) then gofeed.Link entry
  else gofeed.Title entry.

Definition newsletter : bytes := lit "/newsletter/".

(** The loop of [Fetch] over [feed.Items]; [clock i] is what [time.Now()]
    returns while the entry at position [i] is handled. *)
Fixpoint collect (clock : nat -> Z) (i : nat) (entries : list gofeed.Item)
  : list Item :=
  match entries with
  | [] => []
  | entry :: rest =>
    let pubTime :=
      match gofeed.PublishedParsed entry with
      | Some t => t
      | None => clock i
      end in
    let guid := pickGUID entry in
    if negb (Contains guid newsletter)
       && negb (Contains (gofeed.Link entry) newsletter)
    then collect clock (S i) rest
    else {| GUID := guid;
            Title := gofeed.Title entry;
            Link := gofeed.Link entry;
            PublishedAt := pubTime;
            Description := gofeed.Description entry |}
         :: collect clock (S i) rest
  end.

(** [Fetch]: [parsed] is the outcome of [ParseURLWithContext], [None]
    for its error. *)
Definition Fetch (parsed : option (list gofeed.Item)) (clock : nat -> Z)
  : option (list Item) :=
  match parsed with
  | None => None
  | Some entries => Some (collect clock 0 entries)
  end.

End rss.

(* ================================================================== *)
(** * package analysis (src/unnamed/part_000, lines 179-315)           *)
(* ================================================================== *)

Module analysis.
Import gostring goerror.

(** [Result]: the AI judgement about a news item.  [Tags = None] is the
    nil slice. *)
Record Result : Type := {
  Relevant : bool;
  Category : bytes;
  Reason : bytes;
  Tags : option (list bytes)
}.

Definition zeroResult : Result :=
  {| Relevant := false; Category := []; Reason := []; Tags := None |}.

(** [ItemContext]: the fields passed to the model. *)
Record ItemContext : Type := {
  Title : bytes;
  Link : bytes;
  PublishedAt : Z;
  Summary : bytes
}.

Inductive error : Type :=
| errDisabled
| errTransport
| errNoChoices
| errParse.

Definition newline : bytes := ["010"%char].

(** [trimText].  The slice expression [runes[:max]] is only reached with
    [max] below the length of [runes]; for a negative [max] Go panics
    there, and the one call site passes 800. *)
Definition trimText (s : bytes) (max : Z) : bytes :=
  if Z.of_nat (length (runes s)) <=? max then s
  else
    let rs := runes (TrimSpace s) in
    if Z.of_nat (length rs) <=? max then stringOfRunes rs
    else stringOfRunes (firstn (Z.to_nat max) rs).

Definition fence : bytes := lit "```".
Definition fenceJson : bytes := lit "```json".
Definition nullCategory : bytes := jlit "'category': null".
Definition emptyCategory : bytes := jlit "'category': ''".

(** [cleanupResponse]: removes code fences and normalizes minor model
    deviations. *)
Definition cleanupResponse (s : bytes) : bytes :=
  let c := TrimSpace s in
  let c :=
    if HasPrefix c fence then
      let idx := Index c newline in
      let c := if negb (idx =? -1) then skipn (Z.to_nat (idx + 1)) c else c in
      let c := TrimPrefix c fenceJson in
      let c := TrimPrefix c fence in
      let c := TrimSuffix c fence in
      TrimSpace c
    else c in
  ReplaceAll c nullCategory emptyCategory.

(** [json.Unmarshal(data, &out)] for [out] of type [Result]. *)
Definition fieldNames : list bytes :=
  [lit "relevant"; lit "category"; lit "reason"; lit "tags"].

(** Array elements are decoded into the slice already there: a null
    leaves the element at its position as it is (empty when new). *)
Fixpoint decodeTags (old : list bytes) (l : list json.value)
  : option (list bytes) :=
  match l with
  | [] => Some []
  | v :: rest =>
    let '(o, old') := match old with
                      | x :: old' => (x, old')
                      | [] => ([], [])
                      end in
    match v with
    | json.String s => option_map (cons s) (decodeTags old' rest)
    | json.Null => option_map (cons o) (decodeTags old' rest)
    | _ => None
    end
  end.

Definition setField (out : Result) (name : bytes) (v : json.value)
  : option Result :=
  if beq name (lit "relevant") then
    match v with
    | json.Bool b =>
      Some {| Relevant := b; Category := Category out;
              Reason := Reason out; Tags := Tags out |}
    | json.Null => Some out
    | _ => None
    end
  else if beq name (lit "category") then
    match v with
    | json.String s =>
      Some {| Relevant := Relevant out; Category := s;
              Reason := Reason out; Tags := Tags out |}
    | json.Null => Some out
    | _ => None
    end
  else if beq name (lit "reason") then
    match v with
    | json.String s =>
      Some {| Relevant := Relevant out; Category := Category out;
              Reason := s; Tags := Tags out |}
    | json.Null => Some out
    | _ => None
    end
  else
    match v with
    | json.Array l =>
      match decodeTags (match Tags out with Some t => t | None => [] end) l with
      | Some t =>
        Some {| Relevant := Relevant out; Category := Category out;
                Reason := Reason out; Tags := Some t |}
      | None => None
      end
    | json.Null =>
      Some {| Relevant := Relevant out; Category := Category out;
              Reason := Reason out; Tags := None |}
    | _ => None
    end.

Fixpoint decodeMembers (out : Result) (m : list (bytes * json.value))
  : option Result :=
  match m with
  | [] => Some out
  | (k, v) :: rest =>
    match json.findField fieldNames k with
    | None => decodeMembers out rest
    | Some name =>
      match setField out name v with
      | Some out' => decodeMembers out' rest
      | None => None
      end
    end
  end.

Definition Unmarshal (data : bytes) : fallible Result :=
  match json.parse data with
  | None => Err
  | Some json.Null => Ok zeroResult
  | Some (json.Object m) =>
    match decodeMembers zeroResult m with
    | Some out => Ok out
    | None => Err
    end
  | Some _ => Err
  end.

(** The arguments of the user prompt: what goes to the model about the
    item. *)
Record ChatRequest : Type := {
  reqTitle : bytes;
  reqLink : bytes;
  reqPublishedAt : Z;
  reqSummary : bytes
}.

(** The answer of [CreateChatCompletion]: an error, or the message
    contents of the choices returned. *)
Inductive ChatOutcome : Type :=
| ChatError
| ChatChoices (contents : list bytes).

Inductive Outcome : Type :=
| Done (r : Result)
| Failed (e : error).

Definition userPrompt (item : ItemContext) : ChatRequest :=
  {| reqTitle := Title item;
     reqLink := Link item;
     reqPublishedAt := PublishedAt item;
     reqSummary := trimText (Summary item) 800 |}.

(** [Client]: the analyzer built on the chat completion API.  [client]
    says that the transport client is not nil. *)
Record Client : Type := {
  client : bool;
  activated : bool
}.

(** [NewClient]: with an empty [apiKey] no transport client is built. *)
Definition NewClient (apiKey : bytes) : Client :=
  let activated := negb (beq apiKey []) in
  {| client := activated; activated := activated |}.

(** [Ready] indicates whether the analyzer is usable. *)
Definition Ready (c : Client) : bool := activated c && client c.

(** [Client.Evaluate].  [chat] is the answer the transport gives to the
    request, if one is made.  The result comes with the requests sent to
    the model (none or one). *)
Definition Evaluate (c : Client) (chat : ChatOutcome) (item : ItemContext)
  : list ChatRequest * Outcome :=
  if negb (Ready c) then ([], Failed errDisabled)
  else
    let req := userPrompt item in
    match chat with
    | ChatError => ([req], Failed errTransport)
    | ChatChoices [] => ([req], Failed errNoChoices)
    | ChatChoices (content0 :: _) =>
      let content := cleanupResponse content0 in
      match Unmarshal content with
      | Err => ([req], Failed errParse)
      | Ok out => ([req], Done out)
      end
    end.

End analysis.

(* ================================================================== *)
(** * package storage (src/internal/storage/mysql.go)                  *)
(* ================================================================== *)

(** The table [news_analysis] is a list of rows in the order of their
    insertion.  Key comparison of the engine on [guid] is modelled as
    equality of bytes.  A statement that fails leaves the table as it
    was. *)
Module storage.
Import gostring goerror.

Record Row : Type := {
  id : Z;
  guid : bytes;
  title : bytes;
  link : bytes;
  published_at : option Z;
  summary : bytes;
  relevant : Z;
  category : bytes;
  reason : bytes;
  tags : option bytes;
  created_at : Z;
  updated_at : Z
}.

(** [Store]: the rows and the next AUTO_INCREMENT value. *)
Record Store : Type := {
  rows : list Row;
  nextID : Z
}.

Definition emptyStore : Store := {| rows := []; nextID := 1 |}.

(** [StoredItem]: a row from the database. *)
Record StoredItem : Type := {
  GUID : bytes;
  Title : bytes;
  Link : bytes;
  PublishedAt : Z;
  Category : bytes;
  Reason : bytes;
  Tags : option (list bytes);
  Relevant : bool
}.

(** The zero [time.Time], January 1 of year 1, in seconds. *)
Definition zeroTime : Z := -62135596800.

Definition hasGUID (g : bytes) (r : Row) : bool := beq (guid r) g.

Definition lookup (st : Store) (g : bytes) : option Row :=
  find (hasGUID g) (rows st).

(** [Exists]: SELECT 1 FROM news_analysis WHERE guid = ? LIMIT 1.
    [fail] says that the query ends in an error other than
    [sql.ErrNoRows]. *)
Definition Exists (fail : bool) (st : Store) (g : bytes) : fallible bool :=
  if fail then Err
  else Ok (existsb (hasGUID g) (rows st)).

Definition boolToInt (b : bool) : Z := if b then 1 else 0.

Definition updateRow (now : Z) (item : rss.Item) (result : analysis.Result)
           (r : Row) : Row :=
  {| id := id r;
     guid := guid r;
     title := rss.Title item;
     link := rss.Link item;
     published_at := Some (rss.PublishedAt item);
     summary := rss.Description item;
     relevant := boolToInt (analysis.Relevant result);
     category := analysis.Category result;
     reason := analysis.Reason result;
     tags := Some (json.MarshalStrings (analysis.Tags result));
     created_at := created_at r;
     updated_at := now |}.

Definition newRow (now : Z) (newid : Z) (item : rss.Item)
           (result : analysis.Result) : Row :=
  {| id := newid;
     guid := rss.GUID item;
     title := rss.Title item;
     link := rss.Link item;
     published_at := Some (rss.PublishedAt item);
     summary := rss.Description item;
     relevant := boolToInt (analysis.Relevant result);
     category := analysis.Category result;
     reason := analysis.Reason result;
     tags := Some (json.MarshalStrings (analysis.Tags result));
     created_at := now;
     updated_at := now |}.

(** INSERT ... ON DUPLICATE KEY UPDATE, keyed by the unique [guid]. *)
Definition upsert (now : Z) (item : rss.Item) (result : analysis.Result)
           (st : Store) : Store :=
  if existsb (hasGUID (rss.GUID item)) (rows st) then
    {| rows := map (fun r => if hasGUID (rss.GUID item) r
                             then updateRow now item result r else r)
                   (rows st);
       nextID := nextID st |}
  else
    {| rows := rows st ++ [newRow now (nextID st) item result];
       nextID := nextID st + 1 |}.

(** [SaveAnalysis]: stores or updates an analyzed item.  [fail] says
    that the statement ends in an error; [now] is CURRENT_TIMESTAMP.
    The boolean returned is [err == nil]. *)
Definition SaveAnalysis (fail : bool) (now : Z) (st : Store)
           (item : rss.Item) (result : analysis.Result) : Store * bool :=
  if fail then (st, false)
  else (upsert now item result st, true).

(** ORDER BY published_at DESC, id DESC; a NULL [published_at] sorts
    after every value. *)
Definition pubKey (r : Row) : Z * Z :=
  match published_at r with
  | Some t => (1, t)
  | None => (0, 0)
  end.

Definition precedes (a b : Row) : bool :=
  let '(va, ta) := pubKey a in
  let '(vb, tb) := pubKey b in
  (vb <? va) || ((va =? vb) && ((tb <? ta) || ((ta =? tb) && (id b <? id a)))).

Fixpoint insertRow (r : Row) (l : list Row) : list Row :=
  match l with
  | [] => [r]
  | x :: rest => if precedes r x then r :: l else x :: insertRow r rest
  end.

Definition orderBy (l : list Row) : list Row := fold_right insertRow [] l.

(** The rows that the query of [ListRelevant] yields. *)
Definition selectRelevant (st : Store) (limit : Z) : list Row :=
  firstn (Z.to_nat limit)
         (orderBy (filter (fun r => relevant r =? 1) (rows st))).

(** The body of the [rows.Next()] loop: one row scanned into a
    [StoredItem]. *)
Definition scanRow (r : Row) : StoredItem :=
  {| GUID := guid r;
     Title := title r;
     Link := link r;
     PublishedAt := match published_at r with
                    | Some t => t
                    | None => zeroTime
                    end;
     Category := category r;
     Reason := reason r;
     Tags := match tags r with
             | Some (c :: s) =>
               match json.UnmarshalStrings (c :: s) with
               | Ok parsed => parsed
               | Err => None
               end
             | _ => None
             end;
     Relevant := relevant r =? 1 |}.

(** [ListRelevant]: the most recent relevant items.  [fail] says that
    the query or the iteration ends in an error; a negative LIMIT is
    refused by the engine. *)
Definition ListRelevant (fail : bool) (st : Store) (limit : Z)
  : fallible (list StoredItem) :=
  if fail || (limit <? 0) then Err
  else Ok (map scanRow (selectRelevant st limit)).

(** What the MySQL server holds under the configured database name:
    nothing, a database without the table [news_analysis], or the
    table. *)
Inductive Database : Type :=
| NoDatabase
| NoTable
| Table (st : Store).

(** Which of the steps of [NewMySQLStore] end in an error. *)
Record Dial : Type := {
  openRootFails : bool;
  pingRootFails : bool;
  createFails : bool;
  openFails : bool;
  pingFails : bool;
  schemaFails : bool
}.

(** CREATE DATABASE IF NOT EXISTS. *)
Definition createDatabase (db : Database) : Database :=
  match db with
  | NoDatabase => NoTable
  | _ => db
  end.

(** [ensureSchema]: CREATE TABLE IF NOT EXISTS news_analysis.  The
    boolean returned is [err == nil]. *)
Definition ensureSchema (fail : bool) (db : Database) : Database * bool :=
  if fail then (db, false)
  else match db with
       | NoDatabase => (db, false)
       | NoTable => (Table emptyStore, true)
       | Table st => (Table st, true)
       end.

(** The rows a [Store] handle gives access to. *)
Definition tableOf (db : Database) : Store :=
  match db with
  | Table st => st
  | _ => emptyStore
  end.

(** [NewMySQLStore] creates the database (if needed), ensures the
    schema, and returns a ready store. *)
Definition NewMySQLStore (d : Dial) (cfg : config.Config) (db : Database)
  : Database * fallible Store :=
  if openRootFails d then (db, Err)
  else if pingRootFails d then (db, Err)
  else if createFails d then (db, Err)
  else
    let db1 := createDatabase db in
    if openFails d then (db1, Err)
    else if pingFails d then (db1, Err)
    else
      match ensureSchema (schemaFails d) db1 with
      | (db2, false) => (db2, Err)
      | (db2, true) => (db2, Ok (tableOf db2))
      end.

End storage.

(* ================================================================== *)
(** * package service (src/unnamed/part_000, lines 1-178)              *)
(* ================================================================== *)

Module service.
Import gostring goerror.

(** What the collaborators answer while one item is processed. *)
Record Fate : Type := {
  existsFails : bool;
  chat : analysis.ChatOutcome;
  saveFails : bool;
  dbNow : Z
}.

(** The calls the service makes to its collaborators. *)
Inductive Event : Type :=
| EvFetch
| EvExists (guid : bytes)
| EvEvaluate (item : rss.Item)
| EvChat (item : rss.Item) (req : analysis.ChatRequest)
| EvSaveAnalysis (item : rss.Item) (result : analysis.Result) (ok : bool)
| EvNotifyWebhook (item : rss.Item) (result : analysis.Result)
                  (content : bytes).

Definition itemContext (item : rss.Item) : analysis.ItemContext :=
  {| analysis.Title := rss.Title item;
     analysis.Link := rss.Link item;
     analysis.PublishedAt := rss.PublishedAt item;
     analysis.Summary := rss.Description item |}.

(** The text of the webhook message. *)
Definition webhookContent (item : rss.Item) (result : analysis.Result)
  : bytes :=
  rss.Title item ++ analysis.newline ++ lit "分类: "
  ++ analysis.Category result ++ analysis.newline ++ lit "AI分析: "
  ++ analysis.Reason result ++ analysis.newline ++ lit "链接: "
  ++ rss.Link item.

(** The body of the POST: the payload, a map with the keys [msgtype] and
    [text], marshalled. *)
Definition webhookBody (item : rss.Item) (result : analysis.Result)
  : bytes :=
  json.MarshalMap
    [(lit "msgtype", json.quote (lit "text"));
     (lit "text",
      json.MarshalMap
        [(lit "content", json.quote (webhookContent item result))])].

(** [notifyWebhook]: one POST to the webhook; whatever comes back is
    only logged. *)
Definition notifyWebhook (item : rss.Item) (result : analysis.Result)
  : list Event :=
  [EvNotifyWebhook item result (webhookContent item result)].

(** The body of the loop of [pollOnce], for one item. *)
Definition processItem (analyzer : analysis.Client) (f : Fate)
           (st : storage.Store) (item : rss.Item)
  : storage.Store * list Event :=
  match storage.Exists (existsFails f) st (rss.GUID item) with
  | Err => (st, [EvExists (rss.GUID item)])
  | Ok true => (st, [EvExists (rss.GUID item)])
  | Ok false =>
    let '(reqs, out) :=
      analysis.Evaluate analyzer (chat f) (itemContext item) in
    let evs := [EvExists (rss.GUID item); EvEvaluate item]
                 ++ map (EvChat item) reqs in
    match out with
    | analysis.Failed _ => (st, evs)
    | analysis.Done result =>
      match storage.SaveAnalysis (saveFails f) (dbNow f) st item result with
      | (_, false) => (st, evs ++ [EvSaveAnalysis item result false])
      | (st', true) =>
        (st', evs ++ [EvSaveAnalysis item result true]
                  ++ (if analysis.Relevant result
                      then notifyWebhook item result else []))
      end
    end
  end.

(** The loop of [pollOnce] over the fetched items, each with the fate
    that awaits it. *)
Fixpoint pollItems (analyzer : analysis.Client)
         (batch : list (rss.Item * Fate)) (st : storage.Store)
  : storage.Store * list Event :=
  match batch with
  | [] => (st, [])
  | (item, f) :: rest =>
    let '(st1, e1) := processItem analyzer f st item in
    let '(st2, e2) := pollItems analyzer rest st1 in
    (st2, e1 ++ e2)
  end.

Fixpoint attach (fates : nat -> Fate) (i : nat) (items : list rss.Item)
  : list (rss.Item * Fate) :=
  match items with
  | [] => []
  | item :: rest => (item, fates i) :: attach fates (S i) rest
  end.

(** What the world answers during one cycle. *)
Record Cycle : Type := {
  parsed : option (list gofeed.Item);
  clock : nat -> Z;
  fates : nat -> Fate
}.

Definition pollOnce (analyzer : analysis.Client) (c : Cycle)
           (st : storage.Store) : storage.Store * list Event :=
  match rss.Fetch (parsed c) (clock c) with
  | None => (st, [EvFetch])
  | Some items =>
    let '(st', evs) := pollItems analyzer (attach (fates c) 0 items) st in
    (st', EvFetch :: evs)
  end.

(** The polling of [Run]: the initial [pollOnce] and one per tick until
    the context is cancelled; [cycles] lists them in order. *)
Fixpoint Run (analyzer : analysis.Client) (cycles : list Cycle)
         (st : storage.Store) : storage.Store * list Event :=
  match cycles with
  | [] => (st, [])
  | c :: rest =>
    let '(st1, e1) := pollOnce analyzer c st in
    let '(st2, e2) := Run analyzer rest st1 in
    (st2, e1 ++ e2)
  end.

(** The answers of the HTTP handlers. *)
Inductive Response : Type :=
| Status200 (body : bytes)
| Status200Items (count : Z) (items : list storage.StoredItem)
| Status500.

Definition healthHandler : Response := Status200 (lit "ok").

Definition itemsHandler (fail : bool) (st : storage.Store) (maxItems : Z)
  : Response :=
  match storage.ListRelevant fail st maxItems with
  | Err => Status500
  | Ok items => Status200Items (Z.of_nat (length items)) items
  end.

End service.

(* ================================================================== *)
(** * package service, the revision of src/internal/service/service.go *)
(* ================================================================== *)

(** This revision of [pollOnce] has the same loop without the webhook. *)
Module service0.
Import gostring goerror.

Definition processItem (analyzer : analysis.Client) (f : service.Fate)
           (st : storage.Store) (item : rss.Item)
  : storage.Store * list service.Event :=
  match storage.Exists (service.existsFails f) st (rss.GUID item) with
  | Err => (st, [service.EvExists (rss.GUID item)])
  | Ok true => (st, [service.EvExists (rss.GUID item)])
  | Ok false =>
    let '(reqs, out) :=
      analysis.Evaluate analyzer (service.chat f) (service.itemContext item) in
    let evs := [service.EvExists (rss.GUID item); service.EvEvaluate item]
                 ++ map (service.EvChat item) reqs in
    match out with
    | analysis.Failed _ => (st, evs)
    | analysis.Done result =>
      match storage.SaveAnalysis (service.saveFails f) (service.dbNow f)
                                 st item result with
      | (_, false) => (st, evs ++ [service.EvSaveAnalysis item result false])
      | (st', true) => (st', evs ++ [service.EvSaveAnalysis item result true])
      end
    end
  end.

Fixpoint pollItems (analyzer : analysis.Client)
         (batch : list (rss.Item * service.Fate)) (st : storage.Store)
  : storage.Store * list service.Event :=
  match batch with
  | [] => (st, [])
  | (item, f) :: rest =>
    let '(st1, e1) := processItem analyzer f st item in
    let '(st2, e2) := pollItems analyzer rest st1 in
    (st2, e1 ++ e2)
  end.

Definition pollOnce (analyzer : analysis.Client) (c : service.Cycle)
           (st : storage.Store) : storage.Store * list service.Event :=
  match rss.Fetch (service.parsed c) (service.clock c) with
  | None => (st, [service.EvFetch])
  | Some items =>
    let '(st', evs) :=
      pollItems analyzer (service.attach (service.fates c) 0 items) st in
    (st', service.EvFetch :: evs)
  end.

End service0.

(* ================================================================== *)
(** * command aiweb3news (src/cmd/aiweb3news/main.go)                  *)
(* ================================================================== *)

Module aiweb3news.
Import gostring goerror.

(** How the process ends: [logger.Fatalf] when the store cannot be
    initialised, or the return of [Run] once the context is cancelled,
    with the calls made until then. *)
Inductive Exit : Type :=
| Fatal (db : storage.Database)
| Stopped (db : storage.Database) (trace : list service.Event).

Definition main (env : os.Environ) (d : storage.Dial)
           (db : storage.Database) (cycles : list service.Cycle) : Exit :=
  let cfg := config.Load env in
  let analyzer := analysis.NewClient (config.OpenAIKey cfg) in
  match storage.NewMySQLStore d cfg db with
  | (db', Err) => Fatal db'
  | (_, Ok store) =>
    let '(st, trace) := service.Run analyzer cycles store in
    Stopped (storage.Table st) trace
  end.

End aiweb3news.

(* ================================================================== *)
(** * Sample feeds, answers and stores                                 *)
(* ================================================================== *)

Module Sample.
Import gostring goerror.

Definition entryA : gofeed.Item :=
  {| gofeed.GUID := lit "a1";
     gofeed.Title := lit "Policy X approved";
     gofeed.Link := lit "https://www.techflowpost.com/newsletter/a1";
     gofeed.PublishedParsed := Some 1704067200;
     gofeed.Description := lit "The regulator approved policy X." |}.

Definition entryB : gofeed.Item :=
  {| gofeed.GUID := [];
     gofeed.Title := lit "Exchange lists token";
     gofeed.Link := lit "https://www.techflowpost.com/newsletter/b2";
     gofeed.PublishedParsed := None;
     gofeed.Description := lit "A routine listing." |}.

Definition entryArticle : gofeed.Item :=
  {| gofeed.GUID := lit "https://www.techflowpost.com/article/c3";
     gofeed.Title := lit "Long read";
     gofeed.Link := lit "https://www.techflowpost.com/article/c3";
     gofeed.PublishedParsed := Some 1704067300;
     gofeed.Description := lit "Not a newsletter entry." |}.

Definition entryBlank : gofeed.Item :=
  {| gofeed.GUID := [];
     gofeed.Title := [];
     gofeed.Link := [];
     gofeed.PublishedParsed := None;
     gofeed.Description := lit "No identifier at all." |}.

Definition analyzer : analysis.Client := analysis.NewClient (lit "sk-sample").

Definition disabled : analysis.Client := analysis.NewClient [].

Definition fenced (body : bytes) : bytes :=
  analysis.fenceJson ++ analysis.newline ++ body ++ analysis.newline
  ++ analysis.fence.

Definition answerRelevant : bytes :=
  fenced (jlit "{'relevant': true, 'category': 'policy', "
          ++ jlit "'reason': 'regulatory move', 'tags': ['X']}").

Definition answerNullCategory : bytes :=
  fenced (jlit "{'relevant': false, 'category': null, "
          ++ jlit "'reason': 'routine listing', 'tags': []}").

Definition answerProse : bytes := lit "Sorry, I cannot judge this item.".

Definition fateOf (answer : bytes) : service.Fate :=
  {| service.existsFails := false;
     service.chat := analysis.ChatChoices [answer];
     service.saveFails := false;
     service.dbNow := 1704070000 |}.

Definition fateSaveFails : service.Fate :=
  {| service.existsFails := false;
     service.chat := analysis.ChatChoices [answerRelevant];
     service.saveFails := true;
     service.dbNow := 1704070000 |}.

Definition fateClassifyFails : service.Fate :=
  {| service.existsFails := false;
     service.chat := analysis.ChatError;
     service.saveFails := false;
     service.dbNow := 1704070000 |}.

Definition fateLookupFails : service.Fate :=
  {| service.existsFails := true;
     service.chat := analysis.ChatChoices [answerRelevant];
     service.saveFails := false;
     service.dbNow := 1704070000 |}.

Definition itemA : rss.Item :=
  {| rss.GUID := lit "a1";
     rss.Title := lit "Policy X approved";
     rss.Link := lit "https://www.techflowpost.com/newsletter/a1";
     rss.PublishedAt := 1704067200;
     rss.Description := lit "The regulator approved policy X." |}.

Definition itemB : rss.Item :=
  {| rss.GUID := lit "https://www.techflowpost.com/newsletter/b2";
     rss.Title := lit "Exchange lists token";
     rss.Link := lit "https://www.techflowpost.com/newsletter/b2";
     rss.PublishedAt := 1704069000;
     rss.Description := lit "A routine listing." |}.

Definition resultA : analysis.Result :=
  {| analysis.Relevant := true;
     analysis.Category := lit "policy";
     analysis.Reason := lit "regulatory move";
     analysis.Tags := Some [lit "X"] |}.

(** A batch of one item, answered as relevant. *)
Definition batchB : list (rss.Item * service.Fate) :=
  [(itemB, fateOf answerRelevant)].

(** A feed of three entries, all answered as relevant. *)
Definition cycleAll : service.Cycle :=
  {| service.parsed := Some [entryA; entryArticle; entryB];
     service.clock := fun _ => 1704069000;
     service.fates := fun _ => fateOf answerRelevant |}.

(** The same feed; the classification of the first item fails. *)
Definition cycleFirstFails : service.Cycle :=
  {| service.parsed := Some [entryA; entryArticle; entryB];
     service.clock := fun _ => 1704069000;
     service.fates := fun i => match i with
                              | O => fateClassifyFails
                              | _ => fateOf answerRelevant
                              end |}.

(** A cycle whose fetch fails. *)
Definition cycleNoFeed : service.Cycle :=
  {| service.parsed := None;
     service.clock := fun _ => 1704069000;
     service.fates := fun _ => fateOf answerRelevant |}.

(** The store after item A has been saved. *)
Definition rowA : storage.Row :=
  storage.newRow 1704060000 1 itemA resultA.

Definition storeA : storage.Store :=
  {| storage.rows := [rowA]; storage.nextID := 2 |}.

(** A table with a tie on the published time and a row that is not
    relevant. *)
Definition itemAt (g : bytes) (published : Z) : rss.Item :=
  {| rss.GUID := g;
     rss.Title := lit "title";
     rss.Link := lit "https://www.techflowpost.com/newsletter/x";
     rss.PublishedAt := published;
     rss.Description := [] |}.

Definition resultNo : analysis.Result :=
  {| analysis.Relevant := false;
     analysis.Category := [];
     analysis.Reason := lit "routine";
     analysis.Tags := None |}.

Definition storeTies : storage.Store :=
  {| storage.rows :=
       [storage.newRow 1000 1 (itemAt (lit "g1") 100) resultA;
        storage.newRow 1001 2 (itemAt (lit "g2") 200) resultA;
        storage.newRow 1002 3 (itemAt (lit "g3") 100) resultA;
        storage.newRow 1003 4 (itemAt (lit "g4") 300) resultNo];
     storage.nextID := 5 |}.

(** An environment that sets the polling interval only. *)
Definition envPoll30 : os.Environ :=
  fun k => if beq k (lit "POLL_INTERVAL_MINUTES") then Some (lit "30")
           else None.

(** A server on which no step of the initialisation fails. *)
Definition reachable : storage.Dial :=
  {| storage.openRootFails := false;
     storage.pingRootFails := false;
     storage.createFails := false;
     storage.openFails := false;
     storage.pingFails := false;
     storage.schemaFails := false |}.

End Sample.

(* ================================================================== *)
(** * Properties                                                       *)
(* ================================================================== *)

Import gostring goerror.

(** ** Bytes and the [strings] functions *)

Lemma beq_true_iff (a b : bytes) : beq a b = true <-> a = b.
Proof.
  unfold beq. destruct (list_eq_dec ascii_dec a b); split; congruence.
Qed.

Lemma beq_false_iff (a b : bytes) : beq a b = false <-> a <> b.
Proof.
  unfold beq. destruct (list_eq_dec ascii_dec a b); split; congruence.
Qed.

Lemma beq_refl (a : bytes) : beq a a = true.
Proof. now apply beq_true_iff. Qed.

Lemma HasPrefix_app (p t : bytes) : HasPrefix (p ++ t) p = true.
Proof.
  induction p as [|c p IH]; simpl; [reflexivity|].
  now rewrite Ascii.eqb_refl, IH.
Qed.

Lemma HasPrefix_split (s p : bytes) :
  HasPrefix s p = true -> s = p ++ skipn (length p) s.
Proof.
  revert s. induction p as [|c p IH]; intros s H; simpl in *; [reflexivity|].
  destruct s as [|d s]; [discriminate|].
  apply andb_true_iff in H. destruct H as [Hc Hp].
  apply Ascii.eqb_eq in Hc. subst d. simpl. f_equal. now apply IH.
Qed.

Lemma HasPrefix_iff (s p : bytes) :
  HasPrefix s p = true <-> exists t, s = p ++ t.
Proof.
  split.
  - intros H. eexists. now apply HasPrefix_split.
  - intros [t ->]. apply HasPrefix_app.
Qed.

Lemma Index_range (s sub : bytes) :
  -1 <= Index s sub <= Z.of_nat (length s).
Proof.
  induction s as [|c s IH]; simpl.
  - destruct (HasPrefix [] sub); lia.
  - destruct (HasPrefix (c :: s) sub); [lia|].
    destruct (Z.ltb_spec (Index s sub) 0); lia.
Qed.

(** [Index] finds an occurrence: the bytes before it, the substring, the
    bytes after it. *)
Lemma Index_found (s sub : bytes) :
  0 <= Index s sub ->
  exists pre post,
    s = pre ++ sub ++ post /\ Z.of_nat (length pre) = Index s sub.
Proof.
  induction s as [|c s IH]; simpl.
  - destruct (HasPrefix [] sub) eqn:E; [|lia].
    intros _. exists [], []. destruct sub; [now simpl|discriminate].
  - destruct (HasPrefix (c :: s) sub) eqn:E.
    + intros _. apply HasPrefix_split in E.
      exists [], (skipn (length sub) (c :: s)). now split.
    + destruct (Z.ltb_spec (Index s sub) 0) as [Hn|Hn]; [lia|].
      intros _. destruct (IH Hn) as (pre & post & Hs & Hl).
      exists (c :: pre), post. split.
      * simpl. now f_equal.
      * simpl length. lia.
Qed.

Lemma Index_unfold (s sub : bytes) :
  Index s sub =
  if HasPrefix s sub then 0
  else match s with
       | [] => -1
       | _ :: s' => let i := Index s' sub in if i <? 0 then -1 else i + 1
       end.
Proof. destruct s; reflexivity. Qed.

(** Conversely, a string with an occurrence has a non-negative index. *)
Lemma Index_occurs (pre sub post : bytes) :
  0 <= Index (pre ++ sub ++ post) sub <= Z.of_nat (length pre).
Proof.
  induction pre as [|c pre IH].
  - simpl app. rewrite Index_unfold, HasPrefix_app. simpl. lia.
  - simpl app. rewrite Index_unfold.
    destruct (HasPrefix (c :: pre ++ sub ++ post) sub); [simpl length; lia|].
    cbv zeta.
    destruct (Z.ltb_spec (Index (pre ++ sub ++ post) sub) 0); simpl length; lia.
Qed.

Lemma Contains_iff (s sub : bytes) :
  Contains s sub = true <-> exists pre post, s = pre ++ sub ++ post.
Proof.
  unfold Contains. rewrite Z.leb_le. split.
  - intros H. destruct (Index_found s sub H) as (pre & post & Hs & _).
    now exists pre, post.
  - intros (pre & post & ->). apply Index_occurs.
Qed.

Lemma Contains_nonempty (s sub : bytes) :
  Contains s sub = true -> sub <> [] -> s <> [].
Proof.
  intros H Hsub ->. apply Contains_iff in H.
  destruct H as (pre & post & H).
  destruct pre; [|discriminate]. destruct sub; [congruence|discriminate].
Qed.

(** ** The fetcher *)

Definition isNewsletter (item : rss.Item) : Prop :=
  Contains (rss.GUID item) rss.newsletter = true
  \/ Contains (rss.Link item) rss.newsletter = true.

Lemma collect_app clock i (pre post : list gofeed.Item) :
  rss.collect clock i (pre ++ post)
  = rss.collect clock i pre ++ rss.collect clock (i + length pre) post.
Proof.
  revert i. induction pre as [|e pre IH]; intros i; simpl.
  - now rewrite Nat.add_0_r.
  - rewrite IH, Nat.add_succ_comm.
    destruct (negb _ && negb _); reflexivity.
Qed.

Lemma collect_skip clock i (entry : gofeed.Item) (rest : list gofeed.Item) :
  Contains (rss.pickGUID entry) rss.newsletter = false ->
  Contains (gofeed.Link entry) rss.newsletter = false ->
  rss.collect clock i (entry :: rest) = rss.collect clock (S i) rest.
Proof. intros Hg Hl. simpl. now rewrite Hg, Hl. Qed.

Lemma collect_newsletter clock i (entries : list gofeed.Item) :
  Forall isNewsletter (rss.collect clock i entries).
Proof.
  revert i. induction entries as [|e entries IH]; intros i; simpl.
  - constructor.
  - destruct (Contains (rss.pickGUID e) rss.newsletter) eqn:Hg; simpl.
    + constructor; [now left | apply IH].
    + destruct (Contains (gofeed.Link e) rss.newsletter) eqn:Hl; simpl.
      * constructor; [now right | apply IH].
      * apply IH.
Qed.

Lemma isEmpty_true (s : bytes) : rss.isEmpty s = true <-> s = [].
Proof. destruct s; simpl; split; congruence. Qed.

Lemma pickGUID_empty (entry : gofeed.Item) :
  gofeed.GUID entry = [] -> gofeed.Link entry = [] ->
  gofeed.Title entry = [] -> rss.pickGUID entry = [].
Proof.
  intros Hg Hl Ht. unfold rss.pickGUID. now rewrite Hg, Hl, Ht.
Qed.

Lemma Contains_nil_newsletter : Contains [] rss.newsletter = false.
Proof. reflexivity. Qed.

Lemma newsletter_item_has_guid (item : rss.Item) (entry : gofeed.Item) :
  rss.GUID item = rss.pickGUID entry ->
  rss.Link item = gofeed.Link entry ->
  isNewsletter item -> rss.GUID item <> [].
Proof.
  intros Hg Hl [H|H].
  - apply (Contains_nonempty _ _ H). discriminate.
  - rewrite Hl in H. apply Contains_nonempty in H; [|discriminate].
    rewrite Hg. unfold rss.pickGUID.
    destruct (gofeed.GUID entry) eqn:E; simpl; [|discriminate].
    destruct (gofeed.Link entry); simpl; [congruence|discriminate].
Qed.

Lemma collect_guid_nonempty clock i (entries : list gofeed.Item) :
  Forall (fun item => rss.GUID item <> []) (rss.collect clock i entries).
Proof.
  revert i. induction entries as [|e entries IH]; intros i; simpl.
  - constructor.
  - destruct (negb _ && negb _) eqn:E; [apply IH|].
    constructor; [|apply IH].
    eapply newsletter_item_has_guid with (entry := e); try reflexivity.
    apply andb_false_iff in E. unfold isNewsletter. simpl.
    destruct E as [E|E]; apply negb_false_iff in E; auto.
Qed.

(** C9. The identifier of an entry is its GUID when that is not empty,
    else its link when that is not empty, else its title; an entry whose
    three fields are all empty contributes no item to what [Fetch]
    returns, and every item that [Fetch] returns has an identifier that
    is not empty. *)
Theorem pickGUID_fallback_policy :
  forall entry : gofeed.Item,
    (gofeed.GUID entry <> [] -> rss.pickGUID entry = gofeed.GUID entry)
    /\ (gofeed.GUID entry = [] -> gofeed.Link entry <> [] ->
        rss.pickGUID entry = gofeed.Link entry)
    /\ (gofeed.GUID entry = [] -> gofeed.Link entry = [] ->
        rss.pickGUID entry = gofeed.Title entry)
    /\ (gofeed.GUID entry = [] -> gofeed.Link entry = [] ->
        gofeed.Title entry = [] ->
        forall clock pre post,
          rss.Fetch (Some (pre ++ entry :: post)) clock
          = Some (rss.collect clock 0 pre
                  ++ rss.collect clock (S (length pre)) post))
    /\ (forall clock entries items,
          rss.Fetch (Some entries) clock = Some items ->
          Forall (fun item => rss.GUID item <> []) items).
Proof.
  intros entry. unfold rss.pickGUID. repeat split.
  - intros H. destruct (gofeed.GUID entry); [congruence|reflexivity].
  - intros -> H. simpl. destruct (gofeed.Link entry); [congruence|reflexivity].
  - intros -> ->. reflexivity.
  - intros Hg Hl Ht clock pre post. unfold rss.Fetch. f_equal.
    rewrite collect_app. f_equal. simpl plus.
    apply collect_skip.
    + now rewrite pickGUID_empty.
    + now rewrite Hl.
  - intros clock entries items H. injection H as <-.
    apply collect_guid_nonempty.
Qed.

(** ** The store *)

Lemma lookup_exists (st : storage.Store) (g : bytes) (row : storage.Row) :
  storage.lookup st g = Some row ->
  existsb (storage.hasGUID g) (storage.rows st) = true.
Proof.
  unfold storage.lookup. intros H. apply find_some in H.
  apply existsb_exists. now exists row.
Qed.

Lemma exists_lookup (st : storage.Store) (g : bytes) :
  existsb (storage.hasGUID g) (storage.rows st) = true ->
  exists row, storage.lookup st g = Some row.
Proof.
  unfold storage.lookup. intros H. apply existsb_exists in H.
  destruct H as (r & Hin & Hr).
  destruct (find (storage.hasGUID g) (storage.rows st)) eqn:E; [eauto|].
  now rewrite (find_none _ _ E r Hin) in Hr.
Qed.

Lemma find_app_found {A} (p : A -> bool) (l tail : list A) (x : A) :
  find p l = Some x -> find p (l ++ tail) = Some x.
Proof.
  induction l as [|y l IH]; simpl; [discriminate|].
  destruct (p y); auto.
Qed.

Lemma find_app_none {A} (p : A -> bool) (l tail : list A) :
  find p l = None -> find p (l ++ tail) = find p tail.
Proof.
  induction l as [|y l IH]; simpl; [reflexivity|].
  destruct (p y); [discriminate|auto].
Qed.

Lemma find_map_same {A} (p : A -> bool) (f : A -> A) (l : list A) :
  (forall x, p x = true -> f x = x) ->
  (forall x, p (f x) = p x) ->
  find p (map f l) = find p l.
Proof.
  intros Hf Hp. induction l as [|y l IH]; simpl; [reflexivity|].
  rewrite Hp. destruct (p y) eqn:E; [now rewrite Hf|exact IH].
Qed.

(** An upsert leaves the row of every other identifier as it is. *)
Lemma upsert_lookup_other now item result st (g : bytes) :
  rss.GUID item <> g ->
  storage.lookup (storage.upsert now item result st) g = storage.lookup st g.
Proof.
  intros Hne. unfold storage.lookup, storage.upsert.
  destruct (existsb (storage.hasGUID (rss.GUID item)) (storage.rows st));
    simpl.
  - apply find_map_same.
    + intros x Hx. unfold storage.hasGUID in *.
      destruct (beq (storage.guid x) (rss.GUID item)) eqn:E; [|reflexivity].
      apply beq_true_iff in E, Hx. congruence.
    + intros x. unfold storage.hasGUID.
      destruct (beq (storage.guid x) (rss.GUID item)); reflexivity.
  - destruct (find (storage.hasGUID g) (storage.rows st)) eqn:E.
    + now apply find_app_found.
    + rewrite find_app_none by assumption. simpl.
      unfold storage.hasGUID. simpl.
      now apply beq_false_iff in Hne as ->.
Qed.

Lemma existsb_map_guid (g : bytes) (f : storage.Row -> storage.Row)
      (l : list storage.Row) :
  (forall x, storage.guid (f x) = storage.guid x) ->
  existsb (storage.hasGUID g) (map f l) = existsb (storage.hasGUID g) l.
Proof.
  intros Hf. induction l as [|y l IH]; simpl; [reflexivity|].
  unfold storage.hasGUID at 1 3. now rewrite Hf, IH.
Qed.

(** Rows are never removed: an identifier stays in the store. *)
Lemma upsert_keeps now item result st (g : bytes) :
  existsb (storage.hasGUID g) (storage.rows st) = true ->
  existsb (storage.hasGUID g)
          (storage.rows (storage.upsert now item result st)) = true.
Proof.
  intros H. unfold storage.upsert.
  destruct (existsb (storage.hasGUID (rss.GUID item)) (storage.rows st));
    simpl.
  - rewrite existsb_map_guid; [assumption|].
    intros x. destruct (storage.hasGUID _ x); reflexivity.
  - rewrite existsb_app, H. reflexivity.
Qed.

(** After an upsert the identifier of the item is in the store. *)
Lemma upsert_stores now item result st :
  existsb (storage.hasGUID (rss.GUID item))
          (storage.rows (storage.upsert now item result st)) = true.
Proof.
  unfold storage.upsert.
  destruct (existsb (storage.hasGUID (rss.GUID item)) (storage.rows st)) eqn:E;
    simpl.
  - rewrite existsb_map_guid; [assumption|].
    intros x. destruct (storage.hasGUID _ x); reflexivity.
  - rewrite existsb_app. simpl. unfold storage.hasGUID at 2. simpl.
    rewrite beq_refl. apply orb_true_iff. right. reflexivity.
Qed.

(** ** One item through the loop body *)

(** The five ways through the body of the loop of [pollOnce]. *)
Inductive ItemStep (analyzer : analysis.Client) (f : service.Fate)
          (st : storage.Store) (item : rss.Item)
  : storage.Store -> list service.Event -> Prop :=
| StepLookupFailed :
    service.existsFails f = true ->
    ItemStep analyzer f st item st [service.EvExists (rss.GUID item)]
| StepKnown :
    service.existsFails f = false ->
    existsb (storage.hasGUID (rss.GUID item)) (storage.rows st) = true ->
    ItemStep analyzer f st item st [service.EvExists (rss.GUID item)]
| StepClassifyFailed reqs e :
    service.existsFails f = false ->
    existsb (storage.hasGUID (rss.GUID item)) (storage.rows st) = false ->
    analysis.Evaluate analyzer (service.chat f) (service.itemContext item)
    = (reqs, analysis.Failed e) ->
    ItemStep analyzer f st item st
             ([service.EvExists (rss.GUID item); service.EvEvaluate item]
                ++ map (service.EvChat item) reqs)
| StepPersistFailed reqs result :
    service.existsFails f = false ->
    existsb (storage.hasGUID (rss.GUID item)) (storage.rows st) = false ->
    analysis.Evaluate analyzer (service.chat f) (service.itemContext item)
    = (reqs, analysis.Done result) ->
    service.saveFails f = true ->
    ItemStep analyzer f st item st
             (([service.EvExists (rss.GUID item); service.EvEvaluate item]
                 ++ map (service.EvChat item) reqs)
                ++ [service.EvSaveAnalysis item result false])
| StepPersisted reqs result :
    service.existsFails f = false ->
    existsb (storage.hasGUID (rss.GUID item)) (storage.rows st) = false ->
    analysis.Evaluate analyzer (service.chat f) (service.itemContext item)
    = (reqs, analysis.Done result) ->
    service.saveFails f = false ->
    ItemStep analyzer f st item
             (storage.upsert (service.dbNow f) item result st)
             (([service.EvExists (rss.GUID item); service.EvEvaluate item]
                 ++ map (service.EvChat item) reqs)
                ++ [service.EvSaveAnalysis item result true]
                ++ (if analysis.Relevant result
                    then service.notifyWebhook item result else [])).

Lemma processItem_step analyzer f st item :
  ItemStep analyzer f st item
           (fst (service.processItem analyzer f st item))
           (snd (service.processItem analyzer f st item)).
Proof.
  unfold service.processItem, storage.Exists.
  destruct (service.existsFails f) eqn:Hx; simpl.
  - now apply StepLookupFailed.
  - destruct (existsb _ _) eqn:Hk; simpl.
    + now apply StepKnown.
    + destruct (analysis.Evaluate _ _ _) as [reqs out] eqn:He.
      destruct out as [result|e]; simpl.
      * unfold storage.SaveAnalysis.
        destruct (service.saveFails f) eqn:Hs; simpl.
        -- now apply StepPersistFailed.
        -- now apply StepPersisted.
      * now apply StepClassifyFailed with (e := e).
Qed.

Lemma pollItems_cons analyzer item f rest st :
  service.pollItems analyzer ((item, f) :: rest) st
  = (fst (service.pollItems analyzer rest
            (fst (service.processItem analyzer f st item))),
     snd (service.processItem analyzer f st item)
     ++ snd (service.pollItems analyzer rest
               (fst (service.processItem analyzer f st item)))).
Proof.
  simpl. destruct (service.processItem analyzer f st item) as [st1 e1].
  simpl. destruct (service.pollItems analyzer rest st1). reflexivity.
Qed.

Lemma pollItems_app analyzer (l1 l2 : list (rss.Item * service.Fate)) st :
  service.pollItems analyzer (l1 ++ l2) st
  = (fst (service.pollItems analyzer l2
            (fst (service.pollItems analyzer l1 st))),
     snd (service.pollItems analyzer l1 st)
     ++ snd (service.pollItems analyzer l2
               (fst (service.pollItems analyzer l1 st)))).
Proof.
  revert st. induction l1 as [|[item f] l1 IH]; intros st.
  - simpl. now destruct (service.pollItems analyzer l2 st).
  - rewrite <- app_comm_cons, !pollItems_cons, IH. simpl.
    now rewrite app_assoc.
Qed.

Lemma Run_cons analyzer c rest st :
  service.Run analyzer (c :: rest) st
  = (fst (service.Run analyzer rest (fst (service.pollOnce analyzer c st))),
     snd (service.pollOnce analyzer c st)
     ++ snd (service.Run analyzer rest (fst (service.pollOnce analyzer c st)))).
Proof.
  simpl. destruct (service.pollOnce analyzer c st) as [st1 e1].
  simpl. destruct (service.Run analyzer rest st1). reflexivity.
Qed.

Lemma pollOnce_fetched analyzer c st items :
  rss.Fetch (service.parsed c) (service.clock c) = Some items ->
  service.pollOnce analyzer c st
  = (fst (service.pollItems analyzer
            (service.attach (service.fates c) 0 items) st),
     service.EvFetch
       :: snd (service.pollItems analyzer
                 (service.attach (service.fates c) 0 items) st)).
Proof.
  intros H. unfold service.pollOnce. rewrite H.
  now destruct (service.pollItems _ _ _).
Qed.

(** ** What the events of a cycle are about *)

Definition eventItem (e : service.Event) : option rss.Item :=
  match e with
  | service.EvFetch => None
  | service.EvExists _ => None
  | service.EvEvaluate item => Some item
  | service.EvChat item _ => Some item
  | service.EvSaveAnalysis item _ _ => Some item
  | service.EvNotifyWebhook item _ _ => Some item
  end.

(** [concerns g e]: [e] is a call to the classifier, to [SaveAnalysis]
    or to the notifier for an item whose identifier is [g]. *)
Definition concerns (g : bytes) (e : service.Event) : Prop :=
  exists item, eventItem e = Some item /\ rss.GUID item = g.

Definition isNotify (e : service.Event) : bool :=
  match e with
  | service.EvNotifyWebhook _ _ _ => true
  | _ => false
  end.

Definition eraseNotify (evs : list service.Event) : list service.Event :=
  filter (fun e => negb (isNotify e)) evs.

(** The events of an item are about that item. *)
Lemma step_events_item analyzer f st item st' evs :
  ItemStep analyzer f st item st' evs ->
  Forall (fun e => forall it, eventItem e = Some it -> it = item) evs.
Proof.
  assert (Hbase : forall reqs,
    Forall (fun e => forall it, eventItem e = Some it -> it = item)
           ([service.EvExists (rss.GUID item); service.EvEvaluate item]
              ++ map (service.EvChat item) reqs)).
  { intros reqs. simpl. constructor; [discriminate|].
    constructor; [simpl; congruence|].
    apply Forall_forall. intros e He. apply in_map_iff in He.
    destruct He as (q & <- & _). simpl. congruence. }
  intros H. destruct H.
  - constructor; [discriminate|constructor].
  - constructor; [discriminate|constructor].
  - apply Hbase.
  - apply Forall_app. split; [apply Hbase|].
    constructor; [simpl; congruence|constructor].
  - apply Forall_app. split; [apply Hbase|].
    constructor; [simpl; congruence|].
    destruct (analysis.Relevant result); [|constructor].
    constructor; [simpl; congruence|constructor].
Qed.

Lemma pollItems_events_items analyzer batch st :
  Forall (fun e => forall it, eventItem e = Some it -> In it (map fst batch))
         (snd (service.pollItems analyzer batch st)).
Proof.
  revert st. induction batch as [|[item f] batch IH]; intros st.
  - constructor.
  - rewrite pollItems_cons. simpl snd. apply Forall_app. split.
    + eapply Forall_impl; [|eapply step_events_item, processItem_step].
      simpl. intros e He it Hit. left. symmetry. now apply He.
    + eapply Forall_impl; [|apply IH]. simpl. intros e He it Hit.
      right. now apply He.
Qed.

Lemma attach_items fates i items :
  map fst (service.attach fates i items) = items.
Proof.
  revert i. induction items as [|x items IH]; intros i; simpl;
    [reflexivity|now rewrite IH].
Qed.

(** ** Fetch failure (C5) *)

(** C5. When the feed fetch fails, the cycle ends at once: the store is
    what it was and the only call made is the fetch itself, so there is
    no Exists, Evaluate, SaveAnalysis or webhook call; the next tick runs
    a cycle of its own from the unchanged store, and every cycle begins
    by fetching the feed. *)
Theorem fetch_failure_no_side_effects :
  forall (analyzer : analysis.Client) (c : service.Cycle) (st : storage.Store),
    service.parsed c = None ->
    service.pollOnce analyzer c st = (st, [service.EvFetch])
    /\ service0.pollOnce analyzer c st = (st, [service.EvFetch])
    /\ (forall rest,
          service.Run analyzer (c :: rest) st
          = (fst (service.Run analyzer rest st),
             service.EvFetch :: snd (service.Run analyzer rest st)))
    /\ (forall c' st',
          exists evs,
            snd (service.pollOnce analyzer c' st') = service.EvFetch :: evs).
Proof.
  intros analyzer c st H.
  assert (Hp : service.pollOnce analyzer c st = (st, [service.EvFetch])).
  { unfold service.pollOnce, rss.Fetch. now rewrite H. }
  repeat split.
  - exact Hp.
  - unfold service0.pollOnce, rss.Fetch. now rewrite H.
  - intros rest. now rewrite Run_cons, Hp.
  - intros c' st'. unfold service.pollOnce.
    destruct (rss.Fetch _ _); [|now exists []].
    destruct (service.pollItems _ _ _) as [s evs]. now exists evs.
Qed.

Lemma fetch_failure_no_side_effects_witness :
  service.pollOnce Sample.analyzer Sample.cycleNoFeed Sample.storeA
  = (Sample.storeA, [service.EvFetch])
  /\ service0.pollOnce Sample.analyzer Sample.cycleNoFeed Sample.storeA
     = (Sample.storeA, [service.EvFetch])
  /\ (forall rest,
        service.Run Sample.analyzer (Sample.cycleNoFeed :: rest) Sample.storeA
        = (fst (service.Run Sample.analyzer rest Sample.storeA),
           service.EvFetch
             :: snd (service.Run Sample.analyzer rest Sample.storeA)))
  /\ (forall c' st',
        exists evs,
          snd (service.pollOnce Sample.analyzer c' st')
          = service.EvFetch :: evs).
Proof.
  apply (fetch_failure_no_side_effects
           Sample.analyzer Sample.cycleNoFeed Sample.storeA).
  reflexivity.
Defined.

(** ** Items already in the ledger (C1) *)

Lemma step_known_untouched analyzer f st item st' evs (g : bytes) row :
  ItemStep analyzer f st item st' evs ->
  storage.lookup st g = Some row ->
  storage.lookup st' g = Some row
  /\ Forall (fun e => ~ concerns g e) evs.
Proof.
  intros Hstep Hrow.
  assert (Hg : existsb (storage.hasGUID g) (storage.rows st) = true)
    by (eapply lookup_exists; eauto).
  assert (Hev : rss.GUID item <> g -> Forall (fun e => ~ concerns g e) evs).
  { intros Hne. eapply Forall_impl; [|eapply step_events_item; eauto].
    simpl. intros e He (it & Hit & Hgit). apply He in Hit. congruence. }
  assert (Hnone : forall e, ~ concerns g (service.EvExists e)).
  { intros e (it & Hit & _). discriminate. }
  destruct Hstep.
  - split; [assumption|]. constructor; [apply Hnone|constructor].
  - split; [assumption|]. constructor; [apply Hnone|constructor].
  - split; [assumption|]. apply Hev. congruence.
  - split; [assumption|]. apply Hev. congruence.
  - assert (Hne : rss.GUID item <> g) by congruence.
    split; [|now apply Hev].
    now rewrite upsert_lookup_other.
Qed.

Lemma pollItems_known_untouched analyzer batch st (g : bytes) row :
  storage.lookup st g = Some row ->
  storage.lookup (fst (service.pollItems analyzer batch st)) g = Some row
  /\ Forall (fun e => ~ concerns g e)
            (snd (service.pollItems analyzer batch st)).
Proof.
  revert st. induction batch as [|[item f] batch IH]; intros st Hrow.
  - simpl. auto.
  - rewrite pollItems_cons. simpl fst. simpl snd.
    destruct (step_known_untouched _ _ _ _ _ _ g row
                (processItem_step analyzer f st item) Hrow) as [H1 H2].
    destruct (IH _ H1) as [H3 H4].
    split; [assumption|]. apply Forall_app. now split.
Qed.

Lemma fetch_not_concerns (g : bytes) : ~ concerns g service.EvFetch.
Proof. intros (it & Hit & _). discriminate. Qed.

Lemma pollOnce_known_untouched analyzer c st (g : bytes) row :
  storage.lookup st g = Some row ->
  storage.lookup (fst (service.pollOnce analyzer c st)) g = Some row
  /\ Forall (fun e => ~ concerns g e) (snd (service.pollOnce analyzer c st)).
Proof.
  intros Hrow. unfold service.pollOnce.
  destruct (rss.Fetch _ _) as [items|].
  - destruct (pollItems_known_untouched analyzer
                (service.attach (service.fates c) 0 items) st g row Hrow)
      as [H1 H2].
    destruct (service.pollItems _ _ _); simpl in *.
    split; [assumption|]. constructor; [apply fetch_not_concerns|assumption].
  - simpl. split; [assumption|].
    constructor; [apply fetch_not_concerns|constructor].
Qed.

Lemma Run_known_untouched analyzer cycles st (g : bytes) row :
  storage.lookup st g = Some row ->
  storage.lookup (fst (service.Run analyzer cycles st)) g = Some row
  /\ Forall (fun e => ~ concerns g e) (snd (service.Run analyzer cycles st)).
Proof.
  revert st. induction cycles as [|c cycles IH]; intros st Hrow.
  - simpl. auto.
  - rewrite Run_cons. simpl fst. simpl snd.
    destruct (pollOnce_known_untouched analyzer c st g row Hrow) as [H1 H2].
    destruct (IH _ H1) as [H3 H4].
    split; [assumption|]. apply Forall_app. now split.
Qed.

(** The revision without the webhook makes the same calls, the webhook
    apart, and leaves the same store. *)
Lemma eraseNotify_chat item reqs tail :
  eraseNotify (map (service.EvChat item) reqs ++ tail)
  = map (service.EvChat item) reqs ++ eraseNotify tail.
Proof.
  unfold eraseNotify. rewrite filter_app. f_equal.
  induction reqs as [|q reqs IH]; simpl; [reflexivity|now f_equal].
Qed.

Lemma service0_processItem analyzer f st item :
  service0.processItem analyzer f st item
  = (fst (service.processItem analyzer f st item),
     eraseNotify (snd (service.processItem analyzer f st item))).
Proof.
  unfold service0.processItem, service.processItem.
  destruct (storage.Exists _ _ _) as [[|]|]; try reflexivity.
  destruct (analysis.Evaluate _ _ _) as [reqs out].
  destruct out as [result|e].
  - destruct (storage.SaveAnalysis _ _ _ _ _) as [st' [|]];
      cbn [fst snd]; f_equal; rewrite <- !app_assoc; cbn [app];
      change (eraseNotify (?a :: ?b :: ?l)) with (a :: b :: eraseNotify l);
      do 2 f_equal; rewrite eraseNotify_chat; f_equal.
    + destruct (analysis.Relevant result); reflexivity.
  - cbn [fst snd]. f_equal. cbn [app].
    change (eraseNotify (?a :: ?b :: ?l)) with (a :: b :: eraseNotify l).
    do 2 f_equal.
    induction reqs as [|q reqs IH]; [reflexivity|].
    cbn [map]. change (eraseNotify (?a :: ?l)) with (a :: eraseNotify l).
    now f_equal.
Qed.

Lemma service0_pollItems analyzer batch st :
  service0.pollItems analyzer batch st
  = (fst (service.pollItems analyzer batch st),
     eraseNotify (snd (service.pollItems analyzer batch st))).
Proof.
  revert st. induction batch as [|[item f] batch IH]; intros st.
  - reflexivity.
  - rewrite pollItems_cons. simpl service0.pollItems.
    rewrite service0_processItem, IH. simpl.
    unfold eraseNotify. now rewrite filter_app.
Qed.

Lemma service0_pollOnce analyzer c st :
  service0.pollOnce analyzer c st
  = (fst (service.pollOnce analyzer c st),
     eraseNotify (snd (service.pollOnce analyzer c st))).
Proof.
  unfold service0.pollOnce, service.pollOnce.
  destruct (rss.Fetch _ _) as [items|]; [|reflexivity].
  rewrite service0_pollItems.
  destruct (service.pollItems _ _ _). reflexivity.
Qed.

(** The revision without the webhook never calls the notifier. *)
Lemma service0_never_notifies analyzer c st e :
  In e (snd (service0.pollOnce analyzer c st)) -> isNotify e = false.
Proof.
  rewrite service0_pollOnce. simpl. intros H.
  apply filter_In in H. now apply negb_true_iff.
Qed.

(** C1. An item whose identifier is in the ledger when its turn comes is
    only looked up: no call to the classifier, to [SaveAnalysis] or to
    the notifier is made for it and the store stays as it is.  Hence,
    over any sequence of cycles, a record that is in the ledger stays
    exactly as it is, its first-seen timestamp included, and no such
    call is made for its identifier; the same holds for the revision of
    [pollOnce] without the webhook. *)
Theorem known_item_is_skipped :
  forall (analyzer : analysis.Client) (st : storage.Store) (g : bytes)
         (row : storage.Row),
    storage.lookup st g = Some row ->
    (forall f item,
        rss.GUID item = g ->
        service.processItem analyzer f st item = (st, [service.EvExists g]))
    /\ (forall cycles,
          storage.lookup (fst (service.Run analyzer cycles st)) g = Some row
          /\ forall e, In e (snd (service.Run analyzer cycles st)) ->
                       ~ concerns g e)
    /\ (forall c,
          storage.lookup (fst (service0.pollOnce analyzer c st)) g = Some row
          /\ forall e, In e (snd (service0.pollOnce analyzer c st)) ->
                       ~ concerns g e).
Proof.
  intros analyzer st g row Hrow. repeat split.
  - intros f item <-. unfold service.processItem, storage.Exists.
    rewrite (lookup_exists _ _ _ Hrow).
    destruct (service.existsFails f); reflexivity.
  - apply Run_known_untouched, Hrow.
  - apply Forall_forall. apply Run_known_untouched with (row := row), Hrow.
  - rewrite service0_pollOnce. simpl.
    apply pollOnce_known_untouched, Hrow.
  - rewrite service0_pollOnce. simpl. intros e He.
    apply filter_In in He. destruct He as [He _]. revert e He.
    apply Forall_forall.
    apply pollOnce_known_untouched with (row := row), Hrow.
Qed.

Lemma known_item_is_skipped_witness :
  (forall f item,
      rss.GUID item = lit "a1" ->
      service.processItem Sample.analyzer f Sample.storeA item
      = (Sample.storeA, [service.EvExists (lit "a1")]))
  /\ (forall cycles,
        storage.lookup
          (fst (service.Run Sample.analyzer cycles Sample.storeA)) (lit "a1")
        = Some Sample.rowA
        /\ forall e,
            In e (snd (service.Run Sample.analyzer cycles Sample.storeA)) ->
            ~ concerns (lit "a1") e)
  /\ (forall c,
        storage.lookup
          (fst (service0.pollOnce Sample.analyzer c Sample.storeA)) (lit "a1")
        = Some Sample.rowA
        /\ forall e,
            In e (snd (service0.pollOnce Sample.analyzer c Sample.storeA)) ->
            ~ concerns (lit "a1") e).
Proof.
  apply (known_item_is_skipped
           Sample.analyzer Sample.storeA (lit "a1") Sample.rowA).
  reflexivity.
Defined.

(** ** Counting notifications (C2, C3) *)

Definition notifiesFor (g : bytes) (e : service.Event) : bool :=
  match e with
  | service.EvNotifyWebhook item _ _ => beq (rss.GUID item) g
  | _ => false
  end.

(** A successful [SaveAnalysis] for [g] of a verdict that is relevant. *)
Definition savesRelevantFor (g : bytes) (e : service.Event) : bool :=
  match e with
  | service.EvSaveAnalysis item result true =>
    beq (rss.GUID item) g && analysis.Relevant result
  | _ => false
  end.

Definition count (p : service.Event -> bool) (evs : list service.Event) : nat :=
  length (filter p evs).

Definition present (st : storage.Store) (g : bytes) : Prop :=
  existsb (storage.hasGUID g) (storage.rows st) = true.

Lemma count_app p (e1 e2 : list service.Event) :
  count p (e1 ++ e2) = (count p e1 + count p e2)%nat.
Proof. unfold count. now rewrite filter_app, length_app. Qed.

Lemma count_zero p (evs : list service.Event) :
  Forall (fun e => p e = false) evs -> count p evs = 0%nat.
Proof.
  unfold count. induction 1 as [|e evs He _ IH]; simpl; [reflexivity|].
  now rewrite He.
Qed.

Lemma count_chat p item reqs :
  (forall q, p (service.EvChat item q) = false) ->
  count p (map (service.EvChat item) reqs) = 0%nat.
Proof.
  intros Hp. apply count_zero, Forall_forall. intros e He.
  apply in_map_iff in He. destruct He as (q & <- & _). apply Hp.
Qed.

(** The calls that come before [SaveAnalysis] in the loop body. *)
Definition preamble (item : rss.Item) (reqs : list analysis.ChatRequest)
  : list service.Event :=
  [service.EvExists (rss.GUID item); service.EvEvaluate item]
    ++ map (service.EvChat item) reqs.

Ltac fold_preamble :=
  repeat match goal with
         | |- context [[service.EvExists (rss.GUID ?i); service.EvEvaluate ?i]
                         ++ map (service.EvChat ?i) ?r] =>
           fold (preamble i r)
         end.

Lemma count_preamble p item reqs :
  p (service.EvExists (rss.GUID item)) = false ->
  p (service.EvEvaluate item) = false ->
  (forall q, p (service.EvChat item q) = false) ->
  count p (preamble item reqs) = 0%nat.
Proof.
  intros H1 H2 H3. unfold preamble. rewrite count_app, count_chat by assumption.
  unfold count. simpl. now rewrite H1, H2.
Qed.

Lemma in_preamble e item reqs :
  In e (preamble item reqs) ->
  e = service.EvExists (rss.GUID item) \/ e = service.EvEvaluate item
  \/ exists q, e = service.EvChat item q.
Proof.
  unfold preamble. simpl. intros [H|[H|H]]; auto.
  apply in_map_iff in H. destruct H as (q & <- & _). eauto.
Qed.

(** Per item: as many notifications as successful relevant saves. *)
Lemma step_notify_per_save analyzer f st item st' evs (g : bytes) :
  ItemStep analyzer f st item st' evs ->
  count (notifiesFor g) evs = count (savesRelevantFor g) evs.
Proof.
  intros H. destruct H; try reflexivity; fold (preamble item reqs).
  - now rewrite !count_preamble.
  - rewrite !count_app, !count_preamble by reflexivity.
    unfold count. simpl. reflexivity.
  - rewrite !count_app, !count_preamble by reflexivity.
    unfold count. simpl.
    destruct (analysis.Relevant result); simpl;
      [|now rewrite andb_false_r].
    rewrite andb_true_r. destruct (beq (rss.GUID item) g); reflexivity.
Qed.

(** [Once g st st' evs]: over a stretch of the run that takes the store
    from [st] to [st'] with calls [evs], there is at most one
    notification for [g], none if [g] was in the store, and [g] is in
    the store afterwards if it was there before or was notified. *)
Definition Once (g : bytes) (st st' : storage.Store)
           (evs : list service.Event) : Prop :=
  (present st g -> count (notifiesFor g) evs = 0%nat /\ present st' g)
  /\ (count (notifiesFor g) evs <= 1)%nat
  /\ (1 <= count (notifiesFor g) evs -> present st' g)%nat.

Lemma Once_nil g st : Once g st st [].
Proof. unfold Once, count. simpl. repeat split; auto; lia. Qed.

Lemma Once_quiet g st evs :
  count (notifiesFor g) evs = 0%nat -> Once g st st evs.
Proof. unfold Once. intros ->. repeat split; auto; lia. Qed.

Lemma Once_seq g st st1 st2 e1 e2 :
  Once g st st1 e1 -> Once g st1 st2 e2 -> Once g st st2 (e1 ++ e2).
Proof.
  unfold Once. intros (A1 & B1 & C1) (A2 & B2 & C2). rewrite count_app.
  repeat split.
  - destruct (A1 H) as [-> H1]. now destruct (A2 H1) as [-> _].
  - destruct (A1 H) as [_ H1]. now destruct (A2 H1).
  - destruct (count (notifiesFor g) e1) as [|n] eqn:E; [lia|].
    assert (H1 : present st1 g) by (apply C1; lia).
    destruct (A2 H1) as [-> _]. lia.
  - intros H. destruct (count (notifiesFor g) e1) as [|n] eqn:E.
    + apply C2. lia.
    + assert (H1 : present st1 g) by (apply C1; lia).
      now destruct (A2 H1).
Qed.

Lemma step_once analyzer f st item st' evs (g : bytes) :
  ItemStep analyzer f st item st' evs -> Once g st st' evs.
Proof.
  intros H. destruct H; try (apply Once_quiet; reflexivity);
    fold (preamble item reqs).
  - apply Once_quiet. now rewrite count_preamble.
  - apply Once_quiet. rewrite count_app, count_preamble by reflexivity.
    reflexivity.
  - unfold Once. rewrite !count_app, count_preamble by reflexivity.
    assert (Hc : count (notifiesFor g)
                   (if analysis.Relevant result
                    then service.notifyWebhook item result else [])
                 = if analysis.Relevant result && beq (rss.GUID item) g
                   then 1%nat else 0%nat).
    { destruct (analysis.Relevant result); [|reflexivity].
      unfold count. simpl. now destruct (beq (rss.GUID item) g). }
    assert (Hs : count (notifiesFor g)
                   [service.EvSaveAnalysis item result true] = 0%nat)
      by reflexivity.
    rewrite Hs, Hc. clear Hs Hc. cbn [plus]. unfold present.
    destruct (beq (rss.GUID item) g) eqn:Eg.
    + apply beq_true_iff in Eg. subst g.
      split; [intros Hp; congruence|].
      split; [destruct (analysis.Relevant result); simpl; lia|].
      intros _. apply upsert_stores.
    + rewrite andb_false_r.
      split; [intros Hp; split; [reflexivity|now apply upsert_keeps]|].
      split; lia.
Qed.

Lemma pollItems_once analyzer batch st (g : bytes) :
  Once g st (fst (service.pollItems analyzer batch st))
       (snd (service.pollItems analyzer batch st)).
Proof.
  revert st. induction batch as [|[item f] batch IH]; intros st.
  - apply Once_nil.
  - rewrite pollItems_cons. simpl fst. simpl snd.
    eapply Once_seq; [eapply step_once, processItem_step|apply IH].
Qed.

Lemma pollOnce_once analyzer c st (g : bytes) :
  Once g st (fst (service.pollOnce analyzer c st))
       (snd (service.pollOnce analyzer c st)).
Proof.
  unfold service.pollOnce.
  destruct (rss.Fetch _ _) as [items|].
  - pose proof (pollItems_once analyzer
                  (service.attach (service.fates c) 0 items) st g) as H.
    destruct (service.pollItems _ _ _) as [st' evs]. simpl in *.
    change (service.EvFetch :: evs) with ([service.EvFetch] ++ evs).
    eapply Once_seq; [|exact H]. now apply Once_quiet.
  - now apply Once_quiet.
Qed.

Lemma Run_once analyzer cycles st (g : bytes) :
  Once g st (fst (service.Run analyzer cycles st))
       (snd (service.Run analyzer cycles st)).
Proof.
  revert st. induction cycles as [|c cycles IH]; intros st.
  - apply Once_nil.
  - rewrite Run_cons. simpl fst. simpl snd.
    eapply Once_seq; [apply pollOnce_once|apply IH].
Qed.

Lemma pollItems_notify_per_save analyzer batch st (g : bytes) :
  count (notifiesFor g) (snd (service.pollItems analyzer batch st))
  = count (savesRelevantFor g) (snd (service.pollItems analyzer batch st)).
Proof.
  revert st. induction batch as [|[item f] batch IH]; intros st.
  - reflexivity.
  - rewrite pollItems_cons. simpl snd. rewrite !count_app, IH. f_equal.
    eapply step_notify_per_save, processItem_step.
Qed.

Lemma pollOnce_notify_per_save analyzer c st (g : bytes) :
  count (notifiesFor g) (snd (service.pollOnce analyzer c st))
  = count (savesRelevantFor g) (snd (service.pollOnce analyzer c st)).
Proof.
  unfold service.pollOnce.
  destruct (rss.Fetch _ _) as [items|]; [|reflexivity].
  pose proof (pollItems_notify_per_save analyzer
                (service.attach (service.fates c) 0 items) st g) as H.
  destruct (service.pollItems _ _ _) as [st' evs]. simpl in *.
  exact H.
Qed.

Lemma Run_notify_per_save analyzer cycles st (g : bytes) :
  count (notifiesFor g) (snd (service.Run analyzer cycles st))
  = count (savesRelevantFor g) (snd (service.Run analyzer cycles st)).
Proof.
  revert st. induction cycles as [|c cycles IH]; intros st.
  - reflexivity.
  - rewrite Run_cons. simpl snd.
    now rewrite !count_app, IH, pollOnce_notify_per_save.
Qed.

(** [Gated evs]: every notification in [evs] comes right after the
    successful [SaveAnalysis] of the same item and verdict, the verdict
    is relevant, and the message is the webhook text for them. *)
Definition Gated (evs : list service.Event) : Prop :=
  forall pre item result content post,
    evs = pre ++ service.EvNotifyWebhook item result content :: post ->
    (exists pre', pre = pre' ++ [service.EvSaveAnalysis item result true])
    /\ analysis.Relevant result = true
    /\ content = service.webhookContent item result.

Lemma Gated_quiet evs :
  (forall e, In e evs -> isNotify e = false) -> Gated evs.
Proof.
  intros H pre item result content post ->.
  specialize (H (service.EvNotifyWebhook item result content)).
  rewrite in_app_iff in H. simpl in H. discriminate H. right. now left.
Qed.

Lemma Gated_app e1 e2 : Gated e1 -> Gated e2 -> Gated (e1 ++ e2).
Proof.
  intros G1 G2 pre item result content post Heq.
  apply app_eq_app in Heq. destruct Heq as [l [[H1 H2]|[H1 H2]]].
  - destruct l as [|x l].
    + simpl in H2. symmetry in H2.
      destruct (G2 [] item result content post H2) as [[pre' Hp] _].
      now destruct pre'.
    + injection H2 as <- ->.
      now apply (G1 pre item result content l).
  - destruct (G2 l item result content post H2) as [[pre' Hp] Hr].
    split; [|exact Hr]. exists (e1 ++ pre'). subst. now rewrite app_assoc.
Qed.

Lemma preamble_quiet item reqs e :
  In e (preamble item reqs) -> isNotify e = false.
Proof.
  intros H. apply in_preamble in H.
  destruct H as [->|[->|[q ->]]]; reflexivity.
Qed.

Lemma step_gated analyzer f st item st' evs :
  ItemStep analyzer f st item st' evs -> Gated evs.
Proof.
  intros H. destruct H; fold_preamble.
  - apply Gated_quiet. intros e [<-|[]]. reflexivity.
  - apply Gated_quiet. intros e [<-|[]]. reflexivity.
  - apply Gated_quiet, preamble_quiet.
  - apply Gated_app; [apply Gated_quiet, preamble_quiet|].
    apply Gated_quiet. intros e [<-|[]]. reflexivity.
  - apply Gated_app; [apply Gated_quiet, preamble_quiet|].
    destruct (analysis.Relevant result) eqn:Hrel.
    + intros pre it r c post Heq. unfold service.notifyWebhook in Heq.
      destruct pre as [|x [|y pre]]; simpl in Heq.
      * discriminate.
      * injection Heq as <- <- <- <- <-. repeat split; auto. now exists [].
      * injection Heq as _ _ Heq. now destruct pre.
    + apply Gated_quiet. intros e [<-|[]]. reflexivity.
Qed.

Lemma pollItems_gated analyzer batch st :
  Gated (snd (service.pollItems analyzer batch st)).
Proof.
  revert st. induction batch as [|[item f] batch IH]; intros st.
  - apply Gated_quiet. intros e [].
  - rewrite pollItems_cons. simpl snd.
    apply Gated_app; [eapply step_gated, processItem_step|apply IH].
Qed.

Lemma pollOnce_gated analyzer c st :
  Gated (snd (service.pollOnce analyzer c st)).
Proof.
  unfold service.pollOnce.
  destruct (rss.Fetch _ _) as [items|].
  - pose proof (pollItems_gated analyzer
                  (service.attach (service.fates c) 0 items) st) as H.
    destruct (service.pollItems _ _ _) as [st' evs]. simpl in *.
    change (service.EvFetch :: evs) with ([service.EvFetch] ++ evs).
    apply Gated_app; [|exact H].
    apply Gated_quiet. intros e [<-|[]]. reflexivity.
  - apply Gated_quiet. intros e [<-|[]]. reflexivity.
Qed.

Lemma Run_gated analyzer cycles st :
  Gated (snd (service.Run analyzer cycles st)).
Proof.
  revert st. induction cycles as [|c cycles IH]; intros st.
  - apply Gated_quiet. intros e [].
  - rewrite Run_cons. simpl snd.
    apply Gated_app; [apply pollOnce_gated|apply IH].
Qed.

(** C2. Over any number of cycles and for every identifier: the
    notifier is called no more often than [SaveAnalysis] succeeds for
    that identifier with a relevant verdict, and at most once
    altogether; every call of the notifier comes right after the
    successful save of the same item and verdict; and that verdict is
    relevant, so no notification is sent for [relevant = false]. *)
Theorem notification_at_most_once :
  forall (analyzer : analysis.Client) (cycles : list service.Cycle)
         (st : storage.Store) (g : bytes),
    (count (notifiesFor g) (snd (service.Run analyzer cycles st))
     <= count (savesRelevantFor g) (snd (service.Run analyzer cycles st)))%nat
    /\ (count (notifiesFor g) (snd (service.Run analyzer cycles st)) <= 1)%nat
    /\ (forall pre item result content post,
          snd (service.Run analyzer cycles st)
          = pre ++ service.EvNotifyWebhook item result content :: post ->
          exists pre',
            pre = pre' ++ [service.EvSaveAnalysis item result true])
    /\ (forall item result content,
          In (service.EvNotifyWebhook item result content)
             (snd (service.Run analyzer cycles st)) ->
          analysis.Relevant result = true).
Proof.
  intros analyzer cycles st g. repeat split.
  - rewrite Run_notify_per_save. apply Nat.le_refl.
  - apply (Run_once analyzer cycles st g).
  - intros pre item result content post H.
    apply (Run_gated analyzer cycles st pre item result content post H).
  - intros item result content H. apply in_split in H.
    destruct H as (pre & post & H).
    apply (Run_gated analyzer cycles st pre item result content post H).
Qed.

(** The sample feed polled twice: each of its two newsletter items is
    saved once and notified once. *)
Example notification_sample :
  count (notifiesFor (lit "a1"))
        (snd (service.Run Sample.analyzer [Sample.cycleAll; Sample.cycleAll]
                          storage.emptyStore)) = 1%nat
  /\ count isNotify
           (snd (service.Run Sample.analyzer [Sample.cycleAll; Sample.cycleAll]
                             storage.emptyStore)) = 2%nat.
Proof. split; vm_compute; reflexivity. Qed.

(** ** Persistence gates notification (C3) *)

Lemma notifiesFor_isNotify g e : isNotify e = false -> notifiesFor g e = false.
Proof. destruct e; simpl; congruence. Qed.

Lemma pollItems_no_notify_for_others analyzer batch st (g : bytes) :
  (forall other, In other (map fst batch) -> rss.GUID other <> g) ->
  count (notifiesFor g) (snd (service.pollItems analyzer batch st)) = 0%nat.
Proof.
  intros H. apply count_zero.
  eapply Forall_impl; [|apply pollItems_events_items].
  simpl. intros e He. destruct e; try reflexivity. simpl.
  apply beq_false_iff. apply H. now apply He.
Qed.

(** C3. When [SaveAnalysis] fails for an item, the store is left as it
    was and no call of the notifier is among the calls made for the
    item; in a batch in which no other item carries its identifier, the
    whole cycle makes no call of the notifier for that identifier. *)
Theorem persistence_gates_notification :
  forall (analyzer : analysis.Client) (f : service.Fate) (item : rss.Item),
    service.saveFails f = true ->
    (forall st,
        fst (service.processItem analyzer f st item) = st
        /\ forall e, In e (snd (service.processItem analyzer f st item)) ->
                     isNotify e = false)
    /\ (forall before after st,
          (forall other, In other (map fst (before ++ after)) ->
                         rss.GUID other <> rss.GUID item) ->
          count (notifiesFor (rss.GUID item))
                (snd (service.pollItems analyzer
                        (before ++ (item, f) :: after) st))
          = 0%nat).
Proof.
  intros analyzer f item Hf.
  assert (Hitem : forall st,
    fst (service.processItem analyzer f st item) = st
    /\ forall e, In e (snd (service.processItem analyzer f st item)) ->
                 isNotify e = false).
  { intros st. pose proof (processItem_step analyzer f st item) as H.
    destruct (service.processItem analyzer f st item) as [st' evs].
    simpl in *. destruct H; fold_preamble.
    - split; [reflexivity|]. intros e [<-|[]]. reflexivity.
    - split; [reflexivity|]. intros e [<-|[]]. reflexivity.
    - split; [reflexivity|]. apply preamble_quiet.
    - split; [reflexivity|]. intros e He. apply in_app_iff in He.
      destruct He as [He|[<-|[]]]; [now apply preamble_quiet in He|].
      reflexivity.
    - congruence. }
  split; [exact Hitem|].
  intros before after st Hothers.
  rewrite pollItems_app, pollItems_cons. simpl snd. rewrite !count_app.
  rewrite !pollItems_no_notify_for_others.
  - rewrite (count_zero (notifiesFor (rss.GUID item))); [reflexivity|].
    apply Forall_forall. intros e He.
    apply notifiesFor_isNotify. eapply Hitem, He.
  - intros other Ho. apply Hothers. rewrite map_app, in_app_iff. now right.
  - intros other Ho. apply Hothers. rewrite map_app, in_app_iff. now left.
Qed.

Lemma persistence_gates_notification_witness :
  service.saveFails Sample.fateSaveFails = true
  /\ fst (service.processItem Sample.analyzer Sample.fateSaveFails
                              storage.emptyStore Sample.itemA)
     = storage.emptyStore
  /\ In (service.EvSaveAnalysis Sample.itemA Sample.resultA false)
        (snd (service.processItem Sample.analyzer Sample.fateSaveFails
                                  storage.emptyStore Sample.itemA))
  /\ forall e,
       In e (snd (service.processItem Sample.analyzer Sample.fateSaveFails
                                      storage.emptyStore Sample.itemA)) ->
       isNotify e = false.
Proof.
  split; [reflexivity|].
  destruct (persistence_gates_notification Sample.analyzer Sample.fateSaveFails
              Sample.itemA eq_refl) as [H _].
  destruct (H storage.emptyStore) as [H1 H2].
  split; [exact H1|]. split; [|exact H2].
  vm_compute. tauto.
Defined.

(** ** Isolation of per-item failures (C4) *)

(** The existence check, the classification or the persistence of the
    item fails when it is processed against store [st]. *)
Definition failsAt (analyzer : analysis.Client) (f : service.Fate)
           (st : storage.Store) (item : rss.Item) : Prop :=
  service.existsFails f = true
  \/ (service.existsFails f = false
      /\ existsb (storage.hasGUID (rss.GUID item)) (storage.rows st) = false
      /\ ((exists reqs e,
              analysis.Evaluate analyzer (service.chat f)
                                (service.itemContext item)
              = (reqs, analysis.Failed e))
          \/ ((exists reqs result,
                  analysis.Evaluate analyzer (service.chat f)
                                    (service.itemContext item)
                  = (reqs, analysis.Done result))
              /\ service.saveFails f = true))).

(** The item is new to store [st] and none of its steps fails; [result]
    is its verdict. *)
Definition completes (analyzer : analysis.Client) (f : service.Fate)
           (st : storage.Store) (item : rss.Item) (result : analysis.Result)
  : Prop :=
  service.existsFails f = false
  /\ existsb (storage.hasGUID (rss.GUID item)) (storage.rows st) = false
  /\ (exists reqs,
         analysis.Evaluate analyzer (service.chat f) (service.itemContext item)
         = (reqs, analysis.Done result))
  /\ service.saveFails f = false.

Definition isSavedOk (e : service.Event) : bool :=
  match e with
  | service.EvSaveAnalysis _ _ true => true
  | _ => false
  end.

Lemma step_failed analyzer f st item st' evs :
  ItemStep analyzer f st item st' evs ->
  failsAt analyzer f st item ->
  st' = st
  /\ forall e, In e evs -> isNotify e = false /\ isSavedOk e = false.
Proof.
  intros Hstep Hfail.
  assert (Hpre : forall reqs e, In e (preamble item reqs) ->
                                isNotify e = false /\ isSavedOk e = false).
  { intros reqs e He. apply in_preamble in He.
    destruct He as [->|[->|[q ->]]]; split; reflexivity. }
  destruct Hstep; fold_preamble.
  - split; [reflexivity|]. intros e [<-|[]]. split; reflexivity.
  - split; [reflexivity|]. intros e [<-|[]]. split; reflexivity.
  - split; [reflexivity|]. apply Hpre.
  - split; [reflexivity|]. intros e He. apply in_app_iff in He.
    destruct He as [He|[<-|[]]]; [now apply Hpre in He|].
    split; reflexivity.
  - exfalso. destruct Hfail as [Hx|(_ & _ & [(reqs' & e & He)|[_ Hs]])];
      congruence.
Qed.

Lemma step_completed analyzer f st item st' evs result :
  ItemStep analyzer f st item st' evs ->
  completes analyzer f st item result ->
  st' = storage.upsert (service.dbNow f) item result st
  /\ In (service.EvEvaluate item) evs
  /\ In (service.EvSaveAnalysis item result true) evs
  /\ (analysis.Relevant result = true ->
      In (service.EvNotifyWebhook item result
                                  (service.webhookContent item result)) evs).
Proof.
  intros Hstep (Hx & Hk & (reqs' & He) & Hs).
  destruct Hstep; try congruence.
  rewrite He in H1. injection H1 as <- <-.
  split; [reflexivity|]. split; [simpl; auto|].
  split.
  - apply in_app_iff. right. now left.
  - intros Hrel. rewrite Hrel. apply in_app_iff. right. right. now left.
Qed.

(** Rows are never removed by a batch. *)
Lemma pollItems_keeps analyzer batch st (g : bytes) :
  present st g -> present (fst (service.pollItems analyzer batch st)) g.
Proof.
  intros H. destruct (pollItems_once analyzer batch st g) as [Hp _].
  now destruct (Hp H).
Qed.

(** C4. If the existence check, the classification or the persistence of
    item [k] of a batch fails, then [k] changes nothing in the store and
    neither a successful save nor a notification is made for it; the
    batch goes on: its store is the one the batch without [k] produces
    and the calls made for the other items are the ones made without
    [k] (in the revision without the webhook the store is likewise the
    one without [k]); and every item of the batch that is new when its
    turn comes and whose own steps succeed is classified, persisted,
    present in the store at the end, and notified if its verdict is
    relevant. *)
Theorem partial_failure_isolation :
  forall (analyzer : analysis.Client)
         (before after : list (rss.Item * service.Fate))
         (k : rss.Item) (fk : service.Fate) (st : storage.Store),
    failsAt analyzer fk (fst (service.pollItems analyzer before st)) k ->
    (fst (service.processItem analyzer fk
            (fst (service.pollItems analyzer before st)) k)
     = fst (service.pollItems analyzer before st)
     /\ forall e,
         In e (snd (service.processItem analyzer fk
                      (fst (service.pollItems analyzer before st)) k)) ->
         isNotify e = false /\ isSavedOk e = false)
    /\ service.pollItems analyzer (before ++ (k, fk) :: after) st
       = (fst (service.pollItems analyzer (before ++ after) st),
          snd (service.pollItems analyzer before st)
          ++ snd (service.processItem analyzer fk
                    (fst (service.pollItems analyzer before st)) k)
          ++ snd (service.pollItems analyzer after
                    (fst (service.pollItems analyzer before st))))
    /\ snd (service.pollItems analyzer (before ++ after) st)
       = snd (service.pollItems analyzer before st)
         ++ snd (service.pollItems analyzer after
                   (fst (service.pollItems analyzer before st)))
    /\ fst (service0.pollItems analyzer (before ++ (k, fk) :: after) st)
       = fst (service0.pollItems analyzer (before ++ after) st)
    /\ (forall pre j fj post result,
          before ++ (k, fk) :: after = pre ++ (j, fj) :: post ->
          completes analyzer fj (fst (service.pollItems analyzer pre st))
                    j result ->
          let evs :=
            snd (service.pollItems analyzer (before ++ (k, fk) :: after) st) in
          In (service.EvEvaluate j) evs
          /\ In (service.EvSaveAnalysis j result true) evs
          /\ (analysis.Relevant result = true ->
              In (service.EvNotifyWebhook
                    j result (service.webhookContent j result)) evs)
          /\ present (fst (service.pollItems analyzer
                             (before ++ (k, fk) :: after) st))
                     (rss.GUID j)).
Proof.
  intros analyzer before after k fk st Hfail.
  destruct (step_failed _ _ _ _ _ _
              (processItem_step analyzer fk
                 (fst (service.pollItems analyzer before st)) k) Hfail)
    as [Hst Hev].
  split; [now split|]. split; [|split; [|split]].
  - rewrite !pollItems_app, pollItems_cons. simpl fst. simpl snd.
    now rewrite Hst.
  - now rewrite pollItems_app.
  - rewrite !service0_pollItems. cbn [fst].
    rewrite !pollItems_app, pollItems_cons. simpl fst. now rewrite Hst.
  - intros pre j fj post result Heq Hc evs. subst evs. rewrite Heq.
    rewrite pollItems_app, pollItems_cons. simpl fst. simpl snd.
    destruct (step_completed _ _ _ _ _ _ _
                (processItem_step analyzer fj
                   (fst (service.pollItems analyzer pre st)) j) Hc)
      as (Hs & H1 & H2 & H3).
    repeat split.
    + apply in_app_iff. right. apply in_app_iff. now left.
    + apply in_app_iff. right. apply in_app_iff. now left.
    + intros Hrel. apply in_app_iff. right. apply in_app_iff. left. auto.
    + apply pollItems_keeps. rewrite Hs. apply upsert_stores.
Qed.

Lemma partial_failure_isolation_witness :
  failsAt Sample.analyzer Sample.fateClassifyFails
          (fst (service.pollItems Sample.analyzer [] storage.emptyStore))
          Sample.itemA
  /\ service.pollItems
       Sample.analyzer
       ([] ++ (Sample.itemA, Sample.fateClassifyFails) :: Sample.batchB)
       storage.emptyStore
     = (fst (service.pollItems
               Sample.analyzer ([] ++ Sample.batchB) storage.emptyStore),
        snd (service.pollItems Sample.analyzer [] storage.emptyStore)
        ++ snd (service.processItem
                  Sample.analyzer Sample.fateClassifyFails
                  (fst (service.pollItems
                          Sample.analyzer [] storage.emptyStore))
                  Sample.itemA)
        ++ snd (service.pollItems
                  Sample.analyzer Sample.batchB
                  (fst (service.pollItems
                          Sample.analyzer [] storage.emptyStore))))
  /\ In (service.EvNotifyWebhook
           Sample.itemB Sample.resultA
           (service.webhookContent Sample.itemB Sample.resultA))
        (snd (service.pollItems
                Sample.analyzer
                ([] ++ (Sample.itemA, Sample.fateClassifyFails)
                    :: Sample.batchB)
                storage.emptyStore)).
Proof.
  assert (Hfail : failsAt
                    Sample.analyzer Sample.fateClassifyFails
                    (fst (service.pollItems
                            Sample.analyzer [] storage.emptyStore))
                    Sample.itemA).
  { right. split; [reflexivity|]. split; [reflexivity|]. left.
    eexists. eexists. reflexivity. }
  split; [exact Hfail|].
  destruct (partial_failure_isolation
              Sample.analyzer [] Sample.batchB
              Sample.itemA Sample.fateClassifyFails storage.emptyStore Hfail)
    as (_ & H2 & _ & _ & H4).
  split; [exact H2|].
  apply (H4 [(Sample.itemA, Sample.fateClassifyFails)] Sample.itemB
            (Sample.fateOf Sample.answerRelevant) [] Sample.resultA eq_refl).
  - split; [reflexivity|]. split; [reflexivity|].
    split; [eexists; vm_compute; reflexivity|reflexivity].
  - reflexivity.
Defined.

(** ** The newsletter filter (C10) *)

(** An entry without GUID and without link whose title contains the
    marker is kept: the filter looks at the identifier [pickGUID]
    selects, which here is the title, not at the GUID field of the
    entry. *)
Lemma newsletter_filter_counterexample :
  Contains (gofeed.GUID
              {| gofeed.GUID := [];
                 gofeed.Title := lit "Weekly /newsletter/ digest";
                 gofeed.Link := [];
                 gofeed.PublishedParsed := Some 1704067200;
                 gofeed.Description := [] |}) rss.newsletter = false
  /\ Contains (gofeed.Link
                 {| gofeed.GUID := [];
                    gofeed.Title := lit "Weekly /newsletter/ digest";
                    gofeed.Link := [];
                    gofeed.PublishedParsed := Some 1704067200;
                    gofeed.Description := [] |}) rss.newsletter = false
  /\ rss.Fetch (Some [{| gofeed.GUID := [];
                         gofeed.Title := lit "Weekly /newsletter/ digest";
                         gofeed.Link := [];
                         gofeed.PublishedParsed := Some 1704067200;
                         gofeed.Description := [] |}])
               (fun _ => 0)
     = Some [{| rss.GUID := lit "Weekly /newsletter/ digest";
                rss.Title := lit "Weekly /newsletter/ digest";
                rss.Link := [];
                rss.PublishedAt := 1704067200;
                rss.Description := [] |}].
Proof. repeat split. Qed.

(** C10, amended. Every item that [Fetch] returns has the marker
    "/newsletter/" in its identifier or in its link; an entry whose
    selected identifier ([pickGUID]: GUID, else link, else title) and
    whose link both lack the marker contributes no item; and every call
    to the classifier, to [SaveAnalysis] or to the notifier in a cycle
    is for an item with the marker in its identifier or link. *)
Theorem fetch_keeps_newsletter_items :
  forall (entries : list gofeed.Item) (clock : nat -> Z),
    (forall items,
        rss.Fetch (Some entries) clock = Some items ->
        Forall isNewsletter items)
    /\ (forall pre entry post,
          entries = pre ++ entry :: post ->
          Contains (rss.pickGUID entry) rss.newsletter = false ->
          Contains (gofeed.Link entry) rss.newsletter = false ->
          rss.Fetch (Some entries) clock
          = Some (rss.collect clock 0 pre
                  ++ rss.collect clock (S (length pre)) post))
    /\ (forall analyzer fates st e item,
          In e (snd (service.pollOnce
                       analyzer
                       {| service.parsed := Some entries;
                          service.clock := clock;
                          service.fates := fates |} st)) ->
          eventItem e = Some item ->
          isNewsletter item).
Proof.
  intros entries clock. repeat split.
  - intros items H. injection H as <-. apply collect_newsletter.
  - intros pre entry post -> Hg Hl. unfold rss.Fetch. f_equal.
    rewrite collect_app. f_equal. now apply collect_skip.
  - intros analyzer fates st e item He Hitem.
    rewrite (pollOnce_fetched _ _ _ (rss.collect clock 0 entries)) in He
      by reflexivity.
    simpl in He. destruct He as [<-|He]; [discriminate|].
    pose proof (pollItems_events_items
                  analyzer
                  (service.attach fates 0 (rss.collect clock 0 entries))
                  st) as H.
    rewrite Forall_forall in H. specialize (H e He item Hitem).
    rewrite attach_items in H.
    pose proof (collect_newsletter clock 0 entries) as Hn.
    rewrite Forall_forall in Hn. now apply Hn.
Qed.

(** ** The order of [ListRelevant] (C8) *)

(** The sort key of the query as a proposition. *)
Definition precedesP (a b : storage.Row) : Prop :=
  fst (storage.pubKey b) < fst (storage.pubKey a)
  \/ (fst (storage.pubKey a) = fst (storage.pubKey b)
      /\ (snd (storage.pubKey b) < snd (storage.pubKey a)
          \/ (snd (storage.pubKey a) = snd (storage.pubKey b)
              /\ storage.id b < storage.id a))).

Lemma precedes_iff (a b : storage.Row) :
  storage.precedes a b = true <-> precedesP a b.
Proof.
  unfold storage.precedes, precedesP.
  destruct (storage.pubKey a) as [va ta], (storage.pubKey b) as [vb tb].
  simpl. rewrite !orb_true_iff, !andb_true_iff, !orb_true_iff, !andb_true_iff.
  rewrite !Z.ltb_lt, !Z.eqb_eq. reflexivity.
Qed.

Lemma precedes_false_iff (a b : storage.Row) :
  storage.precedes a b = false <-> ~ precedesP a b.
Proof.
  rewrite <- precedes_iff. destruct (storage.precedes a b); split; congruence.
Qed.

Lemma precedesP_trans (a b c : storage.Row) :
  precedesP a b -> precedesP b c -> precedesP a c.
Proof. unfold precedesP. lia. Qed.

Lemma precedesP_asym (a b : storage.Row) : precedesP a b -> ~ precedesP b a.
Proof. unfold precedesP. lia. Qed.

Lemma precedesP_total (a b : storage.Row) :
  storage.id a <> storage.id b -> precedesP a b \/ precedesP b a.
Proof. unfold precedesP. lia. Qed.

(** [a] does not come after [b]. *)
Definition notAfter (a b : storage.Row) : Prop := ~ precedesP b a.

Lemma insertRow_perm (r : storage.Row) (l : list storage.Row) :
  Permutation (storage.insertRow r l) (r :: l).
Proof.
  induction l as [|x l IH]; simpl; [reflexivity|].
  destruct (storage.precedes r x); [reflexivity|].
  rewrite IH. apply perm_swap.
Qed.

Lemma orderBy_perm (l : list storage.Row) : Permutation (storage.orderBy l) l.
Proof.
  induction l as [|x l IH]; simpl; [reflexivity|].
  rewrite insertRow_perm. now constructor.
Qed.

Lemma insertRow_sorted (r : storage.Row) (l : list storage.Row) :
  StronglySorted notAfter l -> StronglySorted notAfter (storage.insertRow r l).
Proof.
  induction 1 as [|x l Hs IH Hx]; simpl.
  - repeat constructor.
  - destruct (storage.precedes r x) eqn:E.
    + apply precedes_iff in E. constructor; [now constructor|].
      constructor; [now apply precedesP_asym|].
      eapply Forall_impl; [|exact Hx]. unfold notAfter.
      intros y Hy Hyr. apply Hy. eapply precedesP_trans; eauto.
    + apply precedes_false_iff in E. constructor; [exact IH|].
      eapply Permutation_Forall; [symmetry; apply insertRow_perm|].
      now constructor.
Qed.

Lemma orderBy_sorted (l : list storage.Row) :
  StronglySorted notAfter (storage.orderBy l).
Proof.
  induction l as [|x l IH]; simpl; [constructor|].
  now apply insertRow_sorted.
Qed.

Lemma StronglySorted_in_impl {A} (R R' : A -> A -> Prop) (l : list A) :
  (forall a b, In a l -> In b l -> R a b -> R' a b) ->
  StronglySorted R l -> StronglySorted R' l.
Proof.
  intros H Hs. induction Hs as [|x l Hs IH Hx]; constructor.
  - apply IH. intros a b Ha Hb. apply H; now right.
  - rewrite Forall_forall in *. intros y Hy.
    apply H; [now left|now right|now apply Hx].
Qed.

Lemma StronglySorted_app_inv_l {A} (R : A -> A -> Prop) (l1 l2 : list A) :
  StronglySorted R (l1 ++ l2) -> StronglySorted R l1.
Proof.
  induction l1 as [|x l1 IH]; simpl; intros H; [constructor|].
  inversion H as [|? ? Hs Hx]; subst. constructor; [now apply IH|].
  apply Forall_app in Hx. tauto.
Qed.

(** With pairwise distinct ids the order is strict. *)
Lemma sorted_strict (l : list storage.Row) :
  NoDup (map storage.id l) ->
  StronglySorted notAfter l -> StronglySorted precedesP l.
Proof.
  intros Hnd Hs. induction Hs as [|x l Hs IH Hx]; [constructor|].
  simpl in Hnd. inversion Hnd as [|? ? Hnotin Hnd']; subst.
  constructor; [now apply IH|].
  rewrite Forall_forall in *. intros y Hy.
  destruct (precedesP_total x y) as [H|H]; [|assumption|].
  - intros Heq. apply Hnotin. rewrite Heq. now apply in_map.
  - now apply Hx in Hy.
Qed.

(** ** Well-formed stores *)

Record wf (st : storage.Store) : Prop := {
  wf_ids : StronglySorted (fun a b => storage.id a < storage.id b)
                          (storage.rows st);
  wf_bound : Forall (fun r => storage.id r < storage.nextID st)
                    (storage.rows st);
  wf_guids : NoDup (map storage.guid (storage.rows st));
  wf_published : Forall (fun r => storage.published_at r <> None)
                        (storage.rows st)
}.

Lemma wf_emptyStore : wf storage.emptyStore.
Proof. split; simpl; constructor. Qed.

Lemma sorted_ids_map (f : storage.Row -> storage.Row) (l : list storage.Row) :
  (forall r, storage.id (f r) = storage.id r) ->
  StronglySorted (fun a b => storage.id a < storage.id b) l ->
  StronglySorted (fun a b => storage.id a < storage.id b) (map f l).
Proof.
  intros Hf. induction 1 as [|x l Hs IH Hx]; simpl; constructor; auto.
  rewrite Forall_map. eapply Forall_impl; [|exact Hx].
  simpl. intros y Hy. now rewrite !Hf.
Qed.

Lemma sorted_ids_snoc (l : list storage.Row) (r : storage.Row) :
  StronglySorted (fun a b => storage.id a < storage.id b) l ->
  Forall (fun x => storage.id x < storage.id r) l ->
  StronglySorted (fun a b => storage.id a < storage.id b) (l ++ [r]).
Proof.
  induction 1 as [|x l Hs IH Hx]; simpl; intros Hb.
  - repeat constructor.
  - inversion Hb; subst. constructor; [now apply IH|].
    apply Forall_app. split; [assumption|]. now repeat constructor.
Qed.

Lemma existsb_guid_in (g : bytes) (l : list storage.Row) :
  existsb (storage.hasGUID g) l = true <-> In g (map storage.guid l).
Proof.
  rewrite existsb_exists, in_map_iff. unfold storage.hasGUID.
  split; intros (r & H1 & H2).
  - exists r. apply beq_true_iff in H2. now split.
  - exists r. split; [assumption|]. now apply beq_true_iff.
Qed.

Lemma wf_upsert now item result st :
  wf st -> wf (storage.upsert now item result st).
Proof.
  intros [Hids Hb Hg Hp]. unfold storage.upsert.
  destruct (existsb (storage.hasGUID (rss.GUID item)) (storage.rows st)) eqn:E.
  - set (f := fun r => if storage.hasGUID (rss.GUID item) r
                       then storage.updateRow now item result r else r).
    assert (Hid : forall r, storage.id (f r) = storage.id r)
      by (intros r; unfold f; now destruct (storage.hasGUID _ r)).
    assert (Hgd : forall r, storage.guid (f r) = storage.guid r)
      by (intros r; unfold f; now destruct (storage.hasGUID _ r)).
    split; simpl.
    + now apply sorted_ids_map.
    + rewrite Forall_map. eapply Forall_impl; [|exact Hb].
      simpl. intros r Hr. now rewrite Hid.
    + rewrite map_map. rewrite (map_ext _ storage.guid); auto.
    + rewrite Forall_map. eapply Forall_impl; [|exact Hp].
      simpl. intros r Hr. unfold f.
      destruct (storage.hasGUID _ r); [discriminate|assumption].
  - split; simpl.
    + apply sorted_ids_snoc; assumption.
    + apply Forall_app. split.
      * eapply Forall_impl; [|exact Hb]. simpl. intros; lia.
      * repeat constructor. simpl. lia.
    + rewrite map_app. simpl.
      eapply Permutation_NoDup; [apply Permutation_cons_append|].
      constructor; [|assumption].
      intros Hin. apply existsb_guid_in in Hin. congruence.
    + apply Forall_app. split; [assumption|].
      repeat constructor. discriminate.
Qed.

Lemma wf_step analyzer f st item st' evs :
  ItemStep analyzer f st item st' evs -> wf st -> wf st'.
Proof. intros H Hw. destruct H; auto using wf_upsert. Qed.

Lemma wf_pollItems analyzer batch st :
  wf st -> wf (fst (service.pollItems analyzer batch st)).
Proof.
  revert st. induction batch as [|[item f] batch IH]; intros st Hw.
  - exact Hw.
  - rewrite pollItems_cons. simpl fst. apply IH.
    eapply wf_step; [apply processItem_step|exact Hw].
Qed.

Lemma wf_pollOnce analyzer c st :
  wf st -> wf (fst (service.pollOnce analyzer c st)).
Proof.
  intros Hw. unfold service.pollOnce.
  destruct (rss.Fetch _ _) as [items|]; [|exact Hw].
  pose proof (wf_pollItems analyzer (service.attach (service.fates c) 0 items)
                           st Hw) as H.
  now destruct (service.pollItems _ _ _).
Qed.

(** Every store the service reaches from the empty table is well
    formed. *)
Lemma wf_Run analyzer cycles st :
  wf st -> wf (fst (service.Run analyzer cycles st)).
Proof.
  revert st. induction cycles as [|c cycles IH]; intros st Hw.
  - exact Hw.
  - rewrite Run_cons. simpl fst. apply IH. now apply wf_pollOnce.
Qed.

(** [a] was inserted into the table before [b]. *)
Definition insertedBefore (st : storage.Store) (a b : storage.Row) : Prop :=
  exists l1 l2 l3, storage.rows st = l1 ++ a :: l2 ++ b :: l3.

(** [a] is listed before [b]: it was published later, or at the same
    time and inserted later. *)
Definition listedBefore (st : storage.Store) (a b : storage.Row) : Prop :=
  storage.PublishedAt (storage.scanRow b)
  < storage.PublishedAt (storage.scanRow a)
  \/ (storage.PublishedAt (storage.scanRow a)
      = storage.PublishedAt (storage.scanRow b)
      /\ insertedBefore st b a).

Lemma ids_inserted (l : list storage.Row) (a b : storage.Row) :
  StronglySorted (fun x y => storage.id x < storage.id y) l ->
  In a l -> In b l -> storage.id a < storage.id b ->
  exists l1 l2 l3, l = l1 ++ a :: l2 ++ b :: l3.
Proof.
  induction 1 as [|x l Hs IH Hx]; intros Ha Hb Hlt; [destruct Ha|].
  rewrite Forall_forall in Hx.
  destruct Ha as [->|Ha], Hb as [->|Hb].
  - lia.
  - apply in_split in Hb. destruct Hb as (l2 & l3 & ->).
    now exists [], l2, l3.
  - apply Hx in Ha. lia.
  - destruct (IH Ha Hb Hlt) as (l1 & l2 & l3 & ->).
    now exists (x :: l1), l2, l3.
Qed.

Lemma sorted_ids_NoDup (l : list storage.Row) :
  StronglySorted (fun x y => storage.id x < storage.id y) l ->
  NoDup (map storage.id l).
Proof.
  induction 1 as [|x l Hs IH Hx]; simpl; constructor; [|assumption].
  rewrite Forall_forall in Hx. intros Hin. apply in_map_iff in Hin.
  destruct Hin as (y & Hy & Hin). apply Hx in Hin. lia.
Qed.

Lemma filter_ids_NoDup (keep : storage.Row -> bool) (table : list storage.Row) :
  NoDup (map storage.id table) ->
  NoDup (map storage.id (filter keep table)).
Proof.
  induction table as [|x table IH]; simpl; intros H; [constructor|].
  inversion H as [|? ? Hnotin Hnd]; subst.
  destruct (keep x); simpl; [|now apply IH].
  constructor; [|now apply IH].
  intros Hin. apply Hnotin. apply in_map_iff in Hin.
  destruct Hin as (y & Hy & Hin). apply filter_In in Hin.
  apply in_map_iff. exists y. tauto.
Qed.

Lemma precedes_listed st (a b : storage.Row) :
  wf st -> In a (storage.rows st) -> In b (storage.rows st) ->
  precedesP a b -> listedBefore st a b.
Proof.
  intros [Hids _ _ Hp] Ha Hb H. rewrite Forall_forall in Hp.
  pose proof (Hp a Ha) as Hpa. pose proof (Hp b Hb) as Hpb.
  unfold precedesP, storage.pubKey in H. unfold listedBefore, storage.scanRow.
  simpl.
  destruct (storage.published_at a) as [ta|]; [|congruence].
  destruct (storage.published_at b) as [tb|]; [|congruence].
  simpl in H. destruct H as [H|[_ [H|[H1 H2]]]]; [lia|now left|].
  right. split; [assumption|]. now apply ids_inserted.
Qed.

(** C8. On a well-formed store, a query that does not fail and has a
    limit that is not negative returns a list; and whenever
    [ListRelevant] returns a list, it is the scan of rows [sel] such
    that [sel] followed by some [rest] lists exactly the rows with
    [relevant = 1], each before every row published earlier and, among
    rows published at the same time, before every row inserted earlier;
    the list is cut at the limit, all its items are relevant, and the
    /items handler answers with that list as it stands. *)
Theorem ListRelevant_order :
  forall (st : storage.Store) (limit : Z),
    wf st ->
    (0 <= limit ->
     exists items, storage.ListRelevant false st limit = Ok items)
    /\ (forall fail items,
          storage.ListRelevant fail st limit = Ok items ->
          exists sel rest,
            items = map storage.scanRow sel
            /\ service.itemsHandler fail st limit
               = service.Status200Items (Z.of_nat (length items)) items
            /\ Permutation (sel ++ rest)
                           (filter (fun r => storage.relevant r =? 1)
                                   (storage.rows st))
            /\ StronglySorted (listedBefore st) (sel ++ rest)
            /\ Z.of_nat (length items) <= limit
            /\ (rest <> [] -> Z.of_nat (length items) = limit)
            /\ Forall (fun i => storage.Relevant i = true) items).
Proof.
  intros st limit Hw. split.
  { intros Hl. unfold storage.ListRelevant. simpl.
    destruct (Z.ltb_spec limit 0); [lia|eauto]. }
  intros fail items HL.
  assert (Hl : 0 <= limit).
  { unfold storage.ListRelevant in HL.
    destruct fail; [discriminate|]. simpl in HL.
    destruct (Z.ltb_spec limit 0); [discriminate|assumption]. }
  set (full := storage.orderBy
                 (filter (fun r => storage.relevant r =? 1) (storage.rows st))).
  assert (Hitems : items = map storage.scanRow (firstn (Z.to_nat limit) full)).
  { unfold storage.ListRelevant in HL.
    destruct (fail || (limit <? 0)); [discriminate|].
    now injection HL as <-. }
  exists (firstn (Z.to_nat limit) full), (skipn (Z.to_nat limit) full).
  assert (Hperm : Permutation full
                    (filter (fun r => storage.relevant r =? 1)
                            (storage.rows st)))
    by apply orderBy_perm.
  assert (Hin : forall r, In r full ->
                          In r (storage.rows st)
                          /\ (storage.relevant r =? 1) = true).
  { intros r Hr.
    apply (filter_In (fun r => storage.relevant r =? 1) r (storage.rows st)).
    eapply Permutation_in; eauto. }
  split; [exact Hitems|]. split.
  { unfold service.itemsHandler. now rewrite HL. }
  split; [now rewrite firstn_skipn|]. split.
  { rewrite firstn_skipn.
    apply StronglySorted_in_impl with (R := precedesP).
    - intros a b Ha Hb. apply precedes_listed; auto; now apply Hin.
    - apply sorted_strict; [|apply orderBy_sorted].
      eapply Permutation_NoDup;
        [apply Permutation_map; symmetry; exact Hperm|].
      apply filter_ids_NoDup, sorted_ids_NoDup, Hw. }
  rewrite Hitems, length_map, length_firstn. split; [lia|]. split.
  { intros Hrest.
    destruct (Nat.le_gt_cases (length full) (Z.to_nat limit)) as [Hle|Hgt].
    - now rewrite skipn_all2 in Hrest.
    - lia. }
  rewrite Forall_map. apply Forall_forall. intros r Hr.
  simpl. apply Hin. rewrite <- (firstn_skipn (Z.to_nat limit) full).
  apply in_app_iff. now left.
Qed.

Lemma wf_storeTies : wf Sample.storeTies.
Proof.
  split; simpl.
  - repeat constructor; simpl; lia.
  - repeat constructor; simpl; lia.
  - repeat constructor; simpl; intuition discriminate.
  - repeat constructor; discriminate.
Qed.

Lemma ListRelevant_order_witness :
  (0 <= 2 ->
   exists items, storage.ListRelevant false Sample.storeTies 2 = Ok items)
  /\ (forall fail items,
        storage.ListRelevant fail Sample.storeTies 2 = Ok items ->
        exists sel rest,
          items = map storage.scanRow sel
          /\ service.itemsHandler fail Sample.storeTies 2
             = service.Status200Items (Z.of_nat (length items)) items
          /\ Permutation (sel ++ rest)
                         (filter (fun r => storage.relevant r =? 1)
                                 (storage.rows Sample.storeTies))
          /\ StronglySorted (listedBefore Sample.storeTies) (sel ++ rest)
          /\ Z.of_nat (length items) <= 2
          /\ (rest <> [] -> Z.of_nat (length items) = 2)
          /\ Forall (fun i => storage.Relevant i = true) items).
Proof.
  apply (ListRelevant_order Sample.storeTies 2 wf_storeTies).
Defined.

(** The table with the tie, listed: the row published last, then of the
    two rows published together the one inserted later. *)
Example ListRelevant_sample :
  match storage.ListRelevant false Sample.storeTies 50 with
  | Ok items => map storage.GUID items
  | Err => []
  end = [lit "g2"; lit "g3"; lit "g1"]
  /\ match storage.ListRelevant false Sample.storeTies 2 with
     | Ok items => map storage.GUID items
     | Err => []
     end = [lit "g2"; lit "g3"]
  /\ storage.ListRelevant false Sample.storeTies (-1) = Err
  /\ service.itemsHandler true Sample.storeTies 50 = service.Status500.
Proof. repeat split. Qed.

(** ** UTF-8: decoding what was encoded *)

Ltac dlia := Z.div_mod_to_equations; lia.

Lemma byteval_range (c : ascii) : 0 <= byteval c < 256.
Proof.
  unfold byteval. pose proof (N_ascii_bounded c). lia.
Qed.

Lemma byteval_mkbyte (z : Z) : 0 <= z < 256 -> byteval (mkbyte z) = z.
Proof.
  intros H. unfold byteval, mkbyte.
  rewrite N_ascii_embedding by lia. lia.
Qed.

(** Boolean tests in hypotheses, as propositions. *)
Ltac tests_to_props :=
  unfold ValidRune, isCont, isSurrogate, between, RuneSelf in *;
  repeat match goal with
         | H : (_ && _) = true |- _ => apply andb_true_iff in H; destruct H
         | H : (_ && _) = false |- _ => apply andb_false_iff in H; destruct H
         | H : (_ || _) = true |- _ => apply orb_true_iff in H; destruct H
         | H : (_ || _) = false |- _ => apply orb_false_iff in H; destruct H
         | H : negb _ = true |- _ => apply negb_true_iff in H
         | H : negb _ = false |- _ => apply negb_false_iff in H
         | H : (_ <=? _) = true |- _ => apply Z.leb_le in H
         | H : (_ <=? _) = false |- _ => apply Z.leb_gt in H
         | H : (_ <? _) = true |- _ => apply Z.ltb_lt in H
         | H : (_ <? _) = false |- _ => apply Z.ltb_ge in H
         | H : (_ =? _) = true |- _ => apply Z.eqb_eq in H
         | H : (_ =? _) = false |- _ => apply Z.eqb_neq in H
         end.

(** Boolean tests in the goal, decided by arithmetic. *)
Ltac decide_tests :=
  repeat first
    [ progress cbv iota
    | progress cbn [andb orb negb]
    | match goal with
      | |- context [?a <? ?b] =>
        first [ replace (a <? b) with true
                  by (symmetry; apply Z.ltb_lt; dlia)
              | replace (a <? b) with false
                  by (symmetry; apply Z.ltb_ge; dlia) ]
      | |- context [?a <=? ?b] =>
        first [ replace (a <=? b) with true
                  by (symmetry; apply Z.leb_le; dlia)
              | replace (a <=? b) with false
                  by (symmetry; apply Z.leb_gt; dlia) ]
      end
    | match goal with
      | |- context [?a =? ?b] => destruct (Z.eqb_spec a b)
      end ].

Lemma EncodeRune_length (r : rune) :
  (1 <= length (EncodeRune r) <= 4)%nat.
Proof.
  unfold EncodeRune.
  repeat match goal with
         | |- context [if ?b then _ else _] => destruct b
         end; simpl; lia.
Qed.

(** Decoding the encoding of a Unicode scalar value gives it back,
    whatever follows. *)
Lemma decode_encode (r : rune) (rest : bytes) :
  ValidRune r = true ->
  DecodeRuneInString (EncodeRune r ++ rest) = (r, length (EncodeRune r)).
Proof.
  intros Hv. unfold EncodeRune. rewrite Hv. cbn [negb].
  destruct (between 0 0x7F r) eqn:E1;
    [|destruct (between 0x80 0x7FF r) eqn:E2;
      [|destruct (r <=? 0xFFFF) eqn:E3]];
    tests_to_props; try lia; cbn [app length]; unfold DecodeRuneInString;
    rewrite ?byteval_mkbyte by dlia; cbv zeta;
    unfold isCont, between, RuneSelf;
    decide_tests; try reflexivity; f_equal; dlia.
Qed.

(** What [DecodeRuneInString] returns is a Unicode scalar value (U+FFFD
    for ill-formed input). *)
Lemma decode_valid (s : bytes) :
  ValidRune (fst (DecodeRuneInString s)) = true.
Proof.
  unfold DecodeRuneInString.
  destruct s as [|c0 t]; [reflexivity|].
  pose proof (byteval_range c0).
  cbv zeta.
  repeat match goal with
         | |- context [match ?l with [] => _ | _ :: _ => _ end] =>
           destruct l
         | |- context [if ?b then _ else _] => destruct b eqn:?
         | c : ascii |- _ =>
           lazymatch goal with
           | H : 0 <= byteval c < 256 |- _ => fail
           | _ => pose proof (byteval_range c)
           end
         end;
    try reflexivity; cbn [fst];
    tests_to_props;
    repeat match goal with
           | H : context [?a =? ?b] |- _ => destruct (Z.eqb_spec a b)
           end;
    try lia;
    (apply andb_true_iff; split;
     [apply andb_true_iff; split; apply Z.leb_le; lia
     |apply negb_true_iff, andb_false_iff;
      first [left; apply Z.leb_gt; lia | right; apply Z.leb_gt; lia]]).
Qed.

Lemma runesFrom_skipn (k : nat) (s : bytes) :
  runesFrom k s = runes (skipn k s).
Proof.
  revert k. induction s as [|c t IH]; intros k.
  - now destruct k.
  - destruct k as [|k]; [reflexivity|]. simpl. apply IH.
Qed.

Lemma runes_cons (c : ascii) (t : bytes) :
  runes (c :: t)
  = fst (DecodeRuneInString (c :: t))
    :: runes (skipn (snd (DecodeRuneInString (c :: t)) - 1) t).
Proof.
  unfold runes at 1. cbn [runesFrom].
  destruct (DecodeRuneInString (c :: t)) as [r n]. cbn [fst snd].
  now rewrite runesFrom_skipn.
Qed.

Lemma runes_valid (s : bytes) : Forall (fun r => ValidRune r = true) (runes s).
Proof.
  unfold runes. generalize 0%nat.
  induction s as [|c t IH]; intros k; cbn [runesFrom]; [constructor|].
  destruct k; [|apply IH].
  pose proof (decode_valid (c :: t)) as Hv.
  destruct (DecodeRuneInString (c :: t)) as [r n].
  constructor; [exact Hv|apply IH].
Qed.

Lemma runes_encode (r : rune) (rest : bytes) :
  ValidRune r = true -> runes (EncodeRune r ++ rest) = r :: runes rest.
Proof.
  intros Hv. pose proof (decode_encode r rest Hv) as Hd.
  pose proof (EncodeRune_length r) as Hl.
  destruct (EncodeRune r) as [|c e] eqn:E; [simpl in Hl; lia|].
  cbn [app] in *. rewrite runes_cons, Hd. cbn [fst snd length].
  f_equal. f_equal. rewrite Nat.sub_succ, Nat.sub_0_r.
  rewrite skipn_app, skipn_all, Nat.sub_diag. reflexivity.
Qed.

(** Decoding what [string(rs)] encodes gives [rs] back. *)
Lemma runes_stringOfRunes (rs : list rune) :
  Forall (fun r => ValidRune r = true) rs -> runes (stringOfRunes rs) = rs.
Proof.
  induction 1 as [|r rs Hr _ IH]; [reflexivity|].
  unfold stringOfRunes in *. cbn [flat_map].
  now rewrite runes_encode, IH.
Qed.

Lemma Forall_firstn {A} (P : A -> Prop) (n : nat) (l : list A) :
  Forall P l -> Forall P (firstn n l).
Proof.
  intros H. rewrite <- (firstn_skipn n l) in H.
  apply Forall_app in H. tauto.
Qed.

(** ** The summary budget (C7) *)

Lemma trimText_short (s : bytes) (max : Z) :
  Z.of_nat (length (runes s)) <= max -> analysis.trimText s max = s.
Proof.
  intros H. unfold analysis.trimText.
  now apply Z.leb_le in H as ->.
Qed.

Lemma trimText_long (s : bytes) (max : Z) :
  0 <= max -> max < Z.of_nat (length (runes s)) ->
  analysis.trimText s max
  = stringOfRunes (firstn (Z.to_nat max) (runes (TrimSpace s)))
  /\ runes (analysis.trimText s max)
     = firstn (Z.to_nat max) (runes (TrimSpace s)).
Proof.
  intros H0 H. unfold analysis.trimText.
  apply Z.leb_gt in H as ->.
  assert (E : (if Z.of_nat (length (runes (TrimSpace s))) <=? max
               then stringOfRunes (runes (TrimSpace s))
               else stringOfRunes
                      (firstn (Z.to_nat max) (runes (TrimSpace s))))
              = stringOfRunes (firstn (Z.to_nat max) (runes (TrimSpace s)))).
  { destruct (Z.leb_spec (Z.of_nat (length (runes (TrimSpace s)))) max);
      [|reflexivity].
    now rewrite firstn_all2 by lia. }
  rewrite E. split; [reflexivity|].
  apply runes_stringOfRunes, Forall_firstn, runes_valid.
Qed.

Lemma trimText_budget (s : bytes) (max : Z) :
  0 <= max -> Z.of_nat (length (runes (analysis.trimText s max))) <= max.
Proof.
  intros H0.
  destruct (Z.le_gt_cases (Z.of_nat (length (runes s))) max) as [H|H].
  - now rewrite trimText_short.
  - destruct (trimText_long s max H0) as [_ ->]; [lia|].
    rewrite length_firstn. lia.
Qed.

(** C7. For every byte string [s], the summary [trimText s 800] has at
    most 800 runes; a string of at most 800 runes is returned as it is;
    a longer one is cut after the first 800 runes of its trimmed text,
    re-encoded rune by rune, so that decoding the result yields exactly
    those runes and no encoded sequence is cut in two; and this is the
    summary of every request [Evaluate] sends to the model. *)
Theorem trimText_rune_budget :
  forall s : bytes,
    (length (runes (analysis.trimText s 800)) <= 800)%nat
    /\ ((length (runes s) <= 800)%nat -> analysis.trimText s 800 = s)
    /\ ((800 < length (runes s))%nat ->
        analysis.trimText s 800
        = stringOfRunes (firstn 800 (runes (TrimSpace s)))
        /\ runes (analysis.trimText s 800)
           = firstn 800 (runes (TrimSpace s)))
    /\ (forall analyzer chat item req,
          analysis.Summary item = s ->
          In req (fst (analysis.Evaluate analyzer chat item)) ->
          analysis.reqSummary req = analysis.trimText s 800).
Proof.
  intros s. repeat split.
  - pose proof (trimText_budget s 800). lia.
  - intros H. apply trimText_short. lia.
  - apply (trimText_long s 800); lia.
  - apply (trimText_long s 800); lia.
  - intros analyzer chat item req <- H. unfold analysis.Evaluate in H.
    destruct (analysis.Ready analyzer); simpl in H; [|contradiction].
    destruct chat as [|[|content0 contents]]; simpl in H;
      try (destruct H as [<-|[]]; reflexivity).
    destruct (analysis.Unmarshal _); simpl in H;
      destruct H as [<-|[]]; reflexivity.
Qed.

(** ** Trimming and replacing *)

Definition asciiGraphic (c : ascii) : Prop :=
  byteval c < RuneSelf /\ IsSpace (byteval c) = false.

Lemma TrimLeftSpace_graphic (c : ascii) (t : bytes) :
  asciiGraphic c -> TrimLeftSpace (c :: t) = c :: t.
Proof.
  intros [Hc Hs]. unfold TrimLeftSpace. cbn [trimLeftFrom].
  unfold DecodeRuneInString.
  apply Z.ltb_lt in Hc. now rewrite Hc, Hs.
Qed.

Lemma nth_snoc (t : bytes) (d : ascii) :
  nth (length t) (t ++ [d]) zero = d.
Proof. now rewrite app_nth2, Nat.sub_diag by lia. Qed.

Lemma DecodeLast_ascii (t : bytes) (d : ascii) :
  byteval d < RuneSelf ->
  DecodeLastRuneInString (t ++ [d]) = (byteval d, 1%nat).
Proof.
  intros Hd. unfold DecodeLastRuneInString.
  rewrite length_app. cbn [length].
  replace (Z.of_nat (length t + 1) =? 0) with false
    by (symmetry; apply Z.eqb_neq; lia).
  replace (Z.to_nat (Z.of_nat (length t + 1) - 1)) with (length t) by lia.
  rewrite nth_snoc. apply Z.ltb_lt in Hd. now rewrite Hd.
Qed.

Lemma trimRightFuel_snoc (n : nat) (t : bytes) (d : ascii) :
  trimRightFuel (S n) (t ++ [d])
  = let '(r, size) := DecodeLastRuneInString (t ++ [d]) in
    if IsSpace r
    then trimRightFuel n (firstn (length (t ++ [d]) - size) (t ++ [d]))
    else t ++ [d].
Proof.
  cbn [trimRightFuel]. destruct (t ++ [d]) eqn:E; [|reflexivity].
  now destruct t.
Qed.

Lemma TrimRightSpace_graphic (t : bytes) (d : ascii) :
  asciiGraphic d -> TrimRightSpace (t ++ [d]) = t ++ [d].
Proof.
  intros [Hd Hs]. unfold TrimRightSpace.
  rewrite length_app, Nat.add_1_r, trimRightFuel_snoc.
  now rewrite DecodeLast_ascii, Hs.
Qed.

Lemma TrimRightSpace_space (t : bytes) (w : ascii) :
  byteval w < RuneSelf -> IsSpace (byteval w) = true ->
  TrimRightSpace (t ++ [w]) = TrimRightSpace t.
Proof.
  intros Hw Hs. unfold TrimRightSpace.
  rewrite length_app, Nat.add_1_r, trimRightFuel_snoc.
  rewrite DecodeLast_ascii, Hs by assumption.
  rewrite length_app, Nat.add_sub. now rewrite firstn_app, firstn_all,
    Nat.sub_diag, app_nil_r.
Qed.

(** A string that starts and ends with a graphic ASCII byte is its own
    trimmed form. *)
Lemma TrimSpace_graphic (c d : ascii) (mid : bytes) :
  asciiGraphic c -> asciiGraphic d ->
  TrimSpace (c :: mid ++ [d]) = c :: mid ++ [d].
Proof.
  intros Hc Hd. unfold TrimSpace. rewrite TrimLeftSpace_graphic by assumption.
  now rewrite app_comm_cons, TrimRightSpace_graphic.
Qed.

Lemma TrimSpace_graphic_newline (c d : ascii) (mid : bytes) :
  asciiGraphic c -> asciiGraphic d ->
  TrimSpace (c :: mid ++ [d] ++ analysis.newline) = c :: mid ++ [d].
Proof.
  intros Hc Hd. unfold TrimSpace. rewrite TrimLeftSpace_graphic by assumption.
  unfold analysis.newline.
  replace (c :: mid ++ [d] ++ ["010"%char])
    with ((c :: mid ++ [d]) ++ ["010"%char])
    by (now rewrite <- !app_comm_cons, <- app_assoc).
  rewrite TrimRightSpace_space by (vm_compute; reflexivity).
  now rewrite app_comm_cons, TrimRightSpace_graphic.
Qed.

Lemma HasSuffix_app (s suffix : bytes) : HasSuffix (s ++ suffix) suffix = true.
Proof. unfold HasSuffix. rewrite rev_app_distr. apply HasPrefix_app. Qed.

Lemma TrimSuffix_app (s suffix : bytes) : TrimSuffix (s ++ suffix) suffix = s.
Proof.
  unfold TrimSuffix. rewrite HasSuffix_app, length_app, Nat.add_sub.
  now rewrite firstn_app, firstn_all, Nat.sub_diag, app_nil_r.
Qed.

Lemma HasPrefix_head_differs (c p : ascii) (t prefix : bytes) :
  c <> p -> HasPrefix (c :: t) (p :: prefix) = false.
Proof.
  intros H. simpl. apply Ascii.eqb_neq in H. now rewrite H.
Qed.

(** The first newline of a string whose first line has none before. *)
Lemma Index_newline (line rest : bytes) :
  ~ In "010"%char line ->
  Index (line ++ analysis.newline ++ rest) analysis.newline
  = Z.of_nat (length line).
Proof.
  unfold analysis.newline.
  induction line as [|c line IH]; intros Hn.
  - reflexivity.
  - rewrite <- app_comm_cons, Index_unfold.
    rewrite HasPrefix_head_differs by (intros ->; apply Hn; now left).
    rewrite IH by (intros H; apply Hn; now right). cbv zeta.
    destruct (Z.ltb_spec (Z.of_nat (length line)) 0);
      cbn [length]; lia.
Qed.

Lemma replaceFrom_skipn (k : nat) (s old new : bytes) :
  replaceFrom k s old new = ReplaceAll (skipn k s) old new.
Proof.
  revert k. induction s as [|c t IH]; intros k.
  - now destruct k.
  - destruct k as [|k]; [reflexivity|]. simpl. apply IH.
Qed.

Lemma ReplaceAll_cons (c : ascii) (t old new : bytes) :
  ReplaceAll (c :: t) old new
  = if HasPrefix (c :: t) old
    then new ++ ReplaceAll (skipn (length old - 1) t) old new
    else c :: ReplaceAll t old new.
Proof.
  unfold ReplaceAll at 1. cbn [replaceFrom].
  destruct (HasPrefix (c :: t) old); [|reflexivity].
  now rewrite replaceFrom_skipn.
Qed.

(** [ReplaceAll] at the first occurrence: what precedes it is kept, the
    occurrence is replaced, and the replacement goes on after it. *)
Lemma ReplaceAll_first (pre post old new : bytes) :
  old <> [] ->
  Index (pre ++ old ++ post) old = Z.of_nat (length pre) ->
  ReplaceAll (pre ++ old ++ post) old new
  = pre ++ new ++ ReplaceAll post old new.
Proof.
  intros Hold. induction pre as [|c pre IH]; intros Hi.
  - cbn [app]. destruct old as [|o old]; [congruence|].
    cbn [app]. rewrite ReplaceAll_cons.
    change (o :: old ++ post) with ((o :: old) ++ post).
    rewrite HasPrefix_app. cbn [length]. rewrite Nat.sub_succ, Nat.sub_0_r.
    now rewrite skipn_app, skipn_all, Nat.sub_diag.
  - cbn [app] in *. rewrite Index_unfold in Hi. rewrite ReplaceAll_cons.
    destruct (HasPrefix (c :: pre ++ old ++ post) old);
      [simpl length in Hi; lia|].
    cbv zeta in Hi.
    destruct (Z.ltb_spec (Index (pre ++ old ++ post) old) 0);
      [simpl length in Hi; lia|].
    f_equal. apply IH. simpl length in Hi. lia.
Qed.

(** Without an occurrence [ReplaceAll] changes nothing. *)
Lemma ReplaceAll_absent (s old new : bytes) :
  Index s old = -1 -> ReplaceAll s old new = s.
Proof.
  induction s as [|c t IH]; intros Hi; [reflexivity|].
  rewrite Index_unfold in Hi. rewrite ReplaceAll_cons.
  destruct (HasPrefix (c :: t) old); [lia|]. cbv zeta in Hi.
  f_equal. apply IH.
  destruct (Z.ltb_spec (Index t old) 0); [|lia].
  pose proof (Index_range t old). lia.
Qed.

(** ** Trimming runs to its end *)

Lemma scanBack_le (fuel : nat) (s : bytes) (start lim : Z) :
  scanBack fuel s start lim <= start.
Proof.
  revert start. induction fuel as [|fuel IH]; intros start; simpl; [lia|].
  destruct (start <? lim); [lia|].
  destruct (RuneStart _); [lia|].
  specialize (IH (start - 1)). lia.
Qed.

Lemma DecodeLast_size (s : bytes) :
  s <> [] -> (1 <= snd (DecodeLastRuneInString s) <= length s)%nat.
Proof.
  intros Hs. unfold DecodeLastRuneInString.
  assert (Hl : (1 <= length s)%nat)
    by (destruct s; [congruence|simpl; lia]).
  destruct (Z.eqb_spec (Z.of_nat (length s)) 0); [lia|].
  destruct (_ <? RuneSelf); [simpl; lia|].
  pose proof (scanBack_le UTFMax s (Z.of_nat (length s) - 1 - 1)
                (Z.max 0 (Z.of_nat (length s) - Z.of_nat UTFMax))) as Hb.
  set (start := Z.max 0 (scanBack _ _ _ _)) in *.
  destruct (DecodeRuneInString _) as [r size].
  destruct (Z.eqb_spec (start + Z.of_nat size) (Z.of_nat (length s)));
    simpl; lia.
Qed.

(** The fuel of [TrimRightSpace] is enough: what it returns is empty or
    ends with a rune that is not a space. *)
Lemma trimRightFuel_done (n : nat) (s : bytes) :
  (length s <= n)%nat ->
  trimRightFuel n s = []
  \/ IsSpace (fst (DecodeLastRuneInString (trimRightFuel n s))) = false.
Proof.
  revert s. induction n as [|n IH]; intros s Hn.
  - left. destruct s; [reflexivity|simpl in Hn; lia].
  - cbn [trimRightFuel]. destruct s as [|c t] eqn:Es; [now left|].
    rewrite <- Es in *.
    assert (Hne : s <> []) by (rewrite Es; discriminate).
    pose proof (DecodeLast_size s Hne) as Hsz.
    destruct (DecodeLastRuneInString s) as [r size] eqn:Ed.
    cbn [snd] in Hsz.
    destruct (IsSpace r) eqn:Er.
    + apply IH. rewrite length_firstn. lia.
    + right. now rewrite Ed.
Qed.

Lemma TrimRightSpace_done (s : bytes) :
  TrimRightSpace s = []
  \/ IsSpace (fst (DecodeLastRuneInString (TrimRightSpace s))) = false.
Proof. apply trimRightFuel_done. lia. Qed.

Lemma trimLeftFrom_done (k : nat) (s : bytes) :
  trimLeftFrom k s = []
  \/ IsSpace (fst (DecodeRuneInString (trimLeftFrom k s))) = false.
Proof.
  revert k. induction s as [|c t IH]; intros k; [now left|].
  cbn [trimLeftFrom]. destruct k as [|k]; [|apply IH].
  destruct (DecodeRuneInString (c :: t)) as [r n] eqn:Ed.
  destruct (IsSpace r) eqn:Er; [apply IH|].
  right. now rewrite Ed.
Qed.

(** ** The JSON reader never runs out of fuel *)

Definition shrinks {A} (p : bytes -> json.parsed A) : Prop :=
  forall s a r, p s = json.Parsed a r -> (length r < length s)%nat.

Definition totalUpTo {A} (p : bytes -> json.parsed A) (m : nat) : Prop :=
  forall s, (length s <= m)%nat -> p s <> json.OutOfFuel.

Lemma skipWS_length (s : bytes) : (length (json.skipWS s) <= length s)%nat.
Proof.
  induction s as [|c t IH]; simpl; [lia|].
  destruct (json.isWS c); simpl; lia.
Qed.

Lemma skipWS_cons_length (s : bytes) c t :
  json.skipWS s = c :: t -> (length t < length s)%nat.
Proof.
  intros H. pose proof (skipWS_length s) as Hl. rewrite H in Hl.
  simpl in Hl. lia.
Qed.

Lemma unquoteFrom_shrinks k s acc a r :
  json.unquoteFrom k s acc = json.Parsed a r -> (length r < length s)%nat.
Proof.
  revert k acc. induction s as [|c t IH]; intros k acc H; [discriminate|].
  cbn [json.unquoteFrom] in H. cbn [length].
  destruct k as [|k]; [|apply IH in H; lia].
  repeat match type of H with
         | (if ?b then _ else _) = _ => destruct b
         | match ?x with _ => _ end = _ => destruct x
         | json.Parsed _ _ = json.Parsed _ _ => injection H as <- <-
         | json.SyntaxError = _ => discriminate H
         | json.unquoteFrom _ _ _ = _ => apply IH in H
         end; simpl in *; lia.
Qed.

Lemma unquoteFrom_fuel k s acc : json.unquoteFrom k s acc <> json.OutOfFuel.
Proof.
  revert k acc. induction s as [|c t IH]; intros k acc; [discriminate|].
  cbn [json.unquoteFrom].
  destruct k as [|k]; [|apply IH].
  repeat match goal with
         | |- (if ?b then _ else _) <> _ => destruct b
         | |- match ?x with _ => _ end <> _ => destruct x
         end; try discriminate; apply IH.
Qed.

Lemma spanDigits_length (s : bytes) :
  (length (snd (json.spanDigits s)) <= length s)%nat.
Proof.
  induction s as [|c t IH]; simpl; [lia|].
  destruct (json.isDigit c); [|simpl; lia].
  destruct (json.spanDigits t). simpl in *. lia.
Qed.

Lemma parseDigits1_length s d r :
  json.parseDigits1 s = Some (d, r) -> (length r <= length s)%nat.
Proof.
  unfold json.parseDigits1. pose proof (spanDigits_length s) as H.
  destruct (json.spanDigits s) as [[|x d'] r']; [discriminate|].
  intros E. injection E as <- <-. exact H.
Qed.

Lemma parseNumber_shrinks : shrinks json.parseNumber.
Proof.
  intros s a r H. unfold json.parseNumber in H.
  destruct (match s with
            | [] => ([], s)
            | c :: t => if byteval c =? 45 then ([c], t) else ([], s)
            end) as [neg s1] eqn:E1.
  assert (H1 : (length s1 <= length s)%nat).
  { destruct s as [|c t]; [injection E1 as <- <-; lia|].
    destruct (byteval c =? 45); injection E1 as <- <-; simpl; lia. }
  destruct (json.parseInt s1) as [[i s2]|] eqn:E2; [|discriminate].
  assert (H2 : (length s2 < length s1)%nat).
  { unfold json.parseInt in E2. destruct s1 as [|c t]; [discriminate|].
    destruct (byteval c =? 48); [injection E2 as <- <-; simpl; lia|].
    destruct (between 49 57 (byteval c)); [|discriminate].
    pose proof (spanDigits_length t) as Hs.
    destruct (json.spanDigits t) as [d r']. injection E2 as <- <-.
    simpl in *. lia. }
  destruct (json.parseFrac s2) as [[f s3]|] eqn:E3; [|discriminate].
  assert (H3 : (length s3 <= length s2)%nat).
  { unfold json.parseFrac in E3. destruct s2 as [|c t].
    - injection E3 as <- <-. lia.
    - destruct (byteval c =? 46); [|injection E3 as <- <-; lia].
      destruct (json.parseDigits1 t) as [[d r']|] eqn:Ed; [|discriminate].
      injection E3 as <- <-. apply parseDigits1_length in Ed. simpl. lia. }
  destruct (json.parseExp s3) as [[e s4]|] eqn:E4; [|discriminate].
  assert (H4 : (length s4 <= length s3)%nat).
  { unfold json.parseExp in E4. destruct s3 as [|c t].
    - injection E4 as <- <-. lia.
    - destruct ((byteval c =? 101) || (byteval c =? 69));
        [|injection E4 as <- <-; lia].
      destruct (match t with
                | [] => ([], t)
                | g :: t' => if (byteval g =? 43) || (byteval g =? 45)
                             then ([g], t') else ([], t)
                end) as [sign t1] eqn:Es.
      assert (Ht : (length t1 <= length t)%nat).
      { destruct t as [|g t']; [injection Es as <- <-; lia|].
        destruct ((byteval g =? 43) || (byteval g =? 45));
          injection Es as <- <-; simpl; lia. }
      destruct (json.parseDigits1 t1) as [[d r']|] eqn:Ed; [|discriminate].
      injection E4 as <- <-. apply parseDigits1_length in Ed. simpl. lia. }
  injection H as <- <-. lia.
Qed.

Lemma parseNumber_fuel s : json.parseNumber s <> json.OutOfFuel.
Proof.
  unfold json.parseNumber.
  repeat match goal with
         | |- (let '(_, _) := ?x in _) <> _ => destruct x
         | |- match ?x with _ => _ end <> _ => destruct x
         end; discriminate.
Qed.

Lemma parseLiteral_shrinks word v :
  word <> [] -> shrinks (json.parseLiteral word v).
Proof.
  intros Hw s a r H. unfold json.parseLiteral in H.
  destruct (HasPrefix s word) eqn:E; [|discriminate].
  injection H as <- <-. apply HasPrefix_split in E.
  rewrite E at 2. rewrite length_app.
  destruct word; [congruence|]. simpl length. lia.
Qed.

Lemma parseLiteral_fuel word v s : json.parseLiteral word v s <> json.OutOfFuel.
Proof. unfold json.parseLiteral. destruct (HasPrefix s word); discriminate. Qed.

Lemma parseElems_shrinks pv n acc :
  shrinks pv -> shrinks (fun s => json.parseElems pv n s acc).
Proof.
  intros Hpv. revert acc. induction n as [|n IH]; intros acc s a r H;
    [discriminate|].
  cbn [json.parseElems] in H.
  destruct (pv s) as [| |v r1] eqn:Ev; try discriminate.
  apply Hpv in Ev.
  destruct (json.skipWS r1) as [|c r'] eqn:Ew; [discriminate|].
  apply skipWS_cons_length in Ew.
  destruct (byteval c =? 44); [apply IH in H; lia|].
  destruct (byteval c =? 93); [|discriminate].
  injection H as <- <-. lia.
Qed.

Lemma parseElems_fuel pv m :
  shrinks pv -> totalUpTo pv m ->
  forall n s acc,
    (length s <= m)%nat -> (length s < n)%nat ->
    json.parseElems pv n s acc <> json.OutOfFuel.
Proof.
  intros Hpv Ht. induction n as [|n IH]; intros s acc Hm Hn; [lia|].
  cbn [json.parseElems].
  destruct (pv s) as [| |v r1] eqn:Ev; try discriminate.
  - now apply Ht in Ev.
  - apply Hpv in Ev.
    destruct (json.skipWS r1) as [|c r'] eqn:Ew; [discriminate|].
    apply skipWS_cons_length in Ew.
    destruct (byteval c =? 44); [apply IH; lia|].
    destruct (byteval c =? 93); discriminate.
Qed.

Lemma parseMembers_shrinks pv n acc :
  shrinks pv -> shrinks (fun s => json.parseMembers pv n s acc).
Proof.
  intros Hpv. revert acc. induction n as [|n IH]; intros acc s a r H;
    [discriminate|].
  cbn [json.parseMembers] in H.
  destruct (json.skipWS s) as [|q s1] eqn:E0; [discriminate|].
  apply skipWS_cons_length in E0.
  destruct (byteval q =? 34); [|discriminate].
  destruct (json.unquote s1) as [| |k s2] eqn:Eq; try discriminate.
  apply unquoteFrom_shrinks in Eq.
  destruct (json.skipWS s2) as [|colon s3] eqn:E2; [discriminate|].
  apply skipWS_cons_length in E2.
  destruct (byteval colon =? 58); [|discriminate].
  destruct (pv s3) as [| |v r1] eqn:Ev; try discriminate.
  apply Hpv in Ev.
  destruct (json.skipWS r1) as [|c r'] eqn:Ew; [discriminate|].
  apply skipWS_cons_length in Ew.
  destruct (byteval c =? 44); [apply IH in H; lia|].
  destruct (byteval c =? 125); [|discriminate].
  injection H as <- <-. lia.
Qed.

Lemma parseMembers_fuel pv m :
  shrinks pv -> totalUpTo pv m ->
  forall n s acc,
    (length s <= m)%nat -> (length s < n)%nat ->
    json.parseMembers pv n s acc <> json.OutOfFuel.
Proof.
  intros Hpv Ht. induction n as [|n IH]; intros s acc Hm Hn; [lia|].
  cbn [json.parseMembers].
  destruct (json.skipWS s) as [|q s1] eqn:E0; [discriminate|].
  apply skipWS_cons_length in E0.
  destruct (byteval q =? 34); [|discriminate].
  destruct (json.unquote s1) as [| |k s2] eqn:Eq; try discriminate.
  apply unquoteFrom_shrinks in Eq.
  destruct (json.skipWS s2) as [|colon s3] eqn:E2; [discriminate|].
  apply skipWS_cons_length in E2.
  destruct (byteval colon =? 58); [|discriminate].
  destruct (pv s3) as [| |v r1] eqn:Ev; try discriminate.
  - apply Ht in Ev; [contradiction|lia].
  - apply Hpv in Ev.
    destruct (json.skipWS r1) as [|c r'] eqn:Ew; [discriminate|].
    apply skipWS_cons_length in Ew.
    destruct (byteval c =? 44); [apply IH; lia|].
    destruct (byteval c =? 125); discriminate.
Qed.

Lemma parseValue_shrinks (fuel : nat) : shrinks (json.parseValue fuel).
Proof.
  induction fuel as [|f IH]; intros s a r H; [discriminate|].
  cbn [json.parseValue] in H.
  destruct (json.skipWS s) as [|c t] eqn:E0; [discriminate|].
  pose proof (skipWS_length s) as Hs. rewrite E0 in Hs.
  cbn [length] in Hs. cbv zeta in H.
  destruct (byteval c =? 123).
  { destruct (json.skipWS t) as [|c' t'] eqn:E1; [discriminate|].
    apply skipWS_cons_length in E1.
    destruct (byteval c' =? 125); [injection H as <- <-; lia|].
    destruct (json.parseMembers (json.parseValue f) f t []) as [| |m r1] eqn:Em;
      try discriminate.
    injection H as <- <-.
    apply (parseMembers_shrinks _ _ _ IH) in Em. lia. }
  destruct (byteval c =? 91).
  { destruct (json.skipWS t) as [|c' t'] eqn:E1; [discriminate|].
    apply skipWS_cons_length in E1.
    destruct (byteval c' =? 93); [injection H as <- <-; lia|].
    destruct (json.parseElems (json.parseValue f) f t []) as [| |l r1] eqn:Em;
      try discriminate.
    injection H as <- <-.
    apply (parseElems_shrinks _ _ _ IH) in Em. lia. }
  destruct (byteval c =? 34).
  { destruct (json.unquote t) as [| |str r1] eqn:Eq; try discriminate.
    injection H as <- <-. apply unquoteFrom_shrinks in Eq. lia. }
  destruct (byteval c =? 116);
    [apply parseLiteral_shrinks in H; [simpl in H; lia|discriminate]|].
  destruct (byteval c =? 102);
    [apply parseLiteral_shrinks in H; [simpl in H; lia|discriminate]|].
  destruct (byteval c =? 110);
    [apply parseLiteral_shrinks in H; [simpl in H; lia|discriminate]|].
  destruct ((byteval c =? 45) || between 48 57 (byteval c)); [|discriminate].
  destruct (json.parseNumber (c :: t)) as [| |raw r1] eqn:En; try discriminate.
  injection H as <- <-. apply parseNumber_shrinks in En. simpl in En. lia.
Qed.

Lemma parseValue_fuel (fuel : nat) :
  totalUpTo (json.parseValue (S fuel)) fuel.
Proof.
  induction fuel as [|f IH]; intros s Hs.
  - destruct s; [discriminate|simpl in Hs; lia].
  - cbn [json.parseValue].
    destruct (json.skipWS s) as [|c t] eqn:E0; [discriminate|].
    pose proof (skipWS_length s) as Hl. rewrite E0 in Hl.
    cbn [length] in Hl. cbv zeta.
    destruct (byteval c =? 123).
    { destruct (json.skipWS t) as [|c' t'] eqn:E1; [discriminate|].
      destruct (byteval c' =? 125); [discriminate|].
      pose proof (parseMembers_fuel _ f (parseValue_shrinks (S f)) IH
                                    (S f) t []) as Hm.
      destruct (json.parseMembers _ _ t []); try discriminate.
      intros _. apply Hm; [lia|lia|reflexivity]. }
    destruct (byteval c =? 91).
    { destruct (json.skipWS t) as [|c' t'] eqn:E1; [discriminate|].
      destruct (byteval c' =? 93); [discriminate|].
      pose proof (parseElems_fuel _ f (parseValue_shrinks (S f)) IH
                                  (S f) t []) as Hm.
      destruct (json.parseElems _ _ t []); try discriminate.
      intros _. apply Hm; [lia|lia|reflexivity]. }
    destruct (byteval c =? 34).
    { pose proof (unquoteFrom_fuel 0 t []) as Hq. unfold json.unquote.
      destruct (json.unquoteFrom 0 t []); try discriminate. congruence. }
    destruct (byteval c =? 116); [apply parseLiteral_fuel|].
    destruct (byteval c =? 102); [apply parseLiteral_fuel|].
    destruct (byteval c =? 110); [apply parseLiteral_fuel|].
    destruct ((byteval c =? 45) || between 48 57 (byteval c)); [|discriminate].
    pose proof (parseNumber_fuel (c :: t)) as Hn.
    destruct (json.parseNumber (c :: t)); try discriminate. congruence.
Qed.

(** The fuel [parse] gives to the reader is enough: when [parse]
    returns [None] the text is not a JSON text. *)
Lemma parse_fuel (s : bytes) :
  json.parseValue (S (length s)) s <> json.OutOfFuel.
Proof. apply parseValue_fuel. lia. Qed.

(** ** Normalization of the model's answer (C6) *)

Lemma graphic_backtick : asciiGraphic "`"%char.
Proof. split; vm_compute; reflexivity. Qed.

Lemma graphic_lbrace : asciiGraphic "{"%char.
Proof. split; vm_compute; reflexivity. Qed.

Lemma graphic_rbrace : asciiGraphic "}"%char.
Proof. split; vm_compute; reflexivity. Qed.

Lemma TrimSpace_fenced (x : bytes) :
  TrimSpace (analysis.fence ++ x ++ analysis.fence)
  = analysis.fence ++ x ++ analysis.fence.
Proof.
  replace (analysis.fence ++ x ++ analysis.fence)
    with ("`"%char :: (lit "``" ++ x ++ lit "``") ++ ["`"%char]).
  - apply TrimSpace_graphic; apply graphic_backtick.
  - unfold analysis.fence. cbn [lit list_ascii_of_string app].
    now rewrite <- app_assoc.
Qed.

(** A fenced object: an opening fence with an optional language tag on
    a line of its own, the object, a closing fence on a line of its
    own. *)
Definition fencedObject (lang mid : bytes) : bytes :=
  analysis.fence ++ lang ++ analysis.newline
  ++ (lit "{" ++ mid ++ lit "}") ++ analysis.newline ++ analysis.fence.

Lemma cleanupResponse_fenced (lang mid : bytes) :
  ~ In "010"%char lang ->
  analysis.cleanupResponse (fencedObject lang mid)
  = ReplaceAll (lit "{" ++ mid ++ lit "}")
               analysis.nullCategory analysis.emptyCategory.
Proof.
  intros Hlang. unfold analysis.cleanupResponse, fencedObject.
  set (body := lit "{" ++ mid ++ lit "}").
  assert (Hbody : body = "{"%char :: mid ++ ["}"%char]) by reflexivity.
  assert (Hs : analysis.fence ++ lang ++ analysis.newline ++ body
                 ++ analysis.newline ++ analysis.fence
               = analysis.fence
                   ++ (lang ++ analysis.newline ++ body ++ analysis.newline)
                   ++ analysis.fence)
    by (now rewrite <- !app_assoc).
  rewrite Hs, TrimSpace_fenced, HasPrefix_app, <- Hs. clear Hs.
  assert (Hidx : Index (analysis.fence ++ lang ++ analysis.newline ++ body
                          ++ analysis.newline ++ analysis.fence)
                       analysis.newline
                 = Z.of_nat (length (analysis.fence ++ lang))).
  { rewrite (app_assoc analysis.fence). apply Index_newline.
    intros H. apply in_app_iff in H. destruct H as [H|H]; [|auto].
    vm_compute in H. intuition discriminate. }
  rewrite Hidx.
  replace (Z.of_nat (length (analysis.fence ++ lang)) =? -1) with false
    by (symmetry; apply Z.eqb_neq; lia).
  cbn [negb].
  replace (Z.to_nat (Z.of_nat (length (analysis.fence ++ lang)) + 1))
    with (length ((analysis.fence ++ lang) ++ analysis.newline))
    by (rewrite (length_app (_ ++ _)); simpl length; lia).
  replace (analysis.fence ++ lang ++ analysis.newline ++ body
             ++ analysis.newline ++ analysis.fence)
    with (((analysis.fence ++ lang) ++ analysis.newline)
            ++ body ++ analysis.newline ++ analysis.fence)
    by (now rewrite <- !app_assoc).
  rewrite skipn_app, skipn_all, Nat.sub_diag. cbn [skipn app].
  assert (Hkeep : forall prefix,
             TrimPrefix (body ++ analysis.newline ++ analysis.fence)
                        ("`"%char :: prefix)
             = body ++ analysis.newline ++ analysis.fence).
  { intros prefix. unfold TrimPrefix. rewrite Hbody, <- app_comm_cons.
    now rewrite HasPrefix_head_differs by discriminate. }
  change analysis.fenceJson with ("`"%char :: lit "``json").
  rewrite Hkeep.
  change analysis.fence with ("`"%char :: lit "``") at 2.
  rewrite Hkeep.
  rewrite (app_assoc body), TrimSuffix_app.
  rewrite Hbody, <- app_comm_cons, <- app_assoc.
  apply f_equal3; try reflexivity.
  apply TrimSpace_graphic_newline;
    [apply graphic_lbrace | apply graphic_rbrace].
Qed.

(** The members of a verdict whose category is a JSON null. *)
Definition nullCategoryVerdict (b : bool) : bytes :=
  jlit "'relevant': " ++ (if b then lit "true" else lit "false")
  ++ jlit ", 'category': null, 'reason': 'routine listing', 'tags': ['X']".

Definition emptyCategoryVerdict (b : bool) : bytes :=
  jlit "'relevant': " ++ (if b then lit "true" else lit "false")
  ++ jlit ", 'category': '', 'reason': 'routine listing', 'tags': ['X']".

Lemma Unmarshal_emptyCategoryVerdict (b : bool) :
  analysis.Unmarshal (lit "{" ++ emptyCategoryVerdict b ++ lit "}")
  = Ok {| analysis.Relevant := b;
               analysis.Category := [];
               analysis.Reason := lit "routine listing";
               analysis.Tags := Some [lit "X"] |}.
Proof. destruct b; vm_compute; reflexivity. Qed.

Lemma ReplaceAll_nullCategoryVerdict (b : bool) :
  ReplaceAll (lit "{" ++ nullCategoryVerdict b ++ lit "}")
             analysis.nullCategory analysis.emptyCategory
  = lit "{" ++ emptyCategoryVerdict b ++ lit "}".
Proof. destruct b; vm_compute; reflexivity. Qed.

(** C6. [cleanupResponse] takes the fences off a fenced object before
    it is parsed (an opening fence with or without a language tag, the
    object, a closing fence) and replaces the first and every further
    occurrence of a null category by an empty string; so a fenced
    answer whose category is null is evaluated to a verdict, with the
    empty string as its category, not to an error. *)
Theorem cleanupResponse_fenced_null_category :
  (forall lang mid : bytes,
      ~ In "010"%char lang ->
      analysis.cleanupResponse (fencedObject lang mid)
      = ReplaceAll (lit "{" ++ mid ++ lit "}")
                   analysis.nullCategory analysis.emptyCategory)
  /\ (forall pre post : bytes,
        Index (pre ++ analysis.nullCategory ++ post) analysis.nullCategory
        = Z.of_nat (length pre) ->
        ReplaceAll (pre ++ analysis.nullCategory ++ post)
                   analysis.nullCategory analysis.emptyCategory
        = pre ++ analysis.emptyCategory
              ++ ReplaceAll post analysis.nullCategory analysis.emptyCategory)
  /\ (forall (c : analysis.Client) (lang : bytes) (b : bool)
             (item : analysis.ItemContext),
        analysis.Ready c = true ->
        ~ In "010"%char lang ->
        analysis.cleanupResponse (fencedObject lang (nullCategoryVerdict b))
        = lit "{" ++ emptyCategoryVerdict b ++ lit "}"
        /\ analysis.Evaluate
             c
             (analysis.ChatChoices [fencedObject lang (nullCategoryVerdict b)])
             item
           = ([analysis.userPrompt item],
              analysis.Done {| analysis.Relevant := b;
                               analysis.Category := [];
                               analysis.Reason := lit "routine listing";
                               analysis.Tags := Some [lit "X"] |})).
Proof.
  split; [exact cleanupResponse_fenced|]. split.
  - intros pre post. apply ReplaceAll_first. discriminate.
  - intros c lang b item Hready Hlang.
    assert (Hc : analysis.cleanupResponse
                   (fencedObject lang (nullCategoryVerdict b))
                 = lit "{" ++ emptyCategoryVerdict b ++ lit "}")
      by (rewrite cleanupResponse_fenced by assumption;
          apply ReplaceAll_nullCategoryVerdict).
    split; [exact Hc|].
    unfold analysis.Evaluate. rewrite Hready. cbn [negb].
    now rewrite Hc, Unmarshal_emptyCategoryVerdict.
Qed.

(** The sample answers: a fenced verdict with a null category is a
    verdict with an empty category; a null category written without the
    space is no error either; prose is an error, not a verdict. *)
Example Evaluate_samples :
  analysis.Evaluate Sample.analyzer
                    (analysis.ChatChoices [Sample.answerNullCategory])
                    (service.itemContext Sample.itemB)
  = ([analysis.userPrompt (service.itemContext Sample.itemB)],
     analysis.Done {| analysis.Relevant := false;
                      analysis.Category := [];
                      analysis.Reason := lit "routine listing";
                      analysis.Tags := Some [] |})
  /\ analysis.Unmarshal (jlit "{'relevant': true, 'category':null}")
     = Ok {| analysis.Relevant := true;
                  analysis.Category := [];
                  analysis.Reason := [];
                  analysis.Tags := None |}
  /\ snd (analysis.Evaluate Sample.analyzer
                            (analysis.ChatChoices [Sample.answerProse])
                            (service.itemContext Sample.itemB))
     = analysis.Failed analysis.errParse
  /\ snd (analysis.Evaluate Sample.disabled
                            (analysis.ChatChoices [Sample.answerRelevant])
                            (service.itemContext Sample.itemB))
     = analysis.Failed analysis.errDisabled.
Proof. repeat split; vm_compute; reflexivity. Qed.

(** A cut that would fall inside a multi-byte sequence: the budget
    counts runes, and the result holds whole runes only. *)
Example trimText_sample :
  analysis.trimText (lit "é世界 and more") 2 = lit "é世"
  /\ length (lit "é世") = 5%nat
  /\ runes (lit "é世") = [0xE9; 0x4E16].
Proof. repeat split. Qed.

(* ================================================================== *)
(** * Further properties of the code                                   *)
(* ================================================================== *)

(** ** Configuration *)

Lemma nonEmpty_false (s : bytes) : config.nonEmpty s = false <-> s = [].
Proof. destruct s; simpl; split; congruence. Qed.

Lemma digits_rejects (s : bytes) (n : Z) (c : ascii) :
  In c s -> between 0 9 (byteval c - 0x30) = false ->
  strconv.digits s n = None.
Proof.
  revert n. induction s as [|x s IH]; intros n Hin Hc; [destruct Hin|].
  cbn [strconv.digits]. cbv zeta.
  destruct Hin as [->|Hin]; [now rewrite Hc|].
  destruct (between 0 9 (byteval x - 0x30)); [now apply IH|reflexivity].
Qed.

(** A character that is neither a decimal digit nor a sign. *)
Definition notNumeric (c : ascii) : Prop :=
  between 0 9 (byteval c - 0x30) = false
  /\ byteval c <> 0x2D /\ byteval c <> 0x2B.

Lemma unsigned_rejects (neg : bool) (body : bytes) (c : ascii) :
  In c body -> between 0 9 (byteval c - 0x30) = false ->
  strconv.unsigned neg body = None.
Proof.
  intros Hin Hd. unfold strconv.unsigned.
  destruct body; [reflexivity|]. now rewrite (digits_rejects _ 0 c Hin Hd).
Qed.

Lemma Atoi_rejects (v : bytes) (c : ascii) :
  In c v -> notNumeric c -> strconv.Atoi v = None.
Proof.
  intros Hin (Hd & Hm & Hp). unfold strconv.Atoi.
  destruct v as [|x t]; [reflexivity|].
  destruct (Z.eqb_spec (byteval x) 0x2D) as [E1|E1];
    [|destruct (Z.eqb_spec (byteval x) 0x2B) as [E2|E2]].
  - destruct Hin as [->|Hin]; [contradiction|].
    now apply unsigned_rejects with c.
  - destruct Hin as [->|Hin]; [contradiction|].
    now apply unsigned_rejects with c.
  - now apply unsigned_rejects with c.
Qed.

Lemma unsigned_range (neg : bool) (body : bytes) (n : Z) :
  strconv.unsigned neg body = Some n -> strconv.minInt <= n <= strconv.maxInt.
Proof.
  unfold strconv.unsigned. destruct body; [discriminate|].
  destruct (strconv.digits _ _); [|discriminate]. cbv zeta.
  destruct (_ && _) eqn:E; [|discriminate].
  intros [= <-]. apply andb_true_iff in E. destruct E as [E1 E2].
  apply Z.leb_le in E1, E2. lia.
Qed.

Lemma Atoi_range (v : bytes) (n : Z) :
  strconv.Atoi v = Some n -> strconv.minInt <= n <= strconv.maxInt.
Proof.
  unfold strconv.Atoi. destruct v as [|x t]; [discriminate|].
  destruct (_ =? _); [apply unsigned_range|].
  destruct (_ =? _); apply unsigned_range.
Qed.

Lemma intWithDefault_cases (env : os.Environ) (key : bytes) (fallback : Z) :
  (config.intWithDefault env key fallback = fallback)
  \/ (0 < config.intWithDefault env key fallback
      /\ strconv.Atoi (os.Getenv env key)
         = Some (config.intWithDefault env key fallback)).
Proof.
  unfold config.intWithDefault. cbv zeta.
  destruct (config.nonEmpty _); [|now left].
  destruct (strconv.Atoi _) as [n|]; [|now left].
  destruct (Z.ltb_spec 0 n); [right|left]; auto.
Qed.

Lemma intWithDefault_positive (env : os.Environ) (key : bytes) (fallback : Z) :
  0 < fallback -> 0 < config.intWithDefault env key fallback.
Proof.
  intros H. destruct (intWithDefault_cases env key fallback) as [->|[H1 _]];
    assumption.
Qed.

Lemma stringWithDefault_nonempty (env : os.Environ) (key fallback : bytes) :
  fallback <> [] -> config.stringWithDefault env key fallback <> [].
Proof.
  intros H. unfold config.stringWithDefault. cbv zeta.
  destruct (os.Getenv env key); simpl; [assumption|discriminate].
Qed.

(** X1. [intWithDefault] returns a positive value whenever the fallback
    is positive.  It returns the fallback when the variable is unset or
    empty, when its value holds a character that is neither a digit nor
    a sign (so no value is read in part), and when the value parses to
    zero or to a negative number; it returns the parsed number exactly
    when that number is positive. *)
Theorem intWithDefault_positive_or_default :
  forall (env : os.Environ) (key : bytes) (fallback : Z),
    (0 < fallback -> 0 < config.intWithDefault env key fallback)
    /\ (os.Getenv env key = [] ->
        config.intWithDefault env key fallback = fallback)
    /\ (forall c, In c (os.Getenv env key) -> notNumeric c ->
                  config.intWithDefault env key fallback = fallback)
    /\ (forall n, strconv.Atoi (os.Getenv env key) = Some n -> n <= 0 ->
                  config.intWithDefault env key fallback = fallback)
    /\ (forall n, strconv.Atoi (os.Getenv env key) = Some n -> 0 < n ->
                  config.intWithDefault env key fallback = n).
Proof.
  intros env key fallback. repeat split.
  - intros H. now apply intWithDefault_positive.
  - intros H. unfold config.intWithDefault. now rewrite H.
  - intros c Hin Hc. unfold config.intWithDefault. cbv zeta.
    rewrite (Atoi_rejects _ c Hin Hc). now destruct (config.nonEmpty _).
  - intros n Hn Hle. unfold config.intWithDefault. cbv zeta. rewrite Hn.
    destruct (config.nonEmpty _); [|reflexivity].
    destruct (Z.ltb_spec 0 n); [lia|reflexivity].
  - intros n Hn Hlt. unfold config.intWithDefault. cbv zeta. rewrite Hn.
    destruct (os.Getenv env key) eqn:E; [discriminate|]. simpl.
    destruct (Z.ltb_spec 0 n); [reflexivity|lia].
Qed.

(** X2. When the variable parses to a positive number of minutes,
    [durationFromMinutes] returns that many minutes in nanoseconds as
    long as the number is at most 153722867; from 153722868 up to
    307445734 minutes the 64-bit product wraps around and the duration
    returned is negative. *)
Theorem durationFromMinutes_overflow :
  forall (env : os.Environ) (key : bytes) (fallback minutes : Z),
    strconv.Atoi (os.Getenv env key) = Some minutes ->
    0 < minutes ->
    (minutes <= 153722867 ->
     config.durationFromMinutes env key fallback = minutes * config.Minute
     /\ 0 < config.durationFromMinutes env key fallback)
    /\ (153722867 < minutes <= 307445734 ->
        config.durationFromMinutes env key fallback < 0).
Proof.
  intros env key fallback minutes Hn Hpos.
  assert (E : config.durationFromMinutes env key fallback
              = config.int64 (minutes * config.Minute)).
  { unfold config.durationFromMinutes. cbv zeta. rewrite Hn.
    destruct (os.Getenv env key); [discriminate|]. simpl.
    destruct (Z.ltb_spec 0 minutes); [reflexivity|lia]. }
  rewrite E. unfold config.int64, config.Minute. split; intros H.
  - rewrite Z.mod_small by lia. lia.
  - replace ((minutes * (60 * 1000000000) + 2 ^ 63) mod 2 ^ 64)
      with (minutes * (60 * 1000000000) + 2 ^ 63 - 2 ^ 64).
    + lia.
    + apply Z.mod_unique with 1; lia.
Qed.

Lemma durationFromMinutes_overflow_witness :
  (30 <= 153722867 ->
   config.durationFromMinutes Sample.envPoll30 (lit "POLL_INTERVAL_MINUTES") 15
   = 30 * config.Minute
   /\ 0 < config.durationFromMinutes
            Sample.envPoll30 (lit "POLL_INTERVAL_MINUTES") 15)
  /\ (153722867 < 30 <= 307445734 ->
      config.durationFromMinutes
        Sample.envPoll30 (lit "POLL_INTERVAL_MINUTES") 15 < 0).
Proof.
  apply (durationFromMinutes_overflow
           Sample.envPoll30 (lit "POLL_INTERVAL_MINUTES") 15 30);
    [reflexivity|lia].
Defined.

(** X3. Whatever the environment holds, [Load] yields a non-empty feed
    URL, bind address, model name, base URL and database host, user,
    password and name, and a positive item limit and database port; in
    an environment where every variable is unset or empty it yields
    exactly the defaults, with a polling interval of fifteen minutes and
    no API key. *)
Theorem Load_settings_usable :
  forall env : os.Environ,
    config.FeedURL (config.Load env) <> []
    /\ config.BindAddr (config.Load env) <> []
    /\ config.OpenAIModel (config.Load env) <> []
    /\ config.OpenAIBase (config.Load env) <> []
    /\ config.DBHost (config.Load env) <> []
    /\ config.DBUser (config.Load env) <> []
    /\ config.DBPass (config.Load env) <> []
    /\ config.DBName (config.Load env) <> []
    /\ 0 < config.MaxItems (config.Load env)
    /\ 0 < config.DBPort (config.Load env)
    /\ ((forall key, os.Getenv env key = []) ->
        config.Load env
        = {| config.FeedURL := config.defaultFeedURL;
             config.PollInterval := 15 * config.Minute;
             config.BindAddr := config.defaultBindAddr;
             config.OpenAIKey := [];
             config.OpenAIModel := config.defaultOpenAIModel;
             config.OpenAIBase := config.defaultOpenAIBase;
             config.MaxItems := config.defaultMaxItemStore;
             config.DBHost := config.defaultDBHost;
             config.DBPort := config.defaultDBPort;
             config.DBUser := config.defaultDBUser;
             config.DBPass := config.defaultDBPass;
             config.DBName := config.defaultDBName |}).
Proof.
  intros env. unfold config.Load. cbn [config.FeedURL config.BindAddr
    config.OpenAIModel config.OpenAIBase config.DBHost config.DBUser
    config.DBPass config.DBName config.MaxItems config.DBPort].
  repeat split;
    try (apply stringWithDefault_nonempty; discriminate);
    try (apply intWithDefault_positive; reflexivity).
  intros Hall.
  unfold config.stringWithDefault, config.intWithDefault,
    config.durationFromMinutes.
  rewrite !Hall. reflexivity.
Qed.

(** ** Lifting a property of one item's handling to a whole run *)

Section Lifting.

Variable analyzer : analysis.Client.
Variable P : storage.Store -> storage.Store -> list service.Event -> Prop.

Hypothesis P_nil : forall st, P st st [].
Hypothesis P_seq :
  forall s1 s2 s3 e1 e2, P s1 s2 e1 -> P s2 s3 e2 -> P s1 s3 (e1 ++ e2).
Hypothesis P_fetch : forall st, P st st [service.EvFetch].
Hypothesis P_step :
  forall f st item st' evs, ItemStep analyzer f st item st' evs -> P st st' evs.

Lemma pollItems_lift batch st :
  P st (fst (service.pollItems analyzer batch st))
       (snd (service.pollItems analyzer batch st)).
Proof.
  revert st. induction batch as [|[item f] batch IH]; intros st.
  - apply P_nil.
  - rewrite pollItems_cons. cbn [fst snd].
    eapply P_seq; [eapply P_step, processItem_step|apply IH].
Qed.

Lemma pollOnce_lift c st :
  P st (fst (service.pollOnce analyzer c st))
       (snd (service.pollOnce analyzer c st)).
Proof.
  destruct (rss.Fetch (service.parsed c) (service.clock c)) as [items|] eqn:E.
  - rewrite (pollOnce_fetched _ _ _ items E). cbn [fst snd].
    change (service.EvFetch :: ?l) with ([service.EvFetch] ++ l).
    eapply P_seq; [apply P_fetch|apply pollItems_lift].
  - unfold service.pollOnce. rewrite E. apply P_fetch.
Qed.

Lemma Run_lift cycles st :
  P st (fst (service.Run analyzer cycles st))
       (snd (service.Run analyzer cycles st)).
Proof.
  revert st. induction cycles as [|c cycles IH]; intros st.
  - apply P_nil.
  - rewrite Run_cons. cbn [fst snd].
    eapply P_seq; [apply pollOnce_lift|apply IH].
Qed.

End Lifting.

(** ** The table only grows *)

(** The items and verdicts of the successful saves of a trace, in
    order. *)
Definition savedOk (evs : list service.Event)
  : list (rss.Item * analysis.Result) :=
  flat_map (fun e => match e with
                     | service.EvSaveAnalysis item result true =>
                       [(item, result)]
                     | _ => []
                     end) evs.

(** [r] is a row inserted for the save [s], never updated since. *)
Definition freshRow (r : storage.Row) (s : rss.Item * analysis.Result)
  : Prop :=
  exists now newid, r = storage.newRow now newid (fst s) (snd s).

Definition Grows (st st' : storage.Store) (evs : list service.Event) : Prop :=
  exists added,
    storage.rows st' = storage.rows st ++ added
    /\ Forall2 freshRow added (savedOk evs).

Lemma savedOk_app (e1 e2 : list service.Event) :
  savedOk (e1 ++ e2) = savedOk e1 ++ savedOk e2.
Proof. apply flat_map_app. Qed.

Lemma savedOk_length (evs : list service.Event) :
  length (savedOk evs) = count isSavedOk evs.
Proof.
  unfold count, savedOk. induction evs as [|e evs IH]; [reflexivity|].
  cbn [flat_map filter]. rewrite length_app, IH.
  destruct e as [| | | |? ? [|]|]; reflexivity.
Qed.

Lemma savedOk_chat item reqs : savedOk (map (service.EvChat item) reqs) = [].
Proof. induction reqs; simpl; auto. Qed.

Lemma Grows_quiet st evs : savedOk evs = [] -> Grows st st evs.
Proof.
  intros H. exists []. rewrite H, app_nil_r.
  split; [reflexivity|constructor].
Qed.

Lemma Grows_seq s1 s2 s3 e1 e2 :
  Grows s1 s2 e1 -> Grows s2 s3 e2 -> Grows s1 s3 (e1 ++ e2).
Proof.
  intros (a1 & H1 & F1) (a2 & H2 & F2).
  exists (a1 ++ a2). rewrite H2, H1, app_assoc, savedOk_app.
  split; [reflexivity|now apply Forall2_app].
Qed.

Lemma step_grows analyzer f st item st' evs :
  ItemStep analyzer f st item st' evs -> Grows st st' evs.
Proof.
  intros H. destruct H.
  - now apply Grows_quiet.
  - now apply Grows_quiet.
  - apply Grows_quiet. rewrite savedOk_app, savedOk_chat. reflexivity.
  - apply Grows_quiet. rewrite !savedOk_app, savedOk_chat. reflexivity.
  - exists [storage.newRow (service.dbNow f) (storage.nextID st) item result].
    unfold storage.upsert. rewrite H0. cbn [storage.rows].
    split; [reflexivity|].
    rewrite !savedOk_app, savedOk_chat. cbn [app].
    replace (savedOk ([service.EvExists (rss.GUID item);
                       service.EvEvaluate item]))
      with (@nil (rss.Item * analysis.Result)) by reflexivity.
    cbn [app].
    assert (E : savedOk (if analysis.Relevant result
                         then service.notifyWebhook item result else []) = [])
      by (destruct (analysis.Relevant result); reflexivity).
    cbn [savedOk flat_map]. cbn [savedOk flat_map] in E. rewrite E.
    constructor; [|constructor].
    now exists (service.dbNow f), (storage.nextID st).
Qed.

Lemma Run_grows analyzer cycles st :
  Grows st (fst (service.Run analyzer cycles st))
           (snd (service.Run analyzer cycles st)).
Proof.
  apply (Run_lift analyzer Grows).
  - intros s. now apply Grows_quiet.
  - apply Grows_seq.
  - intros s. now apply Grows_quiet.
  - apply step_grows.
Qed.

(** X4. A run only appends to the table: the rows that were there
    before are still there, unchanged and in the same order, followed by
    one newly inserted row for each successful [SaveAnalysis] of the
    trace, in the order of these saves, each holding that item and
    verdict.  No row is ever updated or removed by the service. *)
Theorem Run_appends_saved_rows :
  forall (analyzer : analysis.Client) (cycles : list service.Cycle)
         (st : storage.Store),
  exists added,
    storage.rows (fst (service.Run analyzer cycles st))
    = storage.rows st ++ added
    /\ Forall2 freshRow added (savedOk (snd (service.Run analyzer cycles st)))
    /\ length added
       = count isSavedOk (snd (service.Run analyzer cycles st)).
Proof.
  intros analyzer cycles st.
  destruct (Run_grows analyzer cycles st) as (added & Hrows & Hfresh).
  exists added. split; [assumption|]. split; [assumption|].
  rewrite (Forall2_length Hfresh). apply savedOk_length.
Qed.

(** ** An analyzer that is not ready *)

Definition quietEvent (e : service.Event) : Prop :=
  match e with
  | service.EvFetch | service.EvExists _ | service.EvEvaluate _ => True
  | _ => False
  end.

Definition Idle (st st' : storage.Store) (evs : list service.Event) : Prop :=
  st' = st /\ Forall quietEvent evs.

Lemma Evaluate_not_ready analyzer chat item :
  analysis.Ready analyzer = false ->
  analysis.Evaluate analyzer chat item
  = ([], analysis.Failed analysis.errDisabled).
Proof. intros H. unfold analysis.Evaluate. now rewrite H. Qed.

Lemma step_idle analyzer f st item st' evs :
  analysis.Ready analyzer = false ->
  ItemStep analyzer f st item st' evs -> Idle st st' evs.
Proof.
  intros Hr H.
  destruct H as [?|? ?|reqs e ? ? He|reqs result ? ? He ?|reqs result ? ? He ?];
    try rewrite (Evaluate_not_ready _ _ _ Hr) in He; try discriminate.
  - split; [reflexivity|]. repeat constructor.
  - split; [reflexivity|]. repeat constructor.
  - injection He as <- <-. split; [reflexivity|]. repeat constructor.
Qed.

Lemma Run_idle analyzer cycles st :
  analysis.Ready analyzer = false ->
  Idle st (fst (service.Run analyzer cycles st))
          (snd (service.Run analyzer cycles st)).
Proof.
  intros Hr. apply (Run_lift analyzer Idle).
  - intros s. split; [reflexivity|constructor].
  - intros s1 s2 s3 e1 e2 [-> F1] [-> F2]. split; [reflexivity|].
    apply Forall_app. now split.
  - intros s. split; [reflexivity|]. repeat constructor.
  - intros f s item s' evs. now apply step_idle.
Qed.

(** ** UTF-8: encoding what was decoded *)

Lemma mkbyte_byteval (c : ascii) : mkbyte (byteval c) = c.
Proof.
  unfold mkbyte, byteval. rewrite N2Z.id. apply ascii_N_embedding.
Qed.

Lemma mkbyte_eq (z : Z) (c : ascii) : z = byteval c -> mkbyte z = c.
Proof. intros ->. apply mkbyte_byteval. Qed.

(** A sequence that [DecodeRuneInString] accepts is the encoding of the
    rune it returns. *)
Lemma encode_decode (s : bytes) (r : rune) (n : nat) :
  DecodeRuneInString s = (r, n) ->
  (n = 1%nat -> r <> RuneError) ->
  s <> [] ->
  EncodeRune r = firstn n s /\ length (firstn n s) = n.
Proof.
  destruct s as [|c0 t]; [congruence|]. intros H Hok _.
  unfold DecodeRuneInString in H. cbv zeta in H.
  pose proof (byteval_range c0).
  repeat match type of H with
         | context [match ?l with [] => _ | _ :: _ => _ end] =>
           destruct l
         | context [if ?b then _ else _] => destruct b eqn:?
         | _ => match goal with
                | c : ascii |- _ =>
                  lazymatch goal with
                  | H : 0 <= byteval c < 256 |- _ => fail
                  | _ => pose proof (byteval_range c)
                  end
                end
         end;
    injection H as <- <-;
    try (exfalso; now apply Hok);
    tests_to_props;
    repeat match goal with
           | H : context [?a =? ?b] |- _ => destruct (Z.eqb_spec a b)
           end;
    try lia;
    (split; [|reflexivity]);
    unfold EncodeRune, ValidRune, isSurrogate, between;
    decide_tests;
    repeat match goal with
           | |- context [?a <=? ?b] => destruct (Z.leb_spec a b)
           end;
    cbn [andb negb firstn]; try (exfalso; dlia);
    repeat (f_equal; try (apply mkbyte_eq; dlia)).
Qed.

(** ** Strings through [Marshal] and [Unmarshal] *)

Lemma appendStringFrom_skipn (k : nat) (s : bytes) :
  json.appendStringFrom k s = json.appendStringFrom 0 (skipn k s).
Proof.
  revert k. induction s as [|c t IH]; intros k.
  - now destruct k.
  - destruct k as [|k]; [reflexivity|]. simpl. apply IH.
Qed.

Lemma unquoteFrom_skipn (k : nat) (s acc : bytes) :
  json.unquoteFrom k s acc = json.unquoteFrom 0 (skipn k s) acc.
Proof.
  revert k. induction s as [|c t IH]; intros k.
  - now destruct k.
  - destruct k as [|k]; [reflexivity|]. simpl. apply IH.
Qed.

(** What [Marshal] writes for one byte below [RuneSelf]. *)
Definition escapeAscii (c : ascii) : bytes :=
  let b := byteval c in
  if (b =? 0x5C) || (b =? 0x22) then [mkbyte 0x5C; c]
  else if b =? 0x08 then lit "\b"
  else if b =? 0x0C then lit "\f"
  else if b =? 0x0A then lit "\n"
  else if b =? 0x0D then lit "\r"
  else if b =? 0x09 then lit "\t"
  else if (b <? 0x20) || (b =? 0x3C) || (b =? 0x3E) || (b =? 0x26)
  then json.escapeU00 b
  else [c].

Lemma appendString_ascii (c : ascii) (t : bytes) :
  byteval c < RuneSelf ->
  json.appendStringFrom 0 (c :: t) = escapeAscii c ++ json.appendStringFrom 0 t.
Proof.
  intros H. cbn [json.appendStringFrom]. cbv zeta.
  apply Z.ltb_lt in H. rewrite H. reflexivity.
Qed.

Lemma unquote_escapeAscii (c : ascii) (x acc : bytes) :
  byteval c < RuneSelf ->
  json.unquoteFrom 0 (escapeAscii c ++ x) acc = json.unquoteFrom 0 x (c :: acc).
Proof.
  destruct c as [[] [] [] [] [] [] [] []]; intros H;
    try (exfalso; vm_compute in H; discriminate H);
    reflexivity.
Qed.

Lemma runes_ascii (c : ascii) (t : bytes) :
  byteval c < RuneSelf -> runes (c :: t) = byteval c :: runes t.
Proof.
  intros H. rewrite runes_cons. unfold DecodeRuneInString.
  apply Z.ltb_lt in H. rewrite H. reflexivity.
Qed.

Lemma EncodeRune_ascii (c : ascii) :
  byteval c < RuneSelf -> EncodeRune (byteval c) = [c].
Proof.
  intros H. unfold EncodeRune, between. pose proof (byteval_range c).
  unfold RuneSelf in H.
  replace (0 <=? byteval c) with true by (symmetry; apply Z.leb_le; lia).
  replace (byteval c <=? 0x7F) with true by (symmetry; apply Z.leb_le; lia).
  simpl. now rewrite mkbyte_byteval.
Qed.

(** Reading back the string literal that [Marshal] wrote for [s] gives
    the runes of [s], encoded again: [s] itself up to its ill-formed
    bytes, each of which has become U+FFFD. *)
Lemma unquote_appendString (n : nat) :
  forall (s x acc : bytes),
    (length s <= n)%nat ->
    json.unquoteFrom 0 (json.appendStringFrom 0 s ++ dquote :: x) acc
    = json.Parsed (rev acc ++ stringOfRunes (runes s)) x.
Proof.
  induction n as [|n IH]; intros s x acc Hlen.
  - destruct s; [|simpl in Hlen; lia]. simpl. now rewrite app_nil_r.
  - destruct s as [|c t]; [simpl; now rewrite app_nil_r|].
    simpl in Hlen.
    destruct (Z.lt_ge_cases (byteval c) RuneSelf) as [Hb|Hb].
    + rewrite appendString_ascii, <- app_assoc, unquote_escapeAscii
        by assumption.
      rewrite IH by lia. rewrite runes_ascii by assumption.
      unfold stringOfRunes. cbn [flat_map rev].
      rewrite EncodeRune_ascii by assumption.
      now rewrite <- !app_assoc.
    + rewrite runes_cons.
      cbn [json.appendStringFrom]. cbv zeta.
      replace (byteval c <? RuneSelf) with false
        by (symmetry; apply Z.ltb_ge; assumption).
      pose proof (decode_valid (c :: t)) as Hv.
      pose proof (encode_decode (c :: t)) as Hed.
      destruct (DecodeRuneInString (c :: t)) as [r k] eqn:Hd.
      cbn [fst snd] in *.
      rewrite (appendStringFrom_skipn (k - 1) t).
      assert (Hsk : (length (skipn (k - 1) t) <= n)%nat)
        by (rewrite length_skipn; lia).
      unfold stringOfRunes. cbn [flat_map].
      fold (stringOfRunes (runes (skipn (k - 1) t))).
      destruct ((r =? RuneError) && (k =? 1)%nat) eqn:Herr.
      * apply andb_true_iff in Herr. destruct Herr as [Hr Hk].
        apply Z.eqb_eq in Hr. apply Nat.eqb_eq in Hk. subst r k.
        cbn [Nat.sub skipn].
        change (json.unquoteFrom 0
                  ((lit "\u" ++ lit "fffd" ++ json.appendStringFrom 0 t)
                     ++ dquote :: x) acc)
          with (json.unquoteFrom 0 (json.appendStringFrom 0 t ++ dquote :: x)
                  (rev (EncodeRune RuneError) ++ acc)).
        rewrite IH by lia. rewrite rev_app_distr, rev_involutive.
        now rewrite <- app_assoc.
      * destruct (Hed r k eq_refl) as [He Hl]; [| discriminate |].
        { intros ->. intros ->. now rewrite Z.eqb_refl in Herr. }
        assert (Hk : k = length (EncodeRune r))
          by (rewrite He; symmetry; exact Hl).
        pose proof (EncodeRune_length r) as Hlen'.
        assert (Htail :
                  skipn (k - 1)
                        (firstn (k - 1) t
                           ++ json.appendStringFrom 0 (skipn (k - 1) t)
                           ++ dquote :: x)
                  = json.appendStringFrom 0 (skipn (k - 1) t) ++ dquote :: x).
        { destruct k as [|k]; [lia|].
          cbn [firstn length] in Hl. injection Hl as Hl.
          rewrite Nat.sub_succ, Nat.sub_0_r.
          rewrite skipn_app, Hl, Nat.sub_diag. cbn [skipn].
          rewrite skipn_all2 by lia. reflexivity. }
        destruct ((r =? 0x2028) || (r =? 0x2029)) eqn:Hls.
        -- assert (k = 3%nat /\ (r = 0x2028 \/ r = 0x2029)) as [-> Hr].
           { apply orb_true_iff in Hls.
             destruct Hls as [Hr|Hr]; apply Z.eqb_eq in Hr; subst r;
               rewrite Hk; split; auto. }
           cbn [Nat.sub].
           destruct Hr as [-> | ->].
           ++ change (json.unquoteFrom 0 (?pre ++ dquote :: x) acc)
                with (json.unquoteFrom 0
                        (json.appendStringFrom 0 (skipn 2 t) ++ dquote :: x)
                        (rev (EncodeRune 0x2028) ++ acc)).
              rewrite IH by assumption.
              rewrite rev_app_distr, rev_involutive.
              now rewrite <- app_assoc.
           ++ change (json.unquoteFrom 0 (?pre ++ dquote :: x) acc)
                with (json.unquoteFrom 0
                        (json.appendStringFrom 0 (skipn 2 t) ++ dquote :: x)
                        (rev (EncodeRune 0x2029) ++ acc)).
              rewrite IH by assumption.
              rewrite rev_app_distr, rev_involutive.
              now rewrite <- app_assoc.
        -- rewrite <- app_assoc.
           destruct k as [|k]; [lia|].
           cbn [firstn app]. cbn [json.unquoteFrom]. cbv zeta.
           assert (Hc : 0x80 <= byteval c < 256)
             by (pose proof (byteval_range c); unfold RuneSelf in Hb; lia).
           replace (byteval c =? 0x22) with false
             by (symmetry; apply Z.eqb_neq; lia).
           replace (byteval c =? 0x5C) with false
             by (symmetry; apply Z.eqb_neq; lia).
           replace (byteval c <? 0x20) with false
             by (symmetry; apply Z.ltb_ge; lia).
           replace (byteval c <? RuneSelf) with false
             by (symmetry; apply Z.ltb_ge; assumption).
           change (c :: firstn k t ++ ?y) with (firstn (S k) (c :: t) ++ y).
           rewrite <- He, decode_encode by assumption.
           rewrite <- Hk. rewrite unquoteFrom_skipn.
           replace (firstn k t) with (firstn (S k - 1) t) by (f_equal; lia).
           rewrite Htail. rewrite IH by assumption.
           rewrite rev_app_distr, rev_involutive.
           now rewrite <- app_assoc.
Qed.

(** What a string has become once it went through [Marshal] and
    [Unmarshal]: every ill-formed byte is U+FFFD. *)
Definition coerced (s : bytes) : bytes := stringOfRunes (runes s).

(** [s] is well-formed UTF-8: the encoding of Unicode scalar values. *)
Definition wellFormed (s : bytes) : Prop :=
  exists rs, Forall (fun r => ValidRune r = true) rs /\ s = stringOfRunes rs.

Lemma coerced_wellFormed (s : bytes) : wellFormed s -> coerced s = s.
Proof.
  intros (rs & Hv & ->). unfold coerced. now rewrite runes_stringOfRunes.
Qed.

Lemma wellFormed_coerced (s : bytes) : wellFormed (coerced s).
Proof. exists (runes s). split; [apply runes_valid|reflexivity]. Qed.

Lemma parseValue_quote (f : nat) (s x : bytes) :
  json.parseValue (S f) (json.quote s ++ x)
  = json.Parsed (json.String (coerced s)) x.
Proof.
  unfold json.quote. cbn [app json.parseValue].
  change (json.skipWS (dquote :: ?t)) with (dquote :: t). cbv iota zeta.
  change (byteval dquote =? 123) with false.
  change (byteval dquote =? 91) with false.
  change (byteval dquote =? 34) with true. cbv iota.
  unfold json.unquote.
  replace ((json.appendStringFrom 0 s ++ [dquote]) ++ x)
    with (json.appendStringFrom 0 s ++ dquote :: x)
    by (now rewrite <- app_assoc).
  now rewrite (unquote_appendString (length s)).
Qed.

Lemma parseElems_strings (l : list bytes) :
  forall (a : bytes) (n f : nat) (x : bytes) (acc : list json.value),
    (length l < n)%nat ->
    json.parseElems (json.parseValue (S f)) n
                    (json.joinComma (map json.quote (a :: l)) ++ lit "]" ++ x)
                    acc
    = json.Parsed (rev acc ++ map json.String (map coerced (a :: l))) x.
Proof.
  induction l as [|b l IH]; intros a n f x acc Hn.
  - destruct n as [|n]; [simpl in Hn; lia|].
    cbn [map json.joinComma json.parseElems].
    rewrite parseValue_quote. cbn [app lit String.list_ascii_of_string].
    change (json.skipWS ("]"%char :: x)) with ("]"%char :: x). cbv iota.
    change (byteval "]" =? 44) with false.
    change (byteval "]" =? 93) with true. cbv iota.
    reflexivity.
  - destruct n as [|n]; [simpl in Hn; lia|]. simpl in Hn.
    change (json.joinComma (map json.quote (a :: b :: l)))
      with (json.quote a ++ lit ","
              ++ json.joinComma (map json.quote (b :: l))).
    cbn [json.parseElems]. rewrite <- !app_assoc.
    rewrite parseValue_quote.
    cbn [app lit String.list_ascii_of_string].
    change (json.skipWS (","%char :: ?t)) with (","%char :: t). cbv iota.
    change (byteval "," =? 44) with true. cbv iota.
    rewrite (IH b n f x) by lia.
    cbn [rev map]. now rewrite <- app_assoc.
Qed.

Lemma joinComma_quote_length (l : list bytes) :
  (length l <= length (json.joinComma (map json.quote l)))%nat.
Proof.
  induction l as [|a l IH]; [simpl; lia|].
  destruct l as [|b l].
  - cbn [map json.joinComma]. unfold json.quote.
    rewrite !length_app. simpl. lia.
  - change (json.joinComma (map json.quote (a :: b :: l)))
      with (json.quote a ++ lit ","
              ++ json.joinComma (map json.quote (b :: l))).
    rewrite !length_app. simpl in *. lia.
Qed.

Lemma stringElems_strings (l : list bytes) :
  json.stringElems (map json.String l) = Some l.
Proof. induction l as [|a l IH]; simpl; [|rewrite IH]; reflexivity. Qed.

Lemma parseValue_bracket (f : nat) (t : bytes) :
  json.parseValue (S f) ("["%char :: t)
  = match json.skipWS t with
    | c' :: t' =>
      if byteval c' =? 0x5D then json.Parsed (json.Array []) t'
      else match json.parseElems (json.parseValue f) f t [] with
           | json.Parsed l r => json.Parsed (json.Array l) r
           | json.SyntaxError => json.SyntaxError
           | json.OutOfFuel => json.OutOfFuel
           end
    | [] => json.SyntaxError
    end.
Proof. reflexivity. Qed.

Lemma joinComma_quote_head (a : bytes) (l : list bytes) (y : bytes) :
  exists t, json.joinComma (map json.quote (a :: l)) ++ y = dquote :: t.
Proof.
  destruct l; cbn [map json.joinComma]; unfold json.quote; cbn [app];
    eexists; reflexivity.
Qed.

Lemma parse_MarshalStrings (l : list bytes) :
  json.parse (json.MarshalStrings (Some l))
  = Some (json.Array (map json.String (map coerced l))).
Proof.
  destruct l as [|a l]; [reflexivity|].
  unfold json.parse, json.MarshalStrings.
  change (lit "[" ++ ?x ++ lit "]") with ("["%char :: x ++ ["]"%char]).
  cbn [length]. rewrite parseValue_bracket.
  destruct (joinComma_quote_head a l ["]"%char]) as (t & Ht).
  rewrite Ht. change (json.skipWS (dquote :: t)) with (dquote :: t).
  cbv match. change (byteval dquote =? 93) with false. cbv match.
  rewrite <- Ht.
  pose proof (joinComma_quote_length (a :: l)) as Hlen.
  set (f := length (json.joinComma (map json.quote (a :: l)) ++ ["]"%char])).
  assert (Hf : (length l < S f)%nat).
  { unfold f. rewrite length_app. simpl in *. lia. }
  clearbody f.
  pose proof (parseElems_strings l a (S f) f [] [] Hf) as H.
  rewrite app_nil_r in H. change (lit "]") with ["]"%char] in H.
  rewrite H. reflexivity.
Qed.

Lemma Unmarshal_MarshalStrings (tags : option (list bytes)) :
  json.UnmarshalStrings (json.MarshalStrings tags)
  = Ok (option_map (map coerced) tags).
Proof.
  destruct tags as [l|]; [|reflexivity].
  unfold json.UnmarshalStrings. rewrite parse_MarshalStrings.
  now rewrite stringElems_strings.
Qed.

Lemma MarshalStrings_nonempty (tags : option (list bytes)) :
  exists c s, json.MarshalStrings tags = c :: s.
Proof. destruct tags; simpl; eexists; eexists; reflexivity. Qed.

(** ** What the JSON reader returns is well-formed UTF-8 *)

Lemma wellFormed_nil : wellFormed [].
Proof. exists []. split; [constructor|reflexivity]. Qed.

Lemma wellFormed_app (a b : bytes) :
  wellFormed a -> wellFormed b -> wellFormed (a ++ b).
Proof.
  intros (ra & Ha & ->) (rb & Hb & ->). exists (ra ++ rb).
  split; [now apply Forall_app|]. unfold stringOfRunes.
  now rewrite flat_map_app.
Qed.

Lemma wellFormed_EncodeRune (r : rune) : wellFormed (EncodeRune r).
Proof.
  destruct (ValidRune r) eqn:Hv.
  - exists [r]. split; [now repeat constructor|].
    unfold stringOfRunes. simpl. now rewrite app_nil_r.
  - exists [RuneError]. split; [now repeat constructor|].
    unfold stringOfRunes. cbn [flat_map]. rewrite app_nil_r.
    unfold EncodeRune. rewrite Hv. cbn [negb].
    assert (H1 : between 0 0x7F r = false).
    { unfold ValidRune, isSurrogate, between in *.
      destruct (Z.leb_spec 0 r), (Z.leb_spec r 0x7F); try reflexivity.
      exfalso. revert Hv.
      replace (r <=? 0x10FFFF) with true by (symmetry; apply Z.leb_le; lia).
      replace (0xD800 <=? r) with false by (symmetry; apply Z.leb_gt; lia).
      discriminate. }
    assert (H2 : between 0x80 0x7FF r = false).
    { unfold ValidRune, isSurrogate, between in *.
      destruct (Z.leb_spec 0x80 r), (Z.leb_spec r 0x7FF); try reflexivity.
      exfalso. revert Hv.
      replace (0 <=? r) with true by (symmetry; apply Z.leb_le; lia).
      replace (r <=? 0x10FFFF) with true by (symmetry; apply Z.leb_le; lia).
      replace (0xD800 <=? r) with false by (symmetry; apply Z.leb_gt; lia).
      discriminate. }
    rewrite H1, H2. reflexivity.
Qed.

Lemma wellFormed_ascii (c : ascii) : byteval c < RuneSelf -> wellFormed [c].
Proof.
  intros H. rewrite <- (EncodeRune_ascii c H). apply wellFormed_EncodeRune.
Qed.

Lemma simpleEscape_ascii (e x : ascii) :
  json.simpleEscape e = Some x -> byteval x < RuneSelf.
Proof.
  unfold json.simpleEscape. cbv zeta.
  destruct (_ || _) eqn:E.
  - intros [= <-]. tests_to_props; unfold RuneSelf; lia.
  - repeat match goal with
           | |- context [if ?b then _ else _] => destruct b
           end; intros [= <-]; reflexivity.
Qed.

Lemma unquoteFrom_wellFormed (s : bytes) :
  forall (k : nat) (acc out rest : bytes),
    json.unquoteFrom k s acc = json.Parsed out rest ->
    wellFormed (rev acc) -> wellFormed out.
Proof.
  induction s as [|c t IH]; intros k acc out rest H Hacc; [discriminate|].
  assert (Hrune : forall r, wellFormed (rev (rev (EncodeRune r) ++ acc))).
  { intros r. rewrite rev_app_distr, rev_involutive.
    apply wellFormed_app; [assumption|apply wellFormed_EncodeRune]. }
  assert (Hbyte : forall x,
             byteval x < RuneSelf -> wellFormed (rev (x :: acc))).
  { intros x Hx. cbn [rev].
    apply wellFormed_app; [assumption|now apply wellFormed_ascii]. }
  cbn [json.unquoteFrom] in H.
  destruct k as [|k]; [|now apply (IH _ _ _ _ H)].
  cbv zeta in H.
  destruct (byteval c =? 0x22); [injection H as <- <-; assumption|].
  destruct (byteval c =? 0x5C).
  - destruct t as [|e t']; [discriminate|].
    destruct (json.simpleEscape e) as [x|] eqn:Hx.
    + apply (IH _ _ _ _ H). apply Hbyte. now apply simpleEscape_ascii in Hx.
    + destruct (byteval e =? 0x75); [|discriminate].
      destruct (json.hex4 t') as [rr|]; [|discriminate].
      destruct (isSurrogate rr).
      * destruct (json.getu4 (skipn 4 t')) as [rr1|].
        -- destruct (json.utf16DecodeRune rr rr1 =? RuneError);
             apply (IH _ _ _ _ H); apply Hrune.
        -- apply (IH _ _ _ _ H); apply Hrune.
      * apply (IH _ _ _ _ H); apply Hrune.
  - destruct (byteval c <? 0x20); [discriminate|].
    destruct (Z.ltb_spec (byteval c) RuneSelf) as [Hc|Hc].
    + apply (IH _ _ _ _ H). now apply Hbyte.
    + destruct (DecodeRuneInString (c :: t)) as [r n].
      apply (IH _ _ _ _ H). apply Hrune.
Qed.

(** Every string of a JSON value is well-formed. *)
#[warnings="-register-all"]
Inductive wellFormedValue : json.value -> Prop :=
| wfNull : wellFormedValue json.Null
| wfBool b : wellFormedValue (json.Bool b)
| wfNumber raw : wellFormedValue (json.Number raw)
| wfString s : wellFormed s -> wellFormedValue (json.String s)
| wfArray l : Forall wellFormedValue l -> wellFormedValue (json.Array l)
| wfObject m :
    Forall (fun kv => wellFormedValue (snd kv)) m ->
    wellFormedValue (json.Object m).

Definition yieldsWellFormed (pv : bytes -> json.parsed json.value) : Prop :=
  forall s v r, pv s = json.Parsed v r -> wellFormedValue v.

Lemma parseElems_wellFormed pv (n : nat) :
  yieldsWellFormed pv ->
  forall s acc out r,
    json.parseElems pv n s acc = json.Parsed out r ->
    Forall wellFormedValue acc -> Forall wellFormedValue out.
Proof.
  intros Hpv. induction n as [|n IH]; intros s acc out r H Hacc;
    [discriminate|].
  cbn [json.parseElems] in H.
  destruct (pv s) as [| |v r1] eqn:E; try discriminate.
  apply Hpv in E.
  destruct (json.skipWS r1) as [|c r']; [discriminate|].
  destruct (byteval c =? 0x2C).
  - apply (IH _ _ _ _ H). now constructor.
  - destruct (byteval c =? 0x5D); [|discriminate].
    injection H as <- <-.
    apply Forall_app. split; [now apply Forall_rev|now repeat constructor].
Qed.

Lemma parseMembers_wellFormed pv (n : nat) :
  yieldsWellFormed pv ->
  forall s acc out r,
    json.parseMembers pv n s acc = json.Parsed out r ->
    Forall (fun kv => wellFormedValue (snd kv)) acc ->
    Forall (fun kv => wellFormedValue (snd kv)) out.
Proof.
  intros Hpv. induction n as [|n IH]; intros s acc out r H Hacc;
    [discriminate|].
  cbn [json.parseMembers] in H.
  destruct (json.skipWS s) as [|q s1]; [discriminate|].
  destruct (byteval q =? 0x22); [|discriminate].
  destruct (json.unquote s1) as [| |k s2]; try discriminate.
  destruct (json.skipWS s2) as [|colon s3]; [discriminate|].
  destruct (byteval colon =? 0x3A); [|discriminate].
  destruct (pv s3) as [| |v r1] eqn:E; try discriminate.
  apply Hpv in E.
  destruct (json.skipWS r1) as [|c r']; [discriminate|].
  destruct (byteval c =? 0x2C).
  - apply (IH _ _ _ _ H). now constructor.
  - destruct (byteval c =? 0x7D); [|discriminate].
    injection H as <- <-.
    apply Forall_app. split; [now apply Forall_rev|now repeat constructor].
Qed.

Lemma parseLiteral_wellFormed word v :
  wellFormedValue v -> yieldsWellFormed (json.parseLiteral word v).
Proof.
  intros Hv s v' r. unfold json.parseLiteral.
  destruct (HasPrefix s word); [|discriminate]. now intros [= <- <-].
Qed.

Lemma parseValue_wellFormed (fuel : nat) :
  yieldsWellFormed (json.parseValue fuel).
Proof.
  induction fuel as [|f IH]; intros s v r H; [discriminate|].
  cbn [json.parseValue] in H.
  destruct (json.skipWS s) as [|c t]; [discriminate|]. cbv zeta in H.
  destruct (byteval c =? 0x7B).
  { destruct (json.skipWS t) as [|c' t']; [discriminate|].
    destruct (byteval c' =? 0x7D).
    - injection H as <- <-. constructor. constructor.
    - destruct (json.parseMembers _ _ _ _) as [| |m r1] eqn:E; try discriminate.
      injection H as <- <-. constructor.
      eapply parseMembers_wellFormed; eauto. }
  destruct (byteval c =? 0x5B).
  { destruct (json.skipWS t) as [|c' t']; [discriminate|].
    destruct (byteval c' =? 0x5D).
    - injection H as <- <-. constructor. constructor.
    - destruct (json.parseElems _ _ _ _) as [| |m r1] eqn:E; try discriminate.
      injection H as <- <-. constructor.
      eapply parseElems_wellFormed; eauto. }
  destruct (byteval c =? 0x22).
  { destruct (json.unquote t) as [| |str r1] eqn:E; try discriminate.
    injection H as <- <-. constructor.
    eapply unquoteFrom_wellFormed; [exact E|apply wellFormed_nil]. }
  destruct (byteval c =? 0x74);
    [eapply parseLiteral_wellFormed; [|exact H]; constructor|].
  destruct (byteval c =? 0x66);
    [eapply parseLiteral_wellFormed; [|exact H]; constructor|].
  destruct (byteval c =? 0x6E);
    [eapply parseLiteral_wellFormed; [|exact H]; constructor|].
  destruct (_ || _); [|discriminate].
  destruct (json.parseNumber _) as [| |raw r1]; try discriminate.
  injection H as <- <-. constructor.
Qed.

Lemma parse_wellFormed (s : bytes) (v : json.value) :
  json.parse s = Some v -> wellFormedValue v.
Proof.
  unfold json.parse.
  destruct (json.parseValue _ s) as [| |v' r] eqn:E; try discriminate.
  destruct (json.skipWS r); [|discriminate].
  intros [= <-]. now apply parseValue_wellFormed in E.
Qed.

(** Every string of a verdict is well-formed. *)
Definition wellFormedResult (r : analysis.Result) : Prop :=
  wellFormed (analysis.Category r)
  /\ wellFormed (analysis.Reason r)
  /\ match analysis.Tags r with
     | Some l => Forall wellFormed l
     | None => True
     end.

Lemma decodeTags_wellFormed (l : list json.value) :
  forall old out,
    Forall wellFormedValue l -> Forall wellFormed old ->
    analysis.decodeTags old l = Some out -> Forall wellFormed out.
Proof.
  induction l as [|v l IH]; intros old out Hl Hold H.
  - injection H as <-. constructor.
  - inversion Hl as [|? ? Hv Hl']; subst.
    cbn [analysis.decodeTags] in H.
    assert (Ho : wellFormed (fst (match old with
                                  | x :: old' => (x, old')
                                  | [] => ([], [])
                                  end))
                 /\ Forall wellFormed (snd (match old with
                                            | x :: old' => (x, old')
                                            | [] => ([], [])
                                            end))).
    { destruct old; cbn [fst snd].
      - split; [apply wellFormed_nil|constructor].
      - inversion Hold; subst. now split. }
    destruct (match old with x :: old' => (x, old') | [] => ([], []) end)
      as [o old'].
    cbn [fst snd] in Ho. destruct Ho as [Ho Hold'].
    destruct v; try discriminate.
    + destruct (analysis.decodeTags old' l) as [rest|] eqn:E; [|discriminate].
      injection H as <-. constructor; [assumption|]. eapply IH; eauto.
    + destruct (analysis.decodeTags old' l) as [rest|] eqn:E; [|discriminate].
      injection H as <-. inversion Hv; subst.
      constructor; [assumption|]. eapply IH; eauto.
Qed.

Lemma setField_wellFormed out name v out' :
  wellFormedValue v -> wellFormedResult out ->
  analysis.setField out name v = Some out' -> wellFormedResult out'.
Proof.
  intros Hv (Hc & Hr & Ht). unfold analysis.setField.
  repeat match goal with
         | |- context [if ?b then _ else _] => destruct b
         end;
    destruct v; try discriminate;
    try (intros [= <-]; inversion Hv; subst; repeat split; cbn; auto).
  destruct (analysis.decodeTags _ _) as [t|] eqn:E; [|discriminate].
  intros [= <-]. repeat split; cbn; auto.
  inversion Hv; subst.
  eapply decodeTags_wellFormed; [eassumption| |exact E].
  destruct (analysis.Tags out); [assumption|constructor].
Qed.

Lemma decodeMembers_wellFormed (m : list (bytes * json.value)) :
  forall out out',
    Forall (fun kv => wellFormedValue (snd kv)) m -> wellFormedResult out ->
    analysis.decodeMembers out m = Some out' -> wellFormedResult out'.
Proof.
  induction m as [|[k v] m IH]; intros out out' Hm Hout H.
  - now injection H as <-.
  - inversion Hm as [|? ? Hv Hm']; subst. cbn [analysis.decodeMembers] in H.
    destruct (json.findField _ k) as [name|]; [|eapply IH; eauto].
    destruct (analysis.setField out name v) as [out1|] eqn:E; [|discriminate].
    eapply IH; [assumption| |exact H].
    eapply setField_wellFormed; [exact Hv|exact Hout|exact E].
Qed.

Lemma wellFormed_zeroResult : wellFormedResult analysis.zeroResult.
Proof. repeat split; apply wellFormed_nil. Qed.

Lemma Unmarshal_wellFormed (data : bytes) (out : analysis.Result) :
  analysis.Unmarshal data = Ok out -> wellFormedResult out.
Proof.
  unfold analysis.Unmarshal.
  destruct (json.parse data) as [v|] eqn:E; [|discriminate].
  apply parse_wellFormed in E.
  destruct v; try discriminate.
  - intros [= <-]. apply wellFormed_zeroResult.
  - destruct (analysis.decodeMembers _ _) as [o|] eqn:D; [|discriminate].
    intros [= <-]. inversion E; subst.
    eapply decodeMembers_wellFormed; [eassumption| |exact D].
    apply wellFormed_zeroResult.
Qed.

Lemma Evaluate_wellFormed analyzer chat item reqs out :
  analysis.Evaluate analyzer chat item = (reqs, analysis.Done out) ->
  wellFormedResult out.
Proof.
  unfold analysis.Evaluate.
  destruct (negb _); [discriminate|].
  destruct chat as [|[|content0 rest]]; try discriminate.
  destruct (analysis.Unmarshal _) as [o|] eqn:E; [|discriminate].
  intros [= _ <-]. now apply Unmarshal_wellFormed in E.
Qed.

(** ** Saving and looking up *)

Lemma lookup_none_exists (st : storage.Store) (g : bytes) :
  storage.lookup st g = None <->
  existsb (storage.hasGUID g) (storage.rows st) = false.
Proof.
  unfold storage.lookup. induction (storage.rows st) as [|r l IH]; simpl.
  - tauto.
  - destruct (storage.hasGUID g r); simpl; [split; discriminate|exact IH].
Qed.

Lemma lookup_guid (st : storage.Store) (g : bytes) (row : storage.Row) :
  storage.lookup st g = Some row -> storage.guid row = g.
Proof.
  unfold storage.lookup. intros H. apply find_some in H.
  destruct H as [_ H]. now apply beq_true_iff in H.
Qed.

Lemma upsert_lookup_new now item result st :
  storage.lookup st (rss.GUID item) = None ->
  storage.lookup (storage.upsert now item result st) (rss.GUID item)
  = Some (storage.newRow now (storage.nextID st) item result).
Proof.
  intros H. pose proof H as Hn. apply lookup_none_exists in Hn.
  unfold storage.upsert. rewrite Hn. unfold storage.lookup in *.
  cbn [storage.rows]. rewrite find_app_none by assumption.
  cbn [find]. unfold storage.hasGUID at 1. cbn [storage.newRow storage.guid].
  now rewrite beq_refl.
Qed.

Lemma find_map_update (p : storage.Row -> bool)
      (f : storage.Row -> storage.Row) (l : list storage.Row)
      (old : storage.Row) :
  (forall x, p (f x) = p x) ->
  find p l = Some old -> find p (map f l) = Some (f old).
Proof.
  intros Hp. induction l as [|x l IH]; [discriminate|].
  cbn [find map]. rewrite Hp. destruct (p x); [now intros [= ->]|exact IH].
Qed.

Lemma upsert_lookup_old now item result st old :
  storage.lookup st (rss.GUID item) = Some old ->
  storage.lookup (storage.upsert now item result st) (rss.GUID item)
  = Some (storage.updateRow now item result old).
Proof.
  intros H. pose proof (lookup_exists _ _ _ H) as He.
  unfold storage.upsert. rewrite He. unfold storage.lookup in *.
  cbn [storage.rows].
  rewrite (find_map_update _ _ _ old); [| |assumption].
  - apply find_some in H. destruct H as [_ H]. now rewrite H.
  - intros x. unfold storage.hasGUID.
    destruct (beq (storage.guid x) (rss.GUID item)) eqn:E;
      [cbn [storage.updateRow storage.guid]|]; exact E.
Qed.

(** The row that a successful [SaveAnalysis] leaves for the item. *)
Definition savedRow (now : Z) (st : storage.Store) (item : rss.Item)
           (result : analysis.Result) : storage.Row :=
  match storage.lookup st (rss.GUID item) with
  | Some old => storage.updateRow now item result old
  | None => storage.newRow now (storage.nextID st) item result
  end.

Lemma upsert_lookup now item result st :
  storage.lookup (storage.upsert now item result st) (rss.GUID item)
  = Some (savedRow now st item result).
Proof.
  unfold savedRow.
  destruct (storage.lookup st (rss.GUID item)) as [old|] eqn:E.
  - now apply upsert_lookup_old.
  - now apply upsert_lookup_new.
Qed.

Lemma upsert_length now item result st :
  length (storage.rows (storage.upsert now item result st))
  = (length (storage.rows st)
     + if existsb (storage.hasGUID (rss.GUID item)) (storage.rows st)
       then 0 else 1)%nat.
Proof.
  unfold storage.upsert.
  destruct (existsb _ _); cbn [storage.rows].
  - rewrite length_map. lia.
  - rewrite length_app. reflexivity.
Qed.

(** X5. [SaveAnalysis] that fails leaves the table as it was.  After
    one that succeeds, [Exists] answers true for the item's identifier
    and the row found under it holds the item's title, link, published
    time and description and the verdict's flag, category, reason and
    marshalled tags; a row that was already there keeps its id and its
    creation time, a new row gets the next id; every other identifier
    finds what it found before, and the table has grown by one row or
    by none. *)
Theorem SaveAnalysis_then_lookup :
  forall (now : Z) (st : storage.Store) (item : rss.Item)
         (result : analysis.Result),
    storage.SaveAnalysis true now st item result = (st, false)
    /\ snd (storage.SaveAnalysis false now st item result) = true
    /\ storage.Exists
         false (fst (storage.SaveAnalysis false now st item result))
         (rss.GUID item) = Ok true
    /\ (exists row,
          storage.lookup (fst (storage.SaveAnalysis false now st item result))
                         (rss.GUID item) = Some row
          /\ storage.guid row = rss.GUID item
          /\ storage.title row = rss.Title item
          /\ storage.link row = rss.Link item
          /\ storage.published_at row = Some (rss.PublishedAt item)
          /\ storage.summary row = rss.Description item
          /\ storage.relevant row = storage.boolToInt (analysis.Relevant result)
          /\ storage.category row = analysis.Category result
          /\ storage.reason row = analysis.Reason result
          /\ storage.tags row
             = Some (json.MarshalStrings (analysis.Tags result))
          /\ storage.updated_at row = now
          /\ match storage.lookup st (rss.GUID item) with
             | Some old =>
               storage.id row = storage.id old
               /\ storage.created_at row = storage.created_at old
             | None =>
               storage.id row = storage.nextID st
               /\ storage.created_at row = now
             end)
    /\ (forall g, g <> rss.GUID item ->
          storage.lookup (fst (storage.SaveAnalysis false now st item result)) g
          = storage.lookup st g)
    /\ length (storage.rows
                 (fst (storage.SaveAnalysis false now st item result)))
       = match storage.lookup st (rss.GUID item) with
         | Some _ => length (storage.rows st)
         | None => S (length (storage.rows st))
         end.
Proof.
  intros now st item result. unfold storage.SaveAnalysis. cbn [fst snd].
  split; [reflexivity|]. split; [reflexivity|]. split.
  { unfold storage.Exists. now rewrite upsert_stores. }
  split.
  { exists (savedRow now st item result). split; [apply upsert_lookup|].
    unfold savedRow.
    destruct (storage.lookup st (rss.GUID item)) as [old|] eqn:E;
      cbn; repeat split.
    now apply lookup_guid in E. }
  split.
  { intros g Hg. apply upsert_lookup_other. congruence. }
  rewrite upsert_length.
  destruct (storage.lookup st (rss.GUID item)) as [old|] eqn:E.
  - apply lookup_exists in E. rewrite E. lia.
  - apply lookup_none_exists in E. rewrite E. lia.
Qed.

(** ** Tags through the column *)

Lemma scanRow_tags (r : storage.Row) (t : option (list bytes)) :
  storage.tags r = Some (json.MarshalStrings t) ->
  storage.Tags (storage.scanRow r) = option_map (map coerced) t.
Proof.
  intros H. unfold storage.scanRow. cbn [storage.Tags]. rewrite H.
  destruct (MarshalStrings_nonempty t) as (c & s & E).
  rewrite E, <- E. now rewrite Unmarshal_MarshalStrings.
Qed.

Lemma map_coerced (l : list bytes) :
  Forall wellFormed l -> map coerced l = l.
Proof.
  induction 1 as [|x l Hx _ IH]; [reflexivity|].
  cbn [map]. now rewrite coerced_wellFormed, IH.
Qed.

Lemma tags_coerced (t : option (list bytes)) :
  match t with Some l => Forall wellFormed l | None => True end ->
  option_map (map coerced) t = t.
Proof.
  destruct t as [l|]; [|reflexivity]. intros H. cbn. now rewrite map_coerced.
Qed.

(** X6. The tags that [SaveAnalysis] writes into the [tags] column come
    back from the scan of [ListRelevant] as the same list, every
    ill-formed byte replaced by U+FFFD: a nil slice comes back nil, an
    empty list empty, and a list of well-formed UTF-8 strings comes back
    exactly. *)
Theorem tags_column_round_trip :
  forall (now newid : Z) (item : rss.Item) (result : analysis.Result)
         (old : storage.Row),
    storage.Tags (storage.scanRow (storage.newRow now newid item result))
    = option_map (map coerced) (analysis.Tags result)
    /\ storage.Tags (storage.scanRow (storage.updateRow now item result old))
       = option_map (map coerced) (analysis.Tags result)
    /\ (match analysis.Tags result with
        | Some l => Forall wellFormed l
        | None => True
        end ->
        storage.Tags (storage.scanRow (storage.newRow now newid item result))
        = analysis.Tags result
        /\ storage.Tags
             (storage.scanRow (storage.updateRow now item result old))
           = analysis.Tags result).
Proof.
  intros now newid item result old.
  assert (H1 := scanRow_tags (storage.newRow now newid item result)
                             (analysis.Tags result) eq_refl).
  assert (H2 := scanRow_tags (storage.updateRow now item result old)
                             (analysis.Tags result) eq_refl).
  split; [exact H1|]. split; [exact H2|].
  intros Hw. rewrite H1, H2. now rewrite tags_coerced.
Qed.

(** ** From the model's answer to the listing *)

(** The verdicts that a trace saves or notifies. *)
Definition eventResult (e : service.Event) : option analysis.Result :=
  match e with
  | service.EvSaveAnalysis _ result _ => Some result
  | service.EvNotifyWebhook _ result _ => Some result
  | _ => None
  end.

Definition Decoded (st st' : storage.Store) (evs : list service.Event)
  : Prop :=
  Forall (fun e => forall r, eventResult e = Some r -> wellFormedResult r) evs.

Lemma Decoded_chat st st' item reqs :
  Decoded st st' (map (service.EvChat item) reqs).
Proof.
  unfold Decoded. apply Forall_forall. intros e Hin.
  apply in_map_iff in Hin. destruct Hin as (? & <- & _). discriminate.
Qed.

Lemma Decoded_preamble st st' item reqs :
  Decoded st st' ([service.EvExists (rss.GUID item); service.EvEvaluate item]
                    ++ map (service.EvChat item) reqs).
Proof.
  apply Forall_app. split; [|apply (Decoded_chat st st')].
  constructor; [intros ? Hx; discriminate Hx|].
  constructor; [intros ? Hx; discriminate Hx|constructor].
Qed.

Lemma step_decoded analyzer f st item st' evs :
  ItemStep analyzer f st item st' evs -> Decoded st st' evs.
Proof.
  intros H.
  destruct H as [?|? ?|reqs e ? ? He|reqs res ? ? He ?|reqs res ? ? He ?];
    try apply Evaluate_wellFormed in He.
  - constructor; [intros ? Hx; discriminate Hx|constructor].
  - constructor; [intros ? Hx; discriminate Hx|constructor].
  - apply (Decoded_preamble st st).
  - apply Forall_app. split; [apply (Decoded_preamble st st)|].
    constructor; [intros ? Hx; injection Hx as <-; assumption|constructor].
  - apply Forall_app. split; [apply (Decoded_preamble st st)|].
    apply Forall_app.
    split;
      [constructor;
       [intros ? Hx; injection Hx as <-; assumption|constructor]|].
    destruct (analysis.Relevant res); [|constructor].
    constructor; [intros ? Hx; injection Hx as <-; assumption|constructor].
Qed.

Lemma Run_decoded analyzer cycles st :
  Decoded st (fst (service.Run analyzer cycles st))
             (snd (service.Run analyzer cycles st)).
Proof.
  apply (Run_lift analyzer Decoded).
  - intros s. constructor.
  - intros s1 s2 s3 e1 e2 H1 H2. apply Forall_app. now split.
  - intros s. constructor; [intros ? Hx; discriminate Hx|constructor].
  - intros f s item s' evs. apply step_decoded.
Qed.

Lemma savedOk_in (evs : list service.Event) item result :
  In (service.EvSaveAnalysis item result true) evs ->
  In (item, result) (savedOk evs).
Proof.
  intros H. unfold savedOk. apply in_flat_map.
  exists (service.EvSaveAnalysis item result true). split; [assumption|].
  now left.
Qed.

Lemma fresh_row_of_save (added : list storage.Row)
      (saved : list (rss.Item * analysis.Result)) item result :
  Forall2 freshRow added saved -> In (item, result) saved ->
  exists row now newid,
    In row added /\ row = storage.newRow now newid item result.
Proof.
  induction 1 as [|r s added saved Hrs _ IH]; intros Hin; [destruct Hin|].
  destruct Hin as [->|Hin].
  - destruct Hrs as (now & newid & ->).
    exists (storage.newRow now newid item result), now, newid.
    split; [now left|reflexivity].
  - destruct (IH Hin) as (row & now & newid & Hrow & E).
    exists row, now, newid. split; [now right|assumption].
Qed.

Lemma selectRelevant_all (st : storage.Store) (limit : Z) (r : storage.Row) :
  In r (storage.rows st) -> storage.relevant r = 1 ->
  Z.of_nat (length (storage.rows st)) <= limit ->
  In r (storage.selectRelevant st limit).
Proof.
  intros Hin Hrel Hlim. unfold storage.selectRelevant.
  set (sel := filter (fun r => storage.relevant r =? 1) (storage.rows st)).
  assert (Hl : (length (storage.orderBy sel) <= Z.to_nat limit)%nat).
  { rewrite (Permutation_length (orderBy_perm sel)). unfold sel.
    pose proof (filter_length_le (fun r => storage.relevant r =? 1)
                                 (storage.rows st)). lia. }
  rewrite firstn_all2 by exact Hl.
  apply (Permutation_in _ (Permutation_sym (orderBy_perm sel))).
  unfold sel. apply filter_In. split; [assumption|]. now apply Z.eqb_eq.
Qed.

(** X7. From the model's answer to the listing: an item that a run has
    saved with a relevant verdict appears in the answer of the /items
    handler, when the limit is not below the number of rows, with its
    identifier, title, link and published time and with the category,
    reason and tags of the verdict exactly as [Evaluate] returned
    them. *)
Theorem saved_relevant_items_are_listed :
  forall (analyzer : analysis.Client) (cycles : list service.Cycle)
         (st : storage.Store) (item : rss.Item) (result : analysis.Result)
         (limit : Z),
    In (service.EvSaveAnalysis item result true)
       (snd (service.Run analyzer cycles st)) ->
    analysis.Relevant result = true ->
    Z.of_nat (length (storage.rows (fst (service.Run analyzer cycles st))))
    <= limit ->
    exists items listed,
      service.itemsHandler false (fst (service.Run analyzer cycles st)) limit
      = service.Status200Items (Z.of_nat (length items)) items
      /\ In listed items
      /\ storage.GUID listed = rss.GUID item
      /\ storage.Title listed = rss.Title item
      /\ storage.Link listed = rss.Link item
      /\ storage.PublishedAt listed = rss.PublishedAt item
      /\ storage.Category listed = analysis.Category result
      /\ storage.Reason listed = analysis.Reason result
      /\ storage.Tags listed = analysis.Tags result
      /\ storage.Relevant listed = true.
Proof.
  intros analyzer cycles st item result limit Hev Hrel Hlim.
  destruct (Run_grows analyzer cycles st) as (added & Hrows & Hfresh).
  pose proof (Run_decoded analyzer cycles st) as Hdec.
  unfold Decoded in Hdec. rewrite Forall_forall in Hdec.
  pose proof (Hdec _ Hev result eq_refl) as (_ & _ & Htags).
  destruct (fresh_row_of_save _ _ _ _ Hfresh (savedOk_in _ _ _ Hev))
    as (row & now & newid & Hin & Hrow).
  set (final := fst (service.Run analyzer cycles st)) in *.
  assert (Hsel : In row (storage.selectRelevant final limit)).
  { apply selectRelevant_all; [|subst row; cbn; now rewrite Hrel|assumption].
    rewrite Hrows. apply in_app_iff. now right. }
  assert (H0 : 0 <= limit) by lia.
  exists (map storage.scanRow (storage.selectRelevant final limit)),
         (storage.scanRow row).
  split.
  { unfold service.itemsHandler, storage.ListRelevant. cbn [orb].
    destruct (Z.ltb_spec limit 0); [lia|reflexivity]. }
  split; [now apply in_map|].
  assert (Ht : storage.Tags (storage.scanRow row) = analysis.Tags result).
  { rewrite Hrow, (scanRow_tags _ (analysis.Tags result)) by reflexivity.
    now apply tags_coerced. }
  rewrite Ht. subst row. cbn. rewrite Hrel. repeat split.
Qed.

Lemma saved_relevant_items_are_listed_witness :
  exists items listed,
    service.itemsHandler
      false
      (fst (service.Run Sample.analyzer [Sample.cycleAll] storage.emptyStore))
      50
    = service.Status200Items (Z.of_nat (length items)) items
    /\ In listed items
    /\ storage.GUID listed = rss.GUID Sample.itemA
    /\ storage.Title listed = rss.Title Sample.itemA
    /\ storage.Link listed = rss.Link Sample.itemA
    /\ storage.PublishedAt listed = rss.PublishedAt Sample.itemA
    /\ storage.Category listed = analysis.Category Sample.resultA
    /\ storage.Reason listed = analysis.Reason Sample.resultA
    /\ storage.Tags listed = analysis.Tags Sample.resultA
    /\ storage.Relevant listed = true.
Proof.
  apply (saved_relevant_items_are_listed
           Sample.analyzer [Sample.cycleAll] storage.emptyStore
           Sample.itemA Sample.resultA 50).
  - vm_compute. right. right. right. right. left. reflexivity.
  - reflexivity.
  - vm_compute. discriminate.
Defined.

(** X8. Every string of a verdict that [Evaluate] returns (category,
    reason, each tag) is well-formed UTF-8, whatever bytes the model
    sent; such strings pass through [Marshal] and [Unmarshal]
    unchanged. *)
Theorem Evaluate_returns_wellFormed :
  forall (analyzer : analysis.Client) (chat : analysis.ChatOutcome)
         (item : analysis.ItemContext) (reqs : list analysis.ChatRequest)
         (out : analysis.Result),
    analysis.Evaluate analyzer chat item = (reqs, analysis.Done out) ->
    wellFormed (analysis.Category out)
    /\ wellFormed (analysis.Reason out)
    /\ (forall l tag, analysis.Tags out = Some l -> In tag l -> wellFormed tag)
    /\ coerced (analysis.Category out) = analysis.Category out
    /\ coerced (analysis.Reason out) = analysis.Reason out.
Proof.
  intros analyzer chat item reqs out H.
  apply Evaluate_wellFormed in H. destruct H as (Hc & Hr & Ht).
  split; [assumption|]. split; [assumption|]. split.
  - intros l tag Hl Hin. rewrite Hl in Ht. rewrite Forall_forall in Ht. auto.
  - split; now apply coerced_wellFormed.
Qed.

Lemma Evaluate_returns_wellFormed_witness :
  wellFormed (analysis.Category Sample.resultA)
  /\ wellFormed (analysis.Reason Sample.resultA)
  /\ (forall l tag,
        analysis.Tags Sample.resultA = Some l -> In tag l -> wellFormed tag)
  /\ coerced (analysis.Category Sample.resultA)
     = analysis.Category Sample.resultA
  /\ coerced (analysis.Reason Sample.resultA) = analysis.Reason Sample.resultA.
Proof.
  apply (Evaluate_returns_wellFormed
           Sample.analyzer (analysis.ChatChoices [Sample.answerRelevant])
           (service.itemContext Sample.itemA)
           [analysis.userPrompt (service.itemContext Sample.itemA)]
           Sample.resultA).
  vm_compute. reflexivity.
Defined.

(** ** What [Fetch] keeps *)

(** The test of the loop of [Fetch], and the item built for an entry
    that passes it. *)
Definition kept (entry : gofeed.Item) : bool :=
  Contains (rss.pickGUID entry) rss.newsletter
  || Contains (gofeed.Link entry) rss.newsletter.

Definition normalized (now : Z) (entry : gofeed.Item) : rss.Item :=
  {| rss.GUID := rss.pickGUID entry;
     rss.Title := gofeed.Title entry;
     rss.Link := gofeed.Link entry;
     rss.PublishedAt := match gofeed.PublishedParsed entry with
                        | Some t => t
                        | None => now
                        end;
     rss.Description := gofeed.Description entry |}.

Lemma collect_cons clock i entry rest :
  rss.collect clock i (entry :: rest)
  = if kept entry
    then normalized (clock i) entry :: rss.collect clock (S i) rest
    else rss.collect clock (S i) rest.
Proof.
  cbn [rss.collect]. cbv zeta. unfold kept.
  destruct (Contains (rss.pickGUID entry) rss.newsletter),
           (Contains (gofeed.Link entry) rss.newsletter); reflexivity.
Qed.

Lemma collect_fields clock i entries :
  map rss.GUID (rss.collect clock i entries)
  = map rss.pickGUID (filter kept entries)
  /\ map rss.Title (rss.collect clock i entries)
     = map gofeed.Title (filter kept entries)
  /\ map rss.Link (rss.collect clock i entries)
     = map gofeed.Link (filter kept entries)
  /\ map rss.Description (rss.collect clock i entries)
     = map gofeed.Description (filter kept entries).
Proof.
  revert i. induction entries as [|entry rest IH]; intros i.
  - repeat split.
  - rewrite collect_cons. cbn [filter].
    destruct (IH (S i)) as (H1 & H2 & H3 & H4).
    destruct (kept entry); cbn [map]; [|now repeat split].
    rewrite H1, H2, H3, H4. repeat split.
Qed.

Lemma collect_in clock i entries k entry :
  nth_error entries k = Some entry -> kept entry = true ->
  In (normalized (clock (i + k)%nat) entry) (rss.collect clock i entries).
Proof.
  revert i k. induction entries as [|e rest IH]; intros i k Hk Hkept.
  - now destruct k.
  - rewrite collect_cons. destruct k as [|k].
    + injection Hk as ->. rewrite Hkept, Nat.add_0_r. now left.
    + cbn [nth_error] in Hk.
      replace (i + S k)%nat with (S i + k)%nat by lia.
      destruct (kept e); [right|]; now apply IH.
Qed.

Lemma collect_from clock i entries item :
  In item (rss.collect clock i entries) ->
  exists k entry,
    nth_error entries k = Some entry /\ kept entry = true
    /\ item = normalized (clock (i + k)%nat) entry.
Proof.
  revert i. induction entries as [|e rest IH]; intros i Hin; [destruct Hin|].
  rewrite collect_cons in Hin. destruct (kept e) eqn:Hk.
  - destruct Hin as [<-|Hin].
    + exists 0%nat, e. rewrite Nat.add_0_r. auto.
    + destruct (IH _ Hin) as (k & entry & H1 & H2 & H3).
      exists (S k), entry.
      replace (i + S k)%nat with (S i + k)%nat by lia. auto.
  - destruct (IH _ Hin) as (k & entry & H1 & H2 & H3).
    exists (S k), entry. replace (i + S k)%nat with (S i + k)%nat by lia. auto.
Qed.

Lemma marked_is_kept (entry : gofeed.Item) :
  Contains (gofeed.GUID entry) rss.newsletter = true
  \/ Contains (gofeed.Link entry) rss.newsletter = true ->
  kept entry = true.
Proof.
  unfold kept. intros [H|H]; [|rewrite H; apply orb_true_r].
  assert (Hne : gofeed.GUID entry <> [])
    by (apply (Contains_nonempty _ _ H); discriminate).
  unfold rss.pickGUID.
  destruct (gofeed.GUID entry) eqn:E; [congruence|]. cbn [rss.isEmpty negb].
  now rewrite H.
Qed.

(** X9. When the feed is parsed, [Fetch] returns the entries that pass
    its test, in feed order, with title, link and description copied
    and the identifier chosen by [pickGUID]; it never returns more items
    than entries.  Every entry whose GUID field or link contains
    "/newsletter/" yields its item, published at the entry's date or,
    without one, at the clock reading taken for that entry; and every
    item returned is built in this way from some entry. *)
Theorem Fetch_keeps_marked_entries_in_order :
  forall (entries : list gofeed.Item) (clock : nat -> Z),
  exists items,
    rss.Fetch (Some entries) clock = Some items
    /\ map rss.GUID items = map rss.pickGUID (filter kept entries)
    /\ map rss.Title items = map gofeed.Title (filter kept entries)
    /\ map rss.Link items = map gofeed.Link (filter kept entries)
    /\ map rss.Description items
       = map gofeed.Description (filter kept entries)
    /\ (length items <= length entries)%nat
    /\ (forall k entry,
          nth_error entries k = Some entry ->
          Contains (gofeed.GUID entry) rss.newsletter = true
          \/ Contains (gofeed.Link entry) rss.newsletter = true ->
          In (normalized (clock k) entry) items)
    /\ (forall item,
          In item items ->
          exists k entry,
            nth_error entries k = Some entry
            /\ item = normalized (clock k) entry).
Proof.
  intros entries clock. exists (rss.collect clock 0 entries).
  destruct (collect_fields clock 0 entries) as (H1 & H2 & H3 & H4).
  split; [reflexivity|]. repeat (split; [assumption|]). split.
  { rewrite <- (length_map rss.GUID), H1, length_map.
    apply filter_length_le. }
  split.
  - intros k entry Hk Hm.
    apply (collect_in clock 0 entries k entry Hk (marked_is_kept _ Hm)).
  - intros item Hin.
    destruct (collect_from clock 0 entries item Hin) as (k & entry & ? & _ & ?).
    now exists k, entry.
Qed.

(** ** Polling an unchanged feed again *)

(** Every call made for the item succeeds. *)
Definition succeeds (analyzer : analysis.Client)
           (p : rss.Item * service.Fate) : Prop :=
  service.existsFails (snd p) = false
  /\ service.saveFails (snd p) = false
  /\ exists reqs result,
       analysis.Evaluate analyzer (service.chat (snd p))
                         (service.itemContext (fst p))
       = (reqs, analysis.Done result).

Lemma step_succeeds analyzer f st item st' evs :
  ItemStep analyzer f st item st' evs ->
  succeeds analyzer (item, f) -> present st' (rss.GUID item).
Proof.
  intros H (Hx & Hs & reqs0 & result0 & He). cbn [fst snd] in *.
  destruct H; try congruence.
  apply upsert_stores.
Qed.

Lemma pollItems_all_present analyzer batch st :
  Forall (succeeds analyzer) batch ->
  Forall (fun p => present (fst (service.pollItems analyzer batch st))
                           (rss.GUID (fst p))) batch.
Proof.
  revert st. induction batch as [|[item f] batch IH]; intros st Hall;
    [constructor|].
  inversion Hall as [|? ? Hhead Htail]; subst.
  rewrite pollItems_cons. cbn [fst]. constructor; [|now apply IH].
  apply pollItems_keeps.
  eapply step_succeeds; [apply processItem_step|exact Hhead].
Qed.

Lemma processItem_present analyzer f st item :
  present st (rss.GUID item) ->
  service.processItem analyzer f st item
  = (st, [service.EvExists (rss.GUID item)]).
Proof.
  intros H. unfold service.processItem, storage.Exists.
  destruct (service.existsFails f); [reflexivity|].
  unfold present in H. now rewrite H.
Qed.

Lemma pollItems_present analyzer batch st :
  Forall (fun p => present st (rss.GUID (fst p))) batch ->
  service.pollItems analyzer batch st
  = (st, map (fun p => service.EvExists (rss.GUID (fst p))) batch).
Proof.
  induction 1 as [|[item f] batch Hhead _ IH]; [reflexivity|].
  rewrite pollItems_cons, processItem_present by exact Hhead.
  cbn [fst snd]. now rewrite IH.
Qed.

Lemma collect_guids clock clock' i j entries :
  map rss.GUID (rss.collect clock i entries)
  = map rss.GUID (rss.collect clock' j entries).
Proof.
  destruct (collect_fields clock i entries) as (-> & _).
  now destruct (collect_fields clock' j entries) as (-> & _).
Qed.

Lemma attach_guids fates i items :
  map (fun p => rss.GUID (fst p)) (service.attach fates i items)
  = map rss.GUID items.
Proof.
  rewrite <- (attach_items fates i items) at 2. now rewrite map_map.
Qed.

(** X10. After a cycle in which every call made for every fetched item
    succeeds, a second cycle over the same feed, whatever the
    collaborators would answer, leaves the table as it is and makes only
    the fetch and one [Exists] query per item: no classification, no
    write, no notification. *)
Theorem repeated_poll_is_idle :
  forall (analyzer : analysis.Client) (c1 c2 : service.Cycle)
         (st : storage.Store) (items : list rss.Item),
    rss.Fetch (service.parsed c1) (service.clock c1) = Some items ->
    Forall (succeeds analyzer) (service.attach (service.fates c1) 0 items) ->
    service.parsed c2 = service.parsed c1 ->
    service.pollOnce analyzer c2 (fst (service.pollOnce analyzer c1 st))
    = (fst (service.pollOnce analyzer c1 st),
       service.EvFetch :: map service.EvExists (map rss.GUID items)).
Proof.
  intros analyzer c1 c2 st items Hf Hall Hsame.
  rewrite (pollOnce_fetched analyzer c1 st items Hf). cbn [fst].
  set (st1 := fst (service.pollItems
                     analyzer (service.attach (service.fates c1) 0 items) st)).
  unfold rss.Fetch in Hf.
  destruct (service.parsed c1) as [entries|] eqn:Hp; [|discriminate].
  injection Hf as <-.
  set (items2 := rss.collect (service.clock c2) 0 entries).
  assert (Hf2 : rss.Fetch (service.parsed c2) (service.clock c2) = Some items2)
    by (now rewrite Hsame).
  rewrite (pollOnce_fetched analyzer c2 st1 items2 Hf2).
  assert (Hg : map rss.GUID items2
               = map rss.GUID (rss.collect (service.clock c1) 0 entries))
    by apply collect_guids.
  rewrite pollItems_present.
  - cbn [fst snd]. f_equal. f_equal.
    rewrite <- Hg, <- (attach_guids (service.fates c2) 0 items2).
    now rewrite map_map.
  - apply Forall_forall. intros p Hin.
    assert (Hin' : In (rss.GUID (fst p)) (map rss.GUID items2)).
    { rewrite <- (attach_guids (service.fates c2) 0 items2).
      now apply (in_map (fun p => rss.GUID (fst p))). }
    rewrite Hg, <- (attach_guids (service.fates c1) 0) in Hin'.
    apply in_map_iff in Hin'. destruct Hin' as (q & Hq & Hqin).
    pose proof (pollItems_all_present analyzer _ st Hall) as Hpres.
    rewrite Forall_forall in Hpres. specialize (Hpres q Hqin).
    fold st1 in Hpres. now rewrite Hq in Hpres.
Qed.

Lemma repeated_poll_is_idle_witness :
  service.pollOnce
    Sample.analyzer Sample.cycleFirstFails
    (fst (service.pollOnce Sample.analyzer Sample.cycleAll storage.emptyStore))
  = (fst (service.pollOnce Sample.analyzer Sample.cycleAll storage.emptyStore),
     service.EvFetch
       :: map service.EvExists
              (map rss.GUID [Sample.itemA; Sample.itemB])).
Proof.
  apply (repeated_poll_is_idle
           Sample.analyzer Sample.cycleAll Sample.cycleFirstFails
           storage.emptyStore [Sample.itemA; Sample.itemB]).
  - vm_compute. reflexivity.
  - cbn [service.attach].
    apply Forall_cons; [|apply Forall_cons; [|apply Forall_nil]];
      (split; [reflexivity|];
       split; [reflexivity|];
       eexists; eexists; vm_compute; reflexivity).
  - reflexivity.
Defined.

(** ** The store of a run *)

Lemma Forall2_fresh_rows (added : list storage.Row)
      (saved : list (rss.Item * analysis.Result)) :
  Forall2 freshRow added saved ->
  Forall (fun r => storage.created_at r = storage.updated_at r) added.
Proof.
  induction 1 as [|r s added saved (now & newid & ->) _ IH]; constructor;
    [reflexivity|assumption].
Qed.

(** X11. In the table that a run builds from the empty table no two
    rows share a GUID, ids increase strictly in insertion order, every
    row has a published time, and no row has been updated since its
    creation. *)
Theorem Run_store_well_formed :
  forall (analyzer : analysis.Client) (cycles : list service.Cycle),
    NoDup (map storage.guid
               (storage.rows
                  (fst (service.Run analyzer cycles storage.emptyStore))))
    /\ StronglySorted
         (fun a b => storage.id a < storage.id b)
         (storage.rows (fst (service.Run analyzer cycles storage.emptyStore)))
    /\ Forall (fun r =>
                 storage.published_at r <> None
                 /\ storage.created_at r = storage.updated_at r)
              (storage.rows
                 (fst (service.Run analyzer cycles storage.emptyStore))).
Proof.
  intros analyzer cycles.
  destruct (wf_Run analyzer cycles storage.emptyStore wf_emptyStore)
    as [Hids _ Hg Hp].
  destruct (Run_grows analyzer cycles storage.emptyStore)
    as (added & Hrows & Hfresh).
  cbn [storage.emptyStore storage.rows app] in Hrows.
  split; [assumption|]. split; [assumption|].
  apply Forall_forall. intros r Hr. split.
  - rewrite Forall_forall in Hp. now apply Hp.
  - rewrite Hrows in Hr. apply Forall2_fresh_rows in Hfresh.
    rewrite Forall_forall in Hfresh. now apply Hfresh.
Qed.

(** ** Opening the store *)

Lemma ensureSchema_table fail db db' :
  storage.ensureSchema fail db = (db', true) ->
  db' = storage.Table (storage.tableOf db)
  /\ db <> storage.NoDatabase.
Proof.
  unfold storage.ensureSchema. destruct fail; [discriminate|].
  destruct db; intros [= <-]; split; (reflexivity || discriminate).
Qed.

Lemma ensureSchema_keeps fail db :
  storage.tableOf (fst (storage.ensureSchema fail db)) = storage.tableOf db.
Proof. unfold storage.ensureSchema. destruct fail, db; reflexivity. Qed.

Lemma createDatabase_keeps db :
  storage.tableOf (storage.createDatabase db) = storage.tableOf db.
Proof. now destruct db. Qed.

Lemma NewMySQLStore_opened d cfg db db' st :
  storage.NewMySQLStore d cfg db = (db', Ok st) ->
  db' = storage.Table st /\ st = storage.tableOf db.
Proof.
  unfold storage.NewMySQLStore.
  destruct (storage.openRootFails d); [discriminate|].
  destruct (storage.pingRootFails d); [discriminate|].
  destruct (storage.createFails d); [discriminate|].
  destruct (storage.openFails d); [discriminate|].
  destruct (storage.pingFails d); [discriminate|].
  destruct (storage.ensureSchema _ _) as [db2 [|]] eqn:E; [|discriminate].
  intros [= <- <-]. apply ensureSchema_table in E. destruct E as [-> _].
  cbn [storage.tableOf]. now rewrite createDatabase_keeps.
Qed.

Lemma NewMySQLStore_table d cfg st :
  fst (storage.NewMySQLStore d cfg (storage.Table st)) = storage.Table st.
Proof.
  unfold storage.NewMySQLStore.
  cbn [storage.createDatabase storage.ensureSchema].
  destruct (storage.openRootFails d); [reflexivity|].
  destruct (storage.pingRootFails d); [reflexivity|].
  destruct (storage.createFails d); [reflexivity|].
  destruct (storage.openFails d); [reflexivity|].
  destruct (storage.pingFails d); [reflexivity|].
  now destruct (storage.schemaFails d).
Qed.

Lemma NewMySQLStore_tableOf d cfg db :
  storage.tableOf (fst (storage.NewMySQLStore d cfg db)) = storage.tableOf db.
Proof.
  unfold storage.NewMySQLStore.
  destruct (storage.openRootFails d); [reflexivity|].
  destruct (storage.pingRootFails d); [reflexivity|].
  destruct (storage.createFails d); [reflexivity|].
  destruct (storage.openFails d); [apply createDatabase_keeps|].
  destruct (storage.pingFails d); [apply createDatabase_keeps|].
  pose proof (ensureSchema_keeps (storage.schemaFails d)
                                 (storage.createDatabase db)) as H.
  destruct (storage.ensureSchema _ _) as [db2 [|]]; cbn [fst] in *;
    now rewrite H, createDatabase_keeps.
Qed.

(** X12. [NewMySQLStore] never loses a row: whether it succeeds or
    fails at any step, the table holds afterwards what it held before.
    When it succeeds the store returned is that table, created empty if
    the database or the table did not exist; when no step fails it
    succeeds; when [ensureSchema] fails it returns an error. *)
Theorem NewMySQLStore_keeps_rows :
  forall (d : storage.Dial) (cfg : config.Config) (db : storage.Database),
    storage.tableOf (fst (storage.NewMySQLStore d cfg db)) = storage.tableOf db
    /\ (forall st,
          snd (storage.NewMySQLStore d cfg db) = Ok st ->
          st = storage.tableOf db
          /\ fst (storage.NewMySQLStore d cfg db) = storage.Table st)
    /\ storage.NewMySQLStore Sample.reachable cfg db
       = (storage.Table (storage.tableOf db), Ok (storage.tableOf db))
    /\ storage.NewMySQLStore Sample.reachable cfg storage.NoDatabase
       = (storage.Table storage.emptyStore, Ok storage.emptyStore)
    /\ (storage.schemaFails d = true ->
        snd (storage.NewMySQLStore d cfg db) = Err).
Proof.
  intros d cfg db. split; [apply NewMySQLStore_tableOf|].
  split; [|split; [|split]].
  - intros st Hst.
    destruct (storage.NewMySQLStore d cfg db) as [db' r] eqn:E.
    cbn [snd] in Hst. subst r. apply NewMySQLStore_opened in E.
    destruct E as [-> ->]. now split.
  - now destruct db.
  - reflexivity.
  - intros Hs. unfold storage.NewMySQLStore. rewrite Hs.
    destruct (storage.openRootFails d); [reflexivity|].
    destruct (storage.pingRootFails d); [reflexivity|].
    destruct (storage.createFails d); [reflexivity|].
    destruct (storage.openFails d); [reflexivity|].
    destruct (storage.pingFails d); reflexivity.
Qed.

(** ** The command *)

Lemma main_stopped env d db cycles db' trace :
  aiweb3news.main env d db cycles = aiweb3news.Stopped db' trace ->
  storage.NewMySQLStore d (config.Load env) db
  = (storage.Table (storage.tableOf db), Ok (storage.tableOf db))
  /\ db' = storage.Table
             (fst (service.Run
                     (analysis.NewClient (config.OpenAIKey (config.Load env)))
                     cycles (storage.tableOf db)))
  /\ trace = snd (service.Run
                    (analysis.NewClient (config.OpenAIKey (config.Load env)))
                    cycles (storage.tableOf db)).
Proof.
  unfold aiweb3news.main. cbv zeta.
  destruct (storage.NewMySQLStore _ _ _) as [db1 [st|]] eqn:E; [|discriminate].
  apply NewMySQLStore_opened in E. destruct E as [-> ->].
  destruct (service.Run _ _ _) as [st' evs]. intros [= <- <-]. auto.
Qed.

Lemma main_fatal env d db cycles db' :
  aiweb3news.main env d db cycles = aiweb3news.Fatal db' ->
  storage.tableOf db' = storage.tableOf db.
Proof.
  unfold aiweb3news.main. cbv zeta.
  pose proof (NewMySQLStore_tableOf d (config.Load env) db) as H.
  destruct (storage.NewMySQLStore _ _ _) as [db1 [st|]] eqn:E.
  - now destruct (service.Run _ _ _).
  - intros [= <-]. exact H.
Qed.

Lemma NewClient_ready (apiKey : bytes) :
  analysis.Ready (analysis.NewClient apiKey) = negb (beq apiKey []).
Proof.
  unfold analysis.Ready, analysis.NewClient. cbn. now destruct (beq apiKey []).
Qed.

(** X13. Without OPENAI_API_KEY (unset or empty) the command still
    polls, but the analyzer is not ready: over any number of cycles the
    table stays as it was opened and the trace holds only fetches,
    [Exists] queries and [Evaluate] calls; no chat request is sent,
    nothing is written and nothing is notified. *)
Theorem missing_api_key_disables_pipeline :
  forall (env : os.Environ) (d : storage.Dial) (db : storage.Database)
         (cycles : list service.Cycle) (db' : storage.Database)
         (trace : list service.Event),
    os.Getenv env (lit "OPENAI_API_KEY") = [] ->
    aiweb3news.main env d db cycles = aiweb3news.Stopped db' trace ->
    db' = storage.Table (storage.tableOf db) /\ Forall quietEvent trace.
Proof.
  intros env d db cycles db' trace Hkey Hmain.
  apply main_stopped in Hmain. destruct Hmain as (_ & -> & ->).
  assert (Hr : analysis.Ready
                 (analysis.NewClient (config.OpenAIKey (config.Load env)))
               = false).
  { rewrite NewClient_ready. unfold config.Load. cbn [config.OpenAIKey].
    now rewrite Hkey. }
  destruct (Run_idle _ cycles (storage.tableOf db) Hr) as [-> Hq].
  now split.
Qed.

Lemma missing_api_key_disables_pipeline_witness :
  aiweb3news.main (fun _ => None) Sample.reachable storage.NoDatabase
                  [Sample.cycleAll]
  = aiweb3news.Stopped
      (storage.Table storage.emptyStore)
      [service.EvFetch;
       service.EvExists (rss.GUID Sample.itemA);
       service.EvEvaluate Sample.itemA;
       service.EvExists (rss.GUID Sample.itemB);
       service.EvEvaluate Sample.itemB]
  /\ storage.Table storage.emptyStore
     = storage.Table (storage.tableOf storage.NoDatabase)
  /\ Forall quietEvent
            [service.EvFetch;
             service.EvExists (rss.GUID Sample.itemA);
             service.EvEvaluate Sample.itemA;
             service.EvExists (rss.GUID Sample.itemB);
             service.EvEvaluate Sample.itemB].
Proof.
  split; [reflexivity|].
  apply (missing_api_key_disables_pipeline
           (fun _ => None) Sample.reachable storage.NoDatabase
           [Sample.cycleAll]);
    reflexivity.
Defined.

(** X14. A restart keeps what is stored: started on a server whose
    table already holds a row for some identifier, the command either
    stops at initialisation with the table untouched, or runs and leaves
    that row identical, the old rows in place before any new ones, and
    makes no [Evaluate], chat, [SaveAnalysis] or webhook call for that
    identifier. *)
Theorem restart_keeps_known_items :
  forall (env : os.Environ) (d : storage.Dial) (st : storage.Store)
         (cycles : list service.Cycle) (g : bytes) (row : storage.Row),
    storage.lookup st g = Some row ->
    match aiweb3news.main env d (storage.Table st) cycles with
    | aiweb3news.Fatal db' => db' = storage.Table st
    | aiweb3news.Stopped db' trace =>
      exists st' added,
        db' = storage.Table st'
        /\ storage.rows st' = storage.rows st ++ added
        /\ storage.lookup st' g = Some row
        /\ Forall (fun e => ~ concerns g e) trace
    end.
Proof.
  intros env d st cycles g row Hrow.
  destruct (aiweb3news.main env d (storage.Table st) cycles)
    as [db'|db' trace] eqn:E.
  - unfold aiweb3news.main in E. cbv zeta in E.
    pose proof (NewMySQLStore_table d (config.Load env) st) as H.
    destruct (storage.NewMySQLStore _ _ _) as [db1 [s|]].
    + now destruct (service.Run _ _ _).
    + injection E as <-. exact H.
  - apply main_stopped in E. destruct E as (_ & -> & ->).
    cbn [storage.tableOf].
    set (analyzer := analysis.NewClient (config.OpenAIKey (config.Load env))).
    destruct (Run_grows analyzer cycles st) as (added & Hrows & _).
    destruct (Run_known_untouched analyzer cycles st g row Hrow) as [Hl Hq].
    exists (fst (service.Run analyzer cycles st)), added. auto.
Qed.

Lemma restart_keeps_known_items_witness :
  match aiweb3news.main (fun _ => None) Sample.reachable
                        (storage.Table Sample.storeA) [Sample.cycleAll] with
  | aiweb3news.Fatal db' => db' = storage.Table Sample.storeA
  | aiweb3news.Stopped db' trace =>
    exists st' added,
      db' = storage.Table st'
      /\ storage.rows st' = storage.rows Sample.storeA ++ added
      /\ storage.lookup st' (lit "a1") = Some Sample.rowA
      /\ Forall (fun e => ~ concerns (lit "a1") e) trace
  end.
Proof.
  apply (restart_keeps_known_items
           (fun _ => None) Sample.reachable Sample.storeA [Sample.cycleAll]
           (lit "a1") Sample.rowA).
  reflexivity.
Defined.

(** X15. With the limit that [Load] provides, the /items handler
    answers 500 when the query fails; otherwise it answers with a list
    whose length is the count reported, at most the configured limit
    and at most the number of rows, and at most 50 when MAX_ITEMS is
    unset. *)
Theorem itemsHandler_configured_limit :
  forall (env : os.Environ) (st : storage.Store),
    service.itemsHandler true st (config.MaxItems (config.Load env))
    = service.Status500
    /\ exists items,
         service.itemsHandler false st (config.MaxItems (config.Load env))
         = service.Status200Items (Z.of_nat (length items)) items
         /\ Z.of_nat (length items) <= config.MaxItems (config.Load env)
         /\ (length items <= length (storage.rows st))%nat
         /\ (os.Getenv env (lit "MAX_ITEMS") = [] ->
             Z.of_nat (length items) <= 50).
Proof.
  intros env st. split; [reflexivity|].
  assert (Hpos : 0 < config.MaxItems (config.Load env)).
  { unfold config.Load. cbn [config.MaxItems].
    apply intWithDefault_positive. reflexivity. }
  set (limit := config.MaxItems (config.Load env)) in *.
  exists (map storage.scanRow (storage.selectRelevant st limit)).
  assert (Hlen : (length (storage.selectRelevant st limit)
                  <= Nat.min (Z.to_nat limit) (length (storage.rows st)))%nat).
  { unfold storage.selectRelevant. rewrite length_firstn.
    rewrite (Permutation_length (orderBy_perm _)).
    pose proof (filter_length_le (fun r => storage.relevant r =? 1)
                                 (storage.rows st)). lia. }
  rewrite length_map. split.
  { unfold service.itemsHandler, storage.ListRelevant. cbn [orb].
    destruct (Z.ltb_spec limit 0); [lia|]. now rewrite length_map. }
  split; [lia|]. split; [lia|].
  intros Hunset.
  assert (limit = 50).
  { unfold limit, config.Load, config.intWithDefault. cbn [config.MaxItems].
    now rewrite Hunset. }
  lia.
Qed.

(** ** Answers without a fence line *)

Lemma Index_no_newline (s : bytes) :
  ~ In "010"%char s -> Index s analysis.newline = -1.
Proof.
  unfold analysis.newline. induction s as [|c t IH]; intros H; [reflexivity|].
  cbn [Index HasPrefix].
  destruct (Ascii.eqb_spec c "010"%char) as [->|Hc];
    [exfalso; apply H; now left|].
  cbn [andb]. rewrite IH by (intros Hin; apply H; now right). reflexivity.
Qed.

(** A JSON object on one line. *)
Definition object (mid : bytes) : bytes := lit "{" ++ mid ++ lit "}".

Lemma object_shape (mid : bytes) : object mid = "{"%char :: mid ++ ["}"%char].
Proof. reflexivity. Qed.

Lemma TrimSpace_object (mid : bytes) : TrimSpace (object mid) = object mid.
Proof.
  rewrite object_shape.
  apply TrimSpace_graphic; [apply graphic_lbrace|apply graphic_rbrace].
Qed.

Lemma cleanupResponse_bare (mid : bytes) :
  analysis.cleanupResponse (object mid)
  = ReplaceAll (object mid) analysis.nullCategory analysis.emptyCategory.
Proof.
  unfold analysis.cleanupResponse. rewrite TrimSpace_object.
  cbv zeta. rewrite object_shape at 1.
  change analysis.fence with ("`"%char :: lit "``").
  now rewrite HasPrefix_head_differs by discriminate.
Qed.

Lemma cleanupResponse_one_line (tag mid : bytes) :
  tag = [] \/ tag = lit "json" ->
  ~ In "010"%char mid ->
  analysis.cleanupResponse (analysis.fence ++ tag ++ object mid
                              ++ analysis.fence)
  = ReplaceAll (object mid) analysis.nullCategory analysis.emptyCategory.
Proof.
  intros Htag Hmid. unfold analysis.cleanupResponse.
  assert (Hs : analysis.fence ++ tag ++ object mid ++ analysis.fence
               = analysis.fence ++ (tag ++ object mid) ++ analysis.fence)
    by (now rewrite <- !app_assoc).
  rewrite Hs, TrimSpace_fenced, HasPrefix_app, <- Hs. clear Hs.
  rewrite Index_no_newline.
  2:{ intros Hin. apply in_app_iff in Hin. destruct Hin as [Hin|Hin].
      - vm_compute in Hin. intuition discriminate.
      - apply in_app_iff in Hin. destruct Hin as [Hin|Hin].
        + destruct Htag as [-> | ->]; vm_compute in Hin; intuition discriminate.
        + rewrite object_shape in Hin. cbn [app In] in Hin.
          destruct Hin as [Hin|Hin]; [discriminate|].
          rewrite !in_app_iff in Hin. cbn [In] in Hin.
          destruct Hin as [[Hin|[Hin|[]]]|Hin]; try discriminate; auto.
          vm_compute in Hin. intuition discriminate. }
  change (-1 =? -1) with true. cbn [negb]. cbv zeta.
  assert (Hstrip : TrimPrefix
                     (TrimPrefix (analysis.fence ++ tag ++ object mid
                                    ++ analysis.fence) analysis.fenceJson)
                     analysis.fence
                   = object mid ++ analysis.fence).
  { destruct Htag as [-> | ->]; rewrite object_shape; reflexivity. }
  rewrite Hstrip, TrimSuffix_app, TrimSpace_object. reflexivity.
Qed.

(** X16. An answer that is a JSON object on one line goes through
    [cleanupResponse] with nothing but the null coercion applied, and
    the same object wrapped in a fence on that one line, with no
    language tag or with the tag json, is cleaned to the same text; so
    [Evaluate] decodes the fenced one-line answer as it decodes the bare
    object. *)
Theorem cleanupResponse_without_fence_line :
  forall mid : bytes,
    ~ In "010"%char mid ->
    analysis.cleanupResponse (object mid)
    = ReplaceAll (object mid) analysis.nullCategory analysis.emptyCategory
    /\ analysis.cleanupResponse (analysis.fence ++ object mid ++ analysis.fence)
       = analysis.cleanupResponse (object mid)
    /\ analysis.cleanupResponse
         (analysis.fenceJson ++ object mid ++ analysis.fence)
       = analysis.cleanupResponse (object mid)
    /\ (forall analyzer item rest,
          analysis.Evaluate
            analyzer
            (analysis.ChatChoices
               ((analysis.fenceJson ++ object mid ++ analysis.fence) :: rest))
            item
          = analysis.Evaluate
              analyzer (analysis.ChatChoices [object mid]) item).
Proof.
  intros mid Hmid. rewrite cleanupResponse_bare.
  assert (H1 := cleanupResponse_one_line [] mid (or_introl eq_refl) Hmid).
  assert (H2 := cleanupResponse_one_line (lit "json") mid
                                         (or_intror eq_refl) Hmid).
  cbn [app] in H1.
  assert (H3 : analysis.fence ++ lit "json" ++ object mid ++ analysis.fence
               = analysis.fenceJson ++ object mid ++ analysis.fence)
    by reflexivity.
  rewrite H3 in H2.
  split; [reflexivity|]. split; [exact H1|]. split; [exact H2|].
  intros analyzer item rest. unfold analysis.Evaluate.
  now rewrite H2, cleanupResponse_bare.
Qed.

Lemma cleanupResponse_without_fence_line_witness :
  analysis.cleanupResponse (object (jlit "'relevant': true"))
  = ReplaceAll (object (jlit "'relevant': true"))
               analysis.nullCategory analysis.emptyCategory
  /\ analysis.cleanupResponse
       (analysis.fence ++ object (jlit "'relevant': true") ++ analysis.fence)
     = analysis.cleanupResponse (object (jlit "'relevant': true"))
  /\ analysis.cleanupResponse
       (analysis.fenceJson ++ object (jlit "'relevant': true")
          ++ analysis.fence)
     = analysis.cleanupResponse (object (jlit "'relevant': true"))
  /\ (forall analyzer item rest,
        analysis.Evaluate
          analyzer
          (analysis.ChatChoices
             ((analysis.fenceJson ++ object (jlit "'relevant': true")
                 ++ analysis.fence) :: rest))
          item
        = analysis.Evaluate
            analyzer
            (analysis.ChatChoices [object (jlit "'relevant': true")]) item).
Proof.
  apply (cleanupResponse_without_fence_line (jlit "'relevant': true")).
  vm_compute. intuition discriminate.
Defined.

(** ** [trimText] again *)

Lemma wellFormed_runes (rs : list rune) :
  Forall (fun r => ValidRune r = true) rs -> wellFormed (stringOfRunes rs).
Proof. intros H. now exists rs. Qed.

(** X17. For a budget that is not negative, [trimText] applied to its
    own result changes nothing; a result that was cut is well-formed
    UTF-8 even if the input was not, and a well-formed input always
    gives a well-formed result. *)
Theorem trimText_idempotent :
  forall (s : bytes) (max : Z),
    0 <= max ->
    analysis.trimText (analysis.trimText s max) max = analysis.trimText s max
    /\ (max < Z.of_nat (length (runes s)) ->
        wellFormed (analysis.trimText s max))
    /\ (wellFormed s -> wellFormed (analysis.trimText s max)).
Proof.
  intros s max Hmax. split; [|split].
  - apply trimText_short. now apply trimText_budget.
  - intros Hlong. destruct (trimText_long s max Hmax Hlong) as [-> _].
    apply wellFormed_runes, Forall_firstn, runes_valid.
  - intros Hw.
    destruct (Z.le_gt_cases (Z.of_nat (length (runes s))) max) as [H|H].
    + now rewrite trimText_short.
    + destruct (trimText_long s max Hmax H) as [-> _].
      apply wellFormed_runes, Forall_firstn, runes_valid.
Qed.

Lemma trimText_idempotent_witness :
  analysis.trimText (analysis.trimText (lit " ab ") 1) 1
  = analysis.trimText (lit " ab ") 1
  /\ (1 < Z.of_nat (length (runes (lit " ab "))) ->
      wellFormed (analysis.trimText (lit " ab ") 1))
  /\ (wellFormed (lit " ab ") -> wellFormed (analysis.trimText (lit " ab ") 1)).
Proof. apply (trimText_idempotent (lit " ab ") 1). lia. Defined.

(** ** A verdict that does not say whether the item is relevant *)

(** No member of [m] sets the field [relevant]. *)
Definition silentOnRelevant (m : list (bytes * json.value)) : Prop :=
  Forall (fun kv =>
            json.findField analysis.fieldNames (fst kv) = Some (lit "relevant")
            -> snd kv = json.Null) m.

Lemma setField_relevant out name v out' :
  analysis.setField out name v = Some out' ->
  name <> lit "relevant" \/ v = json.Null ->
  analysis.Relevant out' = analysis.Relevant out.
Proof.
  unfold analysis.setField.
  destruct (beq name (lit "relevant")) eqn:E.
  - apply beq_true_iff in E. intros H [Hn| ->]; [contradiction|].
    now injection H as <-.
  - intros H _.
    repeat match type of H with
           | context [if ?b then _ else _] => destruct b
           end;
      destruct v; try discriminate; try (now injection H as <-).
    destruct (analysis.decodeTags _ _); [|discriminate].
    now injection H as <-.
Qed.

Lemma decodeMembers_relevant (m : list (bytes * json.value)) :
  forall out out',
    silentOnRelevant m ->
    analysis.decodeMembers out m = Some out' ->
    analysis.Relevant out' = analysis.Relevant out.
Proof.
  induction m as [|[k v] m IH]; intros out out' Hm H.
  - now injection H as <-.
  - inversion Hm as [|? ? Hkv Hm']; subst. cbn [fst snd] in Hkv.
    cbn [analysis.decodeMembers] in H.
    destruct (json.findField analysis.fieldNames k) as [name|] eqn:F;
      [|now apply IH].
    destruct (analysis.setField out name v) as [out1|] eqn:E; [|discriminate].
    rewrite (IH _ _ Hm' H). apply (setField_relevant _ _ _ _ E).
    destruct (list_eq_dec ascii_dec name (lit "relevant")) as [->|Hn];
      [right; now apply Hkv|now left].
Qed.

(** X18. When the cleaned answer is a JSON object in which no key
    selects the field [relevant] (in any letter case), or every such key
    holds null, a verdict decoded from it is not relevant, and handling
    the item makes no webhook call. *)
Theorem verdict_without_relevant_is_not_relevant :
  forall (analyzer : analysis.Client) (f : service.Fate)
         (st : storage.Store) (item : rss.Item)
         (content : bytes) (rest : list bytes)
         (m : list (bytes * json.value)),
    service.chat f = analysis.ChatChoices (content :: rest) ->
    json.parse (analysis.cleanupResponse content) = Some (json.Object m) ->
    silentOnRelevant m ->
    (forall reqs out,
        analysis.Evaluate analyzer (service.chat f) (service.itemContext item)
        = (reqs, analysis.Done out) ->
        analysis.Relevant out = false)
    /\ Forall (fun e => isNotify e = false)
              (snd (service.processItem analyzer f st item)).
Proof.
  intros analyzer f st item content rest m Hchat Hparse Hm.
  assert (Hrel : forall reqs out,
             analysis.Evaluate analyzer (service.chat f)
                               (service.itemContext item)
             = (reqs, analysis.Done out) ->
             analysis.Relevant out = false).
  { intros reqs out. rewrite Hchat. unfold analysis.Evaluate.
    destruct (negb _); [discriminate|].
    unfold analysis.Unmarshal. rewrite Hparse.
    destruct (analysis.decodeMembers _ m) as [o|] eqn:D; [|discriminate].
    intros [= _ <-]. now rewrite (decodeMembers_relevant _ _ _ Hm D). }
  split; [exact Hrel|].
  pose proof (processItem_step analyzer f st item) as Hstep.
  destruct Hstep as [?|? ?|reqs e ? ? He|reqs res ? ? He ?|reqs res ? ? He ?];
    repeat (apply Forall_app; split);
    try (apply Forall_forall; intros e' Hin; apply in_map_iff in Hin;
         destruct Hin as (? & <- & _); reflexivity);
    repeat constructor.
  rewrite (Hrel _ _ He). constructor.
Qed.

Lemma verdict_without_relevant_is_not_relevant_witness :
  (forall reqs out,
      analysis.Evaluate
        Sample.analyzer
        (service.chat (Sample.fateOf (jlit "{'reason': 'no verdict'}")))
        (service.itemContext Sample.itemA)
      = (reqs, analysis.Done out) ->
      analysis.Relevant out = false)
  /\ Forall (fun e => isNotify e = false)
            (snd (service.processItem
                    Sample.analyzer
                    (Sample.fateOf (jlit "{'reason': 'no verdict'}"))
                    storage.emptyStore Sample.itemA)).
Proof.
  apply (verdict_without_relevant_is_not_relevant
           Sample.analyzer (Sample.fateOf (jlit "{'reason': 'no verdict'}"))
           storage.emptyStore Sample.itemA
           (jlit "{'reason': 'no verdict'}") []
           [(lit "reason", json.String (lit "no verdict"))]).
  - reflexivity.
  - vm_compute. reflexivity.
  - constructor; [|constructor]. cbn [fst snd]. intros H.
    vm_compute in H. discriminate H.
Defined.

(** ** The body of the webhook request *)

Lemma parseValue_brace (f : nat) (t : bytes) :
  json.parseValue (S f) ("{"%char :: t)
  = match json.skipWS t with
    | c' :: t' =>
      if byteval c' =? 0x7D then json.Parsed (json.Object []) t'
      else match json.parseMembers (json.parseValue f) f t [] with
           | json.Parsed m r => json.Parsed (json.Object m) r
           | json.SyntaxError => json.SyntaxError
           | json.OutOfFuel => json.OutOfFuel
           end
    | [] => json.SyntaxError
    end.
Proof. reflexivity. Qed.

Lemma quote_head (s x : bytes) :
  json.quote s ++ x = dquote :: json.appendStringFrom 0 s ++ dquote :: x.
Proof. unfold json.quote. cbn [app]. now rewrite <- app_assoc. Qed.

Lemma parseValue_brace_quoted (f : nat) (k x : bytes) :
  json.parseValue (S f) ("{"%char :: json.quote k ++ x)
  = match json.parseMembers (json.parseValue f) f (json.quote k ++ x) [] with
    | json.Parsed m r => json.Parsed (json.Object m) r
    | json.SyntaxError => json.SyntaxError
    | json.OutOfFuel => json.OutOfFuel
    end.
Proof. rewrite parseValue_brace, quote_head. reflexivity. Qed.

(** One member whose key was written by [Marshal]. *)
Lemma parseMembers_quoted pv (n : nat) (k s3 : bytes)
      (acc : list (bytes * json.value)) :
  json.parseMembers pv (S n) (json.quote k ++ ":"%char :: s3) acc
  = match pv s3 with
    | json.SyntaxError => json.SyntaxError
    | json.OutOfFuel => json.OutOfFuel
    | json.Parsed v r =>
      match json.skipWS r with
      | c :: r' =>
        if byteval c =? 0x2C
        then json.parseMembers pv n r' ((coerced k, v) :: acc)
        else if byteval c =? 0x7D
        then json.Parsed (rev ((coerced k, v) :: acc)) r'
        else json.SyntaxError
      | [] => json.SyntaxError
      end
    end.
Proof.
  rewrite quote_head. cbn [json.parseMembers].
  change (json.skipWS (dquote :: ?t)) with (dquote :: t). cbv match.
  change (byteval dquote =? 34) with true. cbv match.
  unfold json.unquote. rewrite (unquote_appendString (length k)) by lia.
  cbn [rev app].
  change (json.skipWS (":"%char :: s3)) with (":"%char :: s3). cbv match.
  change (byteval ":" =? 58) with true. cbv match. reflexivity.
Qed.

Lemma webhookBody_shape (item : rss.Item) (result : analysis.Result) :
  service.webhookBody item result
  = "{"%char
      :: json.quote (lit "msgtype")
      ++ ":"%char
      :: json.quote (lit "text")
      ++ ","%char
      :: json.quote (lit "text")
      ++ ":"%char
      :: "{"%char
      :: json.quote (lit "content")
      ++ ":"%char
      :: json.quote (service.webhookContent item result)
      ++ lit "}}".
Proof.
  unfold service.webhookBody, json.MarshalMap.
  cbn [map json.joinComma fst snd].
  change (lit "{") with ["{"%char]. change (lit ":") with [":"%char].
  change (lit ",") with [","%char]. change (lit "}") with ["}"%char].
  change (lit "}}") with ["}"%char; "}"%char].
  repeat (rewrite <- app_assoc; cbn [app]). reflexivity.
Qed.

Lemma wellFormed_coerced_id (s : bytes) : coerced s = s -> wellFormed s.
Proof. intros <-. apply wellFormed_coerced. Qed.

Lemma wellFormed_webhookContent item result :
  wellFormed (rss.Title item) -> wellFormed (rss.Link item) ->
  wellFormed (analysis.Category result) ->
  wellFormed (analysis.Reason result) ->
  wellFormed (service.webhookContent item result).
Proof.
  intros Ht Hl Hc Hr. unfold service.webhookContent.
  repeat (apply wellFormed_app; [|]); try assumption;
    apply wellFormed_coerced_id; vm_compute; reflexivity.
Qed.

(** X19. The body of the webhook request is a JSON text that reads back
    as an object with [msgtype] set to text and [text.content] set to
    the message, every ill-formed byte replaced by U+FFFD; when title,
    link, category and reason are well-formed UTF-8 the content read
    back is the message exactly. *)
Theorem webhookBody_carries_content :
  forall (item : rss.Item) (result : analysis.Result),
    json.parse (service.webhookBody item result)
    = Some (json.Object
              [(lit "msgtype", json.String (lit "text"));
               (lit "text",
                json.Object
                  [(lit "content",
                    json.String
                      (coerced (service.webhookContent item result)))])])
    /\ (wellFormed (rss.Title item) -> wellFormed (rss.Link item) ->
        wellFormed (analysis.Category result) ->
        wellFormed (analysis.Reason result) ->
        coerced (service.webhookContent item result)
        = service.webhookContent item result).
Proof.
  intros item result. split.
  - unfold json.parse. rewrite webhookBody_shape.
    set (content := service.webhookContent item result).
    cbn [length]. rewrite parseValue_brace_quoted.
    match goal with
    | |- context [json.parseMembers (json.parseValue ?n) ?n _ _] =>
      assert (Hn : exists f, n = S (S (S f)))
    end.
    { rewrite !length_app. cbn [length].
      rewrite !Nat.add_succ_r. eexists. reflexivity. }
    destruct Hn as (f & ->).
    rewrite parseMembers_quoted, parseValue_quote.
    change (json.skipWS (","%char :: ?t)) with (","%char :: t). cbv match.
    change (byteval "," =? 44) with true. cbv match.
    rewrite parseMembers_quoted, parseValue_brace_quoted.
    rewrite parseMembers_quoted, parseValue_quote.
    reflexivity.
  - intros Ht Hl Hc Hr.
    now apply coerced_wellFormed, wellFormed_webhookContent.
Qed.

(** ** What a cycle costs *)

Definition isExistsQuery (e : service.Event) : bool :=
  match e with service.EvExists _ => true | _ => false end.

Definition isEvaluateCall (e : service.Event) : bool :=
  match e with service.EvEvaluate _ => true | _ => false end.

Definition isChatRequest (e : service.Event) : bool :=
  match e with service.EvChat _ _ => true | _ => false end.

Definition isSaveCall (e : service.Event) : bool :=
  match e with service.EvSaveAnalysis _ _ _ => true | _ => false end.

(** One [Exists] query, then at most one call of each later stage, each
    only after the stage before it. *)
Definition Budget (n : nat) (evs : list service.Event) : Prop :=
  count isExistsQuery evs = n
  /\ (count isNotify evs <= count isSaveCall evs)%nat
  /\ (count isSaveCall evs <= count isChatRequest evs)%nat
  /\ (count isChatRequest evs <= count isEvaluateCall evs)%nat
  /\ (count isEvaluateCall evs <= n)%nat.

Lemma Budget_app n1 n2 e1 e2 :
  Budget n1 e1 -> Budget n2 e2 -> Budget (n1 + n2) (e1 ++ e2).
Proof.
  unfold Budget. rewrite !count_app.
  intros (? & ? & ? & ? & ?) (? & ? & ? & ? & ?).
  repeat split; lia.
Qed.

Lemma Evaluate_requests analyzer chat item :
  (length (fst (analysis.Evaluate analyzer chat item)) <= 1)%nat
  /\ (forall out,
        snd (analysis.Evaluate analyzer chat item) = analysis.Done out ->
        length (fst (analysis.Evaluate analyzer chat item)) = 1%nat).
Proof.
  unfold analysis.Evaluate.
  destruct (negb _); [split; [simpl; lia|discriminate]|].
  destruct chat as [|[|c rest]]; try (split; [simpl; lia|discriminate]).
  destruct (analysis.Unmarshal _); split; simpl; auto.
Qed.

Lemma count_map_chat item reqs :
  count isChatRequest (map (service.EvChat item) reqs) = length reqs
  /\ count isExistsQuery (map (service.EvChat item) reqs) = 0%nat
  /\ count isEvaluateCall (map (service.EvChat item) reqs) = 0%nat
  /\ count isSaveCall (map (service.EvChat item) reqs) = 0%nat
  /\ count isNotify (map (service.EvChat item) reqs) = 0%nat.
Proof.
  unfold count. induction reqs as [|r reqs IH]; [repeat split|].
  cbn [map filter isChatRequest isExistsQuery isEvaluateCall isSaveCall
       isNotify length].
  destruct IH as (-> & -> & -> & -> & ->). repeat split.
Qed.

Lemma Budget_preamble item reqs tail :
  (length reqs <= 1)%nat ->
  count isExistsQuery tail = 0%nat ->
  count isEvaluateCall tail = 0%nat ->
  count isChatRequest tail = 0%nat ->
  (count isNotify tail <= count isSaveCall tail)%nat ->
  (count isSaveCall tail <= length reqs)%nat ->
  Budget 1 (([service.EvExists (rss.GUID item); service.EvEvaluate item]
               ++ map (service.EvChat item) reqs) ++ tail).
Proof.
  intros Hle H1 H2 H3 H4 H5. unfold Budget. rewrite !count_app.
  destruct (count_map_chat item reqs) as (-> & -> & -> & -> & ->).
  rewrite H1, H2, H3.
  change (count isExistsQuery
            [service.EvExists (rss.GUID item); service.EvEvaluate item])
    with 1%nat.
  change (count isEvaluateCall
            [service.EvExists (rss.GUID item); service.EvEvaluate item])
    with 1%nat.
  change (count isChatRequest
            [service.EvExists (rss.GUID item); service.EvEvaluate item])
    with 0%nat.
  change (count isSaveCall
            [service.EvExists (rss.GUID item); service.EvEvaluate item])
    with 0%nat.
  change (count isNotify
            [service.EvExists (rss.GUID item); service.EvEvaluate item])
    with 0%nat.
  repeat split; lia.
Qed.

Lemma step_budget analyzer f st item st' evs :
  ItemStep analyzer f st item st' evs -> Budget 1 evs.
Proof.
  intros H.
  destruct H as [?|? ?|reqs e ? ? He|reqs res ? ? He ?|reqs res ? ? He ?];
    try (pose proof (Evaluate_requests
                       analyzer (service.chat f) (service.itemContext item))
           as [Hle Hone];
         rewrite He in Hle, Hone; cbn [fst snd] in Hle, Hone).
  - unfold Budget, count. simpl. repeat split; lia.
  - unfold Budget, count. simpl. repeat split; lia.
  - rewrite <- (app_nil_r (_ ++ map _ reqs)).
    apply Budget_preamble; unfold count; simpl; lia.
  - specialize (Hone _ eq_refl).
    apply Budget_preamble; unfold count; simpl; lia.
  - specialize (Hone _ eq_refl).
    apply Budget_preamble; try lia;
      destruct (analysis.Relevant res); unfold count; simpl; lia.
Qed.

Lemma pollItems_budget analyzer batch st :
  Budget (length batch) (snd (service.pollItems analyzer batch st)).
Proof.
  revert st. induction batch as [|[item f] batch IH]; intros st.
  - unfold Budget, count. simpl. repeat split; lia.
  - rewrite pollItems_cons. cbn [snd length].
    change (S (length batch)) with (1 + length batch)%nat.
    apply Budget_app; [|apply IH].
    eapply step_budget, processItem_step.
Qed.

(** X20. What one cycle costs: one [Exists] query per fetched item; at
    most as many [Evaluate] calls as queries, at most as many chat
    requests as [Evaluate] calls, at most as many [SaveAnalysis] calls
    as chat requests and at most as many webhook calls as saves; and no
    chat request at all when the analyzer is not ready. *)
Theorem pollOnce_call_budget :
  forall (analyzer : analysis.Client) (c : service.Cycle)
         (st : storage.Store),
    (forall items,
        rss.Fetch (service.parsed c) (service.clock c) = Some items ->
        count isExistsQuery (snd (service.pollOnce analyzer c st))
        = length items)
    /\ (count isNotify (snd (service.pollOnce analyzer c st))
        <= count isSaveCall (snd (service.pollOnce analyzer c st)))%nat
    /\ (count isSaveCall (snd (service.pollOnce analyzer c st))
        <= count isChatRequest (snd (service.pollOnce analyzer c st)))%nat
    /\ (count isChatRequest (snd (service.pollOnce analyzer c st))
        <= count isEvaluateCall (snd (service.pollOnce analyzer c st)))%nat
    /\ (count isEvaluateCall (snd (service.pollOnce analyzer c st))
        <= count isExistsQuery (snd (service.pollOnce analyzer c st)))%nat
    /\ (analysis.Ready analyzer = false ->
        count isChatRequest (snd (service.pollOnce analyzer c st)) = 0%nat).
Proof.
  intros analyzer c st.
  assert (Hidle : analysis.Ready analyzer = false ->
                  count isChatRequest (snd (service.pollOnce analyzer c st))
                  = 0%nat).
  { intros Hr. destruct (Run_idle analyzer [c] st Hr) as [_ Hq].
    rewrite Run_cons in Hq. cbn [snd service.Run] in Hq.
    rewrite app_nil_r in Hq. unfold count.
    induction Hq as [|e evs He _ IH]; [reflexivity|].
    destruct e; cbn [filter isChatRequest]; try exact IH; destruct He. }
  destruct (rss.Fetch (service.parsed c) (service.clock c)) as [items|] eqn:E.
  - rewrite (pollOnce_fetched _ _ _ items E) in *. cbn [snd] in *.
    pose proof (pollItems_budget
                  analyzer (service.attach (service.fates c) 0 items) st)
      as (H1 & H2 & H3 & H4 & H5).
    assert (Hlen : length (service.attach (service.fates c) 0 items)
                   = length items)
      by (rewrite <- (attach_items (service.fates c) 0 items) at 2;
          now rewrite length_map).
    rewrite Hlen in *.
    set (evs := snd (service.pollItems analyzer _ st)) in *.
    change (service.EvFetch :: evs) with ([service.EvFetch] ++ evs) in *.
    rewrite !count_app in *.
    change (count isExistsQuery [service.EvFetch]) with 0%nat.
    change (count isNotify [service.EvFetch]) with 0%nat.
    change (count isSaveCall [service.EvFetch]) with 0%nat.
    change (count isChatRequest [service.EvFetch]) with 0%nat in *.
    change (count isEvaluateCall [service.EvFetch]) with 0%nat.
    cbn [Nat.add] in *.
    split; [intros items' [= <-]; exact H1|].
    repeat (split; [lia|]). exact Hidle.
  - unfold service.pollOnce in *. rewrite E in *. cbn [snd] in *.
    split; [discriminate|]. unfold count. simpl.
    repeat (split; [lia|]). reflexivity.
Qed.

(** ** Items that are not relevant and the listing *)

(** X21. Saving a verdict that is not relevant for an identifier not
    yet in the table changes neither what [ListRelevant] returns nor
    the answer of the /items handler, for any limit and whether the
    query fails or not. *)
Theorem irrelevant_save_leaves_listing :
  forall (now : Z) (st : storage.Store) (item : rss.Item)
         (result : analysis.Result) (fail : bool) (limit : Z),
    storage.lookup st (rss.GUID item) = None ->
    analysis.Relevant result = false ->
    storage.ListRelevant
      fail (fst (storage.SaveAnalysis false now st item result)) limit
    = storage.ListRelevant fail st limit
    /\ service.itemsHandler
         fail (fst (storage.SaveAnalysis false now st item result)) limit
       = service.itemsHandler fail st limit.
Proof.
  intros now st item result fail limit Hnew Hrel.
  assert (Hsel : storage.selectRelevant
                   (fst (storage.SaveAnalysis false now st item result)) limit
                 = storage.selectRelevant st limit).
  { unfold storage.SaveAnalysis, storage.selectRelevant, storage.upsert.
    cbn [fst]. apply lookup_none_exists in Hnew. rewrite Hnew.
    cbn [storage.rows]. rewrite filter_app. cbn [filter].
    cbn [storage.newRow storage.relevant]. rewrite Hrel.
    cbn [storage.boolToInt]. change (0 =? 1) with false.
    now rewrite app_nil_r. }
  assert (HL : storage.ListRelevant
                 fail (fst (storage.SaveAnalysis false now st item result))
                 limit
               = storage.ListRelevant fail st limit)
    by (unfold storage.ListRelevant; now rewrite Hsel).
  split; [exact HL|]. unfold service.itemsHandler. now rewrite HL.
Qed.

Lemma irrelevant_save_leaves_listing_witness :
  storage.ListRelevant
    false
    (fst (storage.SaveAnalysis false 1704070000 Sample.storeA
                               Sample.itemB Sample.resultNo)) 50
  = storage.ListRelevant false Sample.storeA 50
  /\ service.itemsHandler
       false
       (fst (storage.SaveAnalysis false 1704070000 Sample.storeA
                                  Sample.itemB Sample.resultNo)) 50
     = service.itemsHandler false Sample.storeA 50.
Proof.
  apply (irrelevant_save_leaves_listing
           1704070000 Sample.storeA Sample.itemB Sample.resultNo false 50);
    reflexivity.
Defined.

(** ** The newest item comes first *)

Lemma same_id_same_row (l : list storage.Row) (a b : storage.Row) :
  NoDup (map storage.id l) -> In a l -> In b l ->
  storage.id a = storage.id b -> a = b.
Proof.
  induction l as [|x l IH]; intros Hnd Ha Hb E; [destruct Ha|].
  cbn [map] in Hnd. inversion Hnd as [|? ? Hnotin Hnd']; subst.
  destruct Ha as [->|Ha], Hb as [->|Hb]; auto.
  - exfalso. apply Hnotin. rewrite E. now apply in_map.
  - exfalso. apply Hnotin. rewrite <- E. now apply in_map.
Qed.

Lemma orderBy_head (l : list storage.Row) (r : storage.Row) :
  NoDup (map storage.id l) ->
  In r l ->
  (forall x, In x l -> x <> r -> precedesP r x) ->
  exists rest, storage.orderBy l = r :: rest.
Proof.
  intros Hnd Hin Hfirst.
  pose proof (orderBy_perm l) as Hperm.
  assert (Hs : StronglySorted precedesP (storage.orderBy l)).
  { apply sorted_strict; [|apply orderBy_sorted].
    eapply Permutation_NoDup;
      [apply Permutation_map; symmetry; exact Hperm|exact Hnd]. }
  assert (Hin' : In r (storage.orderBy l))
    by (eapply Permutation_in; [symmetry; exact Hperm|exact Hin]).
  destruct (storage.orderBy l) as [|h rest]; [destruct Hin'|].
  exists rest. f_equal.
  destruct Hin' as [E|Hrest]; [exact E|].
  inversion Hs as [|? ? _ Hh]; subst.
  rewrite Forall_forall in Hh. specialize (Hh r Hrest).
  assert (Hhl : In h l)
    by (eapply Permutation_in; [exact Hperm|now left]).
  destruct (Z.eq_dec (storage.id h) (storage.id r)) as [Heq|Hne].
  - now apply (same_id_same_row l).
  - exfalso. apply (precedesP_asym h r Hh). apply Hfirst; [assumption|].
    intros ->. now apply Hne.
Qed.

(** X22. On a well-formed table, after a successful [SaveAnalysis] of a
    relevant verdict for an identifier not yet stored, whose published
    time is not before that of any relevant row, [ListRelevant] with a
    positive limit returns that item first: ahead of the rows published
    earlier, and ahead of the rows published at the same time because it
    was inserted last. *)
Theorem newest_relevant_item_is_listed_first :
  forall (now : Z) (st : storage.Store) (item : rss.Item)
         (result : analysis.Result) (limit : Z),
    wf st ->
    storage.lookup st (rss.GUID item) = None ->
    analysis.Relevant result = true ->
    (forall r t,
        In r (storage.rows st) -> storage.relevant r = 1 ->
        storage.published_at r = Some t -> t <= rss.PublishedAt item) ->
    0 < limit ->
    exists rest,
      storage.ListRelevant
        false (fst (storage.SaveAnalysis false now st item result)) limit
      = Ok (storage.scanRow (storage.newRow now (storage.nextID st) item result)
              :: rest).
Proof.
  intros now st item result limit Hw Hnew Hrel Hold Hlim.
  pose proof (wf_upsert now item result st Hw) as Hw'.
  unfold storage.SaveAnalysis, storage.ListRelevant, storage.selectRelevant.
  cbn [fst orb]. destruct (Z.ltb_spec limit 0); [lia|].
  set (r := storage.newRow now (storage.nextID st) item result).
  assert (Hrows : storage.rows (storage.upsert now item result st)
                  = storage.rows st ++ [r]).
  { unfold storage.upsert. apply lookup_none_exists in Hnew.
    now rewrite Hnew. }
  rewrite Hrows in *.
  set (sel := filter (fun x => storage.relevant x =? 1)
                     (storage.rows st ++ [r])).
  assert (Hr : In r sel).
  { unfold sel. apply filter_In. split; [apply in_app_iff; right; now left|].
    unfold r. cbn. now rewrite Hrel. }
  destruct (orderBy_head sel r) as (rest & ->); [| exact Hr | |].
  - unfold sel. apply filter_ids_NoDup, sorted_ids_NoDup.
    destruct Hw' as [Hids _ _ _]. now rewrite Hrows in Hids.
  - intros x Hx Hne. unfold sel in Hx. apply filter_In in Hx.
    destruct Hx as [Hx Hxrel]. apply Z.eqb_eq in Hxrel.
    apply in_app_iff in Hx. destruct Hx as [Hx|[<-|[]]]; [|congruence].
    destruct Hw as [_ Hb _ Hp]. rewrite Forall_forall in Hb, Hp.
    specialize (Hb x Hx). specialize (Hp x Hx).
    destruct (storage.published_at x) as [t|] eqn:Ht; [|congruence].
    specialize (Hold x t Hx Hxrel Ht).
    cbv beta in Hb.
    unfold precedesP, storage.pubKey. rewrite Ht. unfold r. cbn.
    clear - Hb Hold. lia.
  - destruct (Z.to_nat limit) as [|n] eqn:E; [clear - E Hlim; lia|].
    cbn [firstn map]. eexists. reflexivity.
Qed.

Lemma newest_relevant_item_is_listed_first_witness :
  exists rest,
    storage.ListRelevant
      false
      (fst (storage.SaveAnalysis false 1704070000 Sample.storeTies
                                 (Sample.itemAt (lit "g5") 300)
                                 Sample.resultA)) 2
    = Ok (storage.scanRow
            (storage.newRow 1704070000 (storage.nextID Sample.storeTies)
                            (Sample.itemAt (lit "g5") 300) Sample.resultA)
            :: rest).
Proof.
  apply (newest_relevant_item_is_listed_first
           1704070000 Sample.storeTies (Sample.itemAt (lit "g5") 300)
           Sample.resultA 2 wf_storeTies).
  - reflexivity.
  - reflexivity.
  - intros r t Hin Hr Ht. cbn in Hin.
    destruct Hin as [<-|[<-|[<-|[<-|[]]]]]; cbn in Ht, Hr;
      try discriminate; injection Ht as <-;
      cbn [rss.PublishedAt Sample.itemAt]; lia.
  - lia.
Defined.
